(** * Genotype batch splitter: a shallow embedding of
      [split_breed_plink_reimplemented.py] and the properties of its
      validation pipeline and group partitioner.

    The class [GenotypeDataSplitter] is embedded as a record [Splitter]
    threaded through every method.  Python dictionaries keep insertion order,
    and that order decides both the "first" marker file and the order of the
    output rows, so [map_data], [ped_data], [split_table] and the breed groups
    are association lists with unique keys; the set [all_sample_ids] and the
    counter dictionary built from it are a [gset] and a [gmap].

    Every [print("错误...")] of the source comes with
    [self.error_status = True]; the embedding keeps the flag and appends a
    structured [Defect] to a log in place of the printed message.

    The file system is a [Workdir]: the directory listing with, for each
    name, what iterating over the opened file delivers.  Outside the
    embedding are the prompt for the farm code and the disabled expiry
    check, informational messages, the zip archive and the removal of the
    three files it packs, and failures of the file system while writing. *)

From stdpp Require Import base decidable option list sets gmap fin_sets strings.
From Stdlib Require Import NArith.

Local Open Scope N_scope.
Local Open Scope nat_scope.

(** ** Text *)

(** A Python [str] is a sequence of Unicode code points. *)
Abbreviation char := N (only parsing).
Abbreviation str := (list N) (only parsing).

(** An ASCII literal as a [str]. *)
Definition u (s : string) : str :=
  (λ a, N.of_nat (Ascii.nat_of_ascii a)) <$> String.list_ascii_of_string s.

Definition tab : char := 9%N.
Definition nl : char := 10%N.

(** [str.isspace] on one code point. *)
Definition isspace (c : char) : bool :=
  ((9 <=? c) && (c <=? 13) || (28 <=? c) && (c <=? 32)
   || (c =? 133) || (c =? 160) || (c =? 5760)
   || (8192 <=? c) && (c <=? 8202)
   || (c =? 8232) || (c =? 8233) || (c =? 8239) || (c =? 8287)
   || (c =? 12288))%N.

Fixpoint lstrip (s : str) : str :=
  match s with
  | [] => []
  | c :: s' => if isspace c then lstrip s' else s
  end.

Definition rstrip (s : str) : str := reverse (lstrip (reverse s)).

(** [s.strip()] *)
Definition strip (s : str) : str := rstrip (lstrip s).

(** [s.split(sep)] for a one-character separator: never an empty list. *)
Fixpoint split (sep : char) (s : str) : list str :=
  match s with
  | [] => [[]]
  | c :: s' =>
      if (c =? sep)%N then [] :: split sep s'
      else match split sep s' with
           | [] => [[c]]
           | f :: fs => (c :: f) :: fs
           end
  end.

(** [line.strip().split('\t')], the first statement of every row loop. *)
Definition fields (line : str) : list str := split tab (strip line).

(** [s.endswith(suf)] and [s[:-4]]. *)
Definition endswith (s suf : str) : bool := bool_decide (suf `suffix_of` s).
Definition drop_last4 (s : str) : str := take (length s - 4) s.

(** ** Insertion-ordered dictionaries *)

Definition dict_keys {V} (d : list (str * V)) : list str := d.*1.

Definition dict_mem {V} (k : str) (d : list (str * V)) : bool :=
  bool_decide (k ∈ dict_keys d).

(** [d[k] = v]: a present key keeps its place, a new key goes last. *)
Fixpoint dict_set {V} (k : str) (v : V) (d : list (str * V)) : list (str * V) :=
  match d with
  | [] => [(k, v)]
  | (k', v') :: d' =>
      if decide (k' = k) then (k, v) :: d' else (k', v') :: dict_set k v d'
  end.

(** [defaultdict(list)]: [d[k].append(x)]. *)
Fixpoint dict_append {V} (k : str) (x : V) (d : list (str * list V))
  : list (str * list V) :=
  match d with
  | [] => [(k, [x])]
  | (k', xs) :: d' =>
      if decide (k' = k) then (k', xs ++ [x]) :: d'
      else (k', xs) :: dict_append k x d'
  end.

Fixpoint dict_get {V} (k : str) (d : list (str * V)) : option V :=
  match d with
  | [] => None
  | (k', v) :: d' => if decide (k' = k) then Some v else dict_get k d'
  end.

(** ** Data model *)

(** The tuple [(snp_id, chromosome, position, genetic_distance)]. *)
Record MarkerRecord := mkMarker {
  snp_id : str;
  chromosome : str;
  position : str;
  genetic_distance : str
}.

(** The tuple [(sample_id, family_id, father_id, mother_id, sex, phenotype,
    genotypes)]. *)
Record SampleRecord := mkSample {
  sample_id : str;
  family_id : str;
  father_id : str;
  mother_id : str;
  sex : str;
  phenotype : str;
  genotypes : list str
}.

#[global] Instance MarkerRecord_eq_dec : EqDecision MarkerRecord.
Proof. solve_decision. Defined.
#[global] Instance SampleRecord_eq_dec : EqDecision SampleRecord.
Proof. solve_decision. Defined.

(** Where a defect was found. *)
Inductive Source :=
  | MappingTable (filename : str)
  | MarkerFile (filename : str)
  | SampleFile (filename : str)
  | MarkerFiles.

Inductive SchemaReason := RowCountsDiffer | MarkerOrderDiffers.

(** One constructor per error message of the source, named after the error
    kinds of the specification. *)
Inductive Defect :=
  | MissingInput (src : Source)
  | EmptyInput (src : Source)
  | UnpairedInput (present missing : str)
  | MalformedRow (src : Source) (line_num : nat) (ncols : nat)
  | DuplicateKey (chip_id : str)
  | InconsistentSchema (why : SchemaReason)
  | UnrecognizedChipFormat
  | DuplicateSampleId (sample : str)
  | UnmappedChip (chip_id : str)
  | RowCountMismatch
  | BundleWriteFailure (breed : str)
  | ReadFailure (src : Source).

#[global] Instance Source_eq_dec : EqDecision Source.
Proof. solve_decision. Defined.
#[global] Instance SchemaReason_eq_dec : EqDecision SchemaReason.
Proof. solve_decision. Defined.
#[global] Instance Defect_eq_dec : EqDecision Defect.
Proof. solve_decision. Defined.

(** What [for line in f] delivers: the lines, then possibly an exception
    (a directory, an unreadable file, bytes that are not UTF-8). *)
Record File := mkFile { lines : list str; raises : bool }.

(** The working directory in [os.listdir] order. *)
Definition Workdir := list (str * File).

Definition path_exists (w : Workdir) (name : str) : bool := dict_mem name w.

(** [open(name)]: a missing file raises at once. *)
Definition open_file (w : Workdir) (name : str) : File :=
  default (mkFile [] true) (dict_get name w).

(** [os.path.getsize(name) == 0]: nothing to read and nothing to fail on. *)
Definition getsize_is_zero (f : File) : bool :=
  bool_decide (lines f = []) && negb (raises f).

(** The fields of [self]. *)
Record Splitter := mkSplitter {
  error_status : bool;
  exclude_set : gset str;
  map_data : list (str * list MarkerRecord);
  ped_data : list (str * list SampleRecord);
  split_table : list (str * (str * str));
  log : list Defect;
  warnings : list str
}.

(** [__init__] *)
Definition init : Splitter := mkSplitter false ∅ [] [] [] [] [].

(** [print("错误：..."); self.error_status = True] *)
Definition defect (d : Defect) (s : Splitter) : Splitter :=
  mkSplitter true (exclude_set s) (map_data s) (ped_data s) (split_table s)
             (log s ++ [d]) (warnings s).

(** Several messages, then [self.error_status = True] once. *)
Definition defects (ds : list Defect) (s : Splitter) : Splitter :=
  mkSplitter true (exclude_set s) (map_data s) (ped_data s) (split_table s)
             (log s ++ ds) (warnings s).

Definition warn (breed : str) (s : Splitter) : Splitter :=
  mkSplitter (error_status s) (exclude_set s) (map_data s) (ped_data s)
             (split_table s) (log s) (warnings s ++ [breed]).

Definition set_exclude_set (x : gset str) (s : Splitter) : Splitter :=
  mkSplitter (error_status s) x (map_data s) (ped_data s) (split_table s)
             (log s) (warnings s).

Definition set_map_data (m : list (str * list MarkerRecord)) (s : Splitter)
  : Splitter :=
  mkSplitter (error_status s) (exclude_set s) m (ped_data s) (split_table s)
             (log s) (warnings s).

Definition set_ped_data (p : list (str * list SampleRecord)) (s : Splitter)
  : Splitter :=
  mkSplitter (error_status s) (exclude_set s) (map_data s) p (split_table s)
             (log s) (warnings s).

Definition set_split_table (t : list (str * (str * str))) (s : Splitter)
  : Splitter :=
  mkSplitter (error_status s) (exclude_set s) (map_data s) (ped_data s) t
             (log s) (warnings s).

(** ** The loaders *)

(** [load_exclude_list]: a failure while reading is printed and nothing
    more, so only the lines read so far matter. *)
Definition load_exclude_list (w : Workdir) (filename : str) (s : Splitter)
  : Splitter :=
  if negb (path_exists w filename) then s
  else
    set_exclude_set
      (foldl (λ acc line,
                let chip_id := strip line in
                if bool_decide (chip_id = []) then acc else {[chip_id]} ∪ acc)
             (exclude_set s) (lines (open_file w filename)))
      s.

(** The row loop of [load_split_table], from line [line_num] on. *)
Fixpoint load_split_rows (filename : str) (line_num : nat) (ls : list str)
    (s : Splitter) : Splitter :=
  match ls with
  | [] => s
  | line :: rest =>
      let parts := fields line in
      load_split_rows filename (S line_num) rest
        (if bool_decide (length parts ≠ 3) then
           defect (MalformedRow (MappingTable filename) line_num (length parts)) s
         else
           match parts with
           | [chip_id; sample_name; breed] =>
               if dict_mem chip_id (split_table s) then
                 defect (DuplicateKey chip_id) s
               else
                 set_split_table
                   (dict_set chip_id (sample_name, breed) (split_table s)) s
           | _ => s
           end)
  end.

Definition load_split_table (w : Workdir) (filename : str) (s : Splitter)
  : Splitter :=
  if negb (path_exists w filename) then
    defect (MissingInput (MappingTable filename)) s
  else
    let f := open_file w filename in
    if getsize_is_zero f then defect (EmptyInput (MappingTable filename)) s
    else
      let s' := load_split_rows filename 1 (lines f) s in
      if raises f then defect (ReadFailure (MappingTable filename)) s' else s'.

(** The loop of [find_plink_files] over the directory listing. *)
Fixpoint find_plink_loop (w : Workdir) (names : list str) (s : Splitter)
    (map_files ped_files : list str) : Splitter * list str * list str :=
  match names with
  | [] => (s, map_files, ped_files)
  | filename :: rest =>
      if endswith filename (u ".map") then
        let ped_file := drop_last4 filename ++ u ".ped" in
        if path_exists w ped_file then
          find_plink_loop w rest s (map_files ++ [filename])
                          (ped_files ++ [ped_file])
        else
          find_plink_loop w rest (defect (UnpairedInput filename ped_file) s)
                          map_files ped_files
      else if endswith filename (u ".ped") then
        let map_file := drop_last4 filename ++ u ".map" in
        if negb (path_exists w map_file) then
          find_plink_loop w rest (defect (UnpairedInput filename map_file) s)
                          map_files ped_files
        else find_plink_loop w rest s map_files ped_files
      else find_plink_loop w rest s map_files ped_files
  end.

Definition find_plink_files (w : Workdir) (s : Splitter)
  : Splitter * list (str * str) :=
  let '(s', map_files, ped_files) := find_plink_loop w (dict_keys w) s [] [] in
  match map_files with
  | [] => (defect (MissingInput MarkerFiles) s', [])
  | _ => (s', zip map_files ped_files)
  end.

(** The row loop of [load_map_file]. *)
Fixpoint load_map_rows (filename : str) (line_num : nat) (ls : list str)
    (s : Splitter) (data : list MarkerRecord)
  : Splitter * list MarkerRecord :=
  match ls with
  | [] => (s, data)
  | line :: rest =>
      let parts := fields line in
      if bool_decide (length parts ≠ 4) then
        load_map_rows filename (S line_num) rest
          (defect (MalformedRow (MarkerFile filename) line_num (length parts)) s)
          data
      else
        match parts with
        | [chromosome; snp_id; genetic_distance; position] =>
            load_map_rows filename (S line_num) rest s
              (data ++ [mkMarker snp_id chromosome position genetic_distance])
        | _ => load_map_rows filename (S line_num) rest s data
        end
  end.

Definition load_map_file (w : Workdir) (filename : str) (s : Splitter)
  : Splitter * list MarkerRecord :=
  let f := open_file w filename in
  let '(s', data) := load_map_rows filename 1 (lines f) s [] in
  if raises f then (defect (ReadFailure (MarkerFile filename)) s', [])
  else (s', data).

(** The row loop of [load_ped_file]. *)
Fixpoint load_ped_rows (filename : str) (expected_columns : nat)
    (line_num : nat) (ls : list str) (s : Splitter) (data : list SampleRecord)
  : Splitter * list SampleRecord :=
  match ls with
  | [] => (s, data)
  | line :: rest =>
      let parts := fields line in
      if bool_decide (length parts ≠ expected_columns) then
        load_ped_rows filename expected_columns (S line_num) rest
          (defect (MalformedRow (SampleFile filename) line_num (length parts)) s)
          data
      else
        match parts with
        | family_id :: sample_id :: father_id :: mother_id :: sex :: phenotype
            :: genotypes =>
            load_ped_rows filename expected_columns (S line_num) rest s
              (data ++ [mkSample sample_id family_id father_id mother_id sex
                                 phenotype genotypes])
        | _ => load_ped_rows filename expected_columns (S line_num) rest s data
        end
  end.

Definition load_ped_file (w : Workdir) (filename : str)
    (expected_snp_count : nat) (s : Splitter) : Splitter * list SampleRecord :=
  let expected_columns := 6 + 2 * expected_snp_count in
  let f := open_file w filename in
  let '(s', data) := load_ped_rows filename expected_columns 1 (lines f) s [] in
  if raises f then (defect (ReadFailure (SampleFile filename)) s', [])
  else (s', data).

(** One turn of the loop of step 5 of [run]. *)
Definition load_pair (w : Workdir) (s : Splitter) (pair : str * str)
  : Splitter :=
  let '(map_file, ped_file) := pair in
  let prefix := drop_last4 map_file in
  let '(s1, data) := load_map_file w map_file s in
  match data with
  | [] => s1
  | _ :: _ =>
      let s2 := set_map_data (dict_set prefix data (map_data s1)) s1 in
      let '(s3, samples) := load_ped_file w ped_file (length data) s2 in
      match samples with
      | [] => s3
      | _ :: _ => set_ped_data (dict_set prefix samples (ped_data s3)) s3
      end
  end.

Definition load_plink_files (w : Workdir) (plink_files : list (str * str))
    (s : Splitter) : Splitter :=
  foldl (load_pair w) s plink_files.

(** ** The consistency validator *)

(** The second loop of [validate_map_consistency]: [true] when every SNP id
    sequence equals the first one met. *)
Fixpoint snp_order_consistent (first_snps : option (list str))
    (entries : list (str * list MarkerRecord)) : bool :=
  match entries with
  | [] => true
  | (_, data) :: rest =>
      let current_snps := snp_id <$> data in
      match first_snps with
      | None => snp_order_consistent (Some current_snps) rest
      | Some first =>
          if bool_decide (first ≠ current_snps) then false
          else snp_order_consistent first_snps rest
      end
  end.

Definition validate_map_consistency (s : Splitter) : Splitter * bool :=
  if bool_decide (length (map_data s) ≤ 1) then (s, true)
  else
    let snp_counts := (λ e, length e.2) <$> map_data s in
    if bool_decide (1 < size (list_to_set snp_counts : gset nat)) then
      (defect (InconsistentSchema RowCountsDiffer) s, false)
    else if snp_order_consistent None (map_data s) then (s, true)
    else (defect (InconsistentSchema MarkerOrderDiffers) s, false).

Definition v1plus_snps : list str :=
  [u "CNCB10000416"; u "CNCB10002887"; u "CNCB10004677"; u "CNCB10006046";
   u "CNCB10009510"; u "CNCB10009951"; u "CNCB10010848"].

(** Present in the source, not called by [run]. *)
Definition validate_v1plus_chip (s : Splitter) : Splitter * bool :=
  match map_data s with
  | [] => (s, false)
  | (_, first_map) :: _ =>
      let snp_ids := snp_id <$> first_map in
      if forallb (λ snp, bool_decide (snp ∈ snp_ids)) v1plus_snps then (s, true)
      else (defect UnrecognizedChipFormat s, false)
  end.

(** The first loop of [validate_data_integrity]: the set of all sample ids. *)
Definition all_sample_ids (s : Splitter) : gset str :=
  foldl (λ acc e, foldl (λ acc sample_data, {[sample_id sample_data]} ∪ acc)
                        acc e.2)
        ∅ (ped_data s).

(** [sample_id_counts]: one increment per element of the set. *)
Definition sample_id_counts (ids : gset str) : gmap str nat :=
  set_fold (λ sample counts, <[sample := S (default 0 (counts !! sample))]> counts)
           ∅ ids.

(** The messages of the loop over [sample_id_counts.items()]. *)
Definition duplicate_defects (counts : gmap str nat) : list Defect :=
  (λ e, DuplicateSampleId e.1) <$> filter (λ e, 1 < e.2) (map_to_list counts).

Definition missing_genotypes (s : Splitter) (ids : gset str) : list str :=
  filter (λ chip_id, chip_id ∉ ids) (dict_keys (split_table s)).

Definition validate_data_integrity (s : Splitter) : Splitter * bool :=
  let ids := all_sample_ids s in
  let s1 :=
    match duplicate_defects (sample_id_counts ids) with
    | [] => s
    | ds => defects ds s
    end in
  let s2 :=
    match missing_genotypes s ids with
    | [] => s1
    | missing => defects (UnmappedChip <$> missing) s1
    end in
  let s3 :=
    if bool_decide (length (split_table s) ≠ size ids) then
      defect RowCountMismatch s2
    else s2 in
  (s3, negb (error_status s3)).

(** ** The group partitioner *)

(** The three files a group's archive holds, each as the sequence of strings
    written to it. *)
Record Bundle := mkBundle {
  stem : str;
  map_out : list str;
  ped_out : list str;
  idmap_out : list str
}.

Definition map_line (snp_data : MarkerRecord) : str :=
  chromosome snp_data ++ [tab] ++ snp_id snp_data ++ [tab]
  ++ genetic_distance snp_data ++ [tab] ++ position snp_data ++ [nl].

Definition ped_line (sample_data : SampleRecord) : str :=
  foldl (λ line genotype, line ++ [tab] ++ genotype)
        (family_id sample_data ++ [tab] ++ sample_id sample_data ++ [tab]
         ++ father_id sample_data ++ [tab] ++ mother_id sample_data ++ [tab]
         ++ sex sample_data ++ [tab] ++ phenotype sample_data)
        (genotypes sample_data)
  ++ [nl].

(** The inner loop over one sample table, left at the first match. *)
Fixpoint find_in_ped (chip_id : str) (data : list SampleRecord)
  : option SampleRecord :=
  match data with
  | [] => None
  | sample_data :: rest =>
      if decide (sample_id sample_data = chip_id) then Some sample_data
      else find_in_ped chip_id rest
  end.

(** The loop over [self.ped_data.items()], left once [found]. *)
Fixpoint find_sample (chip_id : str) (peds : list (str * list SampleRecord))
  : option SampleRecord :=
  match peds with
  | [] => None
  | (_, data) :: rest =>
      match find_in_ped chip_id data with
      | Some sample_data => Some sample_data
      | None => find_sample chip_id rest
      end
  end.

(** The loop over [samples], growing [breed_ped_data] and [id_mapping]. *)
Fixpoint collect (peds : list (str * list SampleRecord))
    (samples : list (str * str)) (breed_ped_data : list SampleRecord)
    (id_mapping : list str) : list SampleRecord * list str :=
  match samples with
  | [] => (breed_ped_data, id_mapping)
  | (chip_id, sample_name) :: rest =>
      match find_sample chip_id peds with
      | Some sample_data =>
          collect peds rest (breed_ped_data ++ [sample_data])
                  (id_mapping ++ [chip_id ++ [tab] ++ sample_name])
      | None => collect peds rest breed_ped_data id_mapping
      end
  end.

(** [generate_breed_files]: [list(self.map_data.values())[0]] raises on an
    empty dictionary, which the handler turns into a message and the flag. *)
Definition generate_breed_files (s : Splitter) (breed : str)
    (samples : list (str * str)) (output_prefix : str)
  : Splitter * option Bundle :=
  match map_data s with
  | [] => (defect (BundleWriteFailure breed) s, None)
  | (_, template_map) :: _ =>
      let '(breed_ped_data, id_mapping) := collect (ped_data s) samples [] [] in
      (s, Some (mkBundle output_prefix
                         (map_line <$> template_map)
                         (ped_line <$> breed_ped_data)
                         ((λ mapping, mapping ++ [nl]) <$> id_mapping)))
  end.

(** The grouping loop of [split_by_breed]. *)
Definition breed_groups (table : list (str * (str * str)))
  : list (str * list (str * str)) :=
  foldl (λ groups e, dict_append e.2.2 (e.1, e.2.1) groups) [] table.

(** The loop over [breed_groups.items()]. *)
Fixpoint split_groups (now_time_str : str)
    (groups : list (str * list (str * str))) (s : Splitter)
  : Splitter * list Bundle :=
  match groups with
  | [] => (s, [])
  | (breed, samples) :: rest =>
      let s1 := if bool_decide (length samples < 100) then warn breed s else s in
      let output_prefix := breed ++ u "_" ++ now_time_str in
      let '(s2, out) := generate_breed_files s1 breed samples output_prefix in
      let '(s3, outs) := split_groups now_time_str rest s2 in
      (s3, option_list out ++ outs)
  end.

Definition split_by_breed (now_time_str : str) (s : Splitter)
  : Splitter * list Bundle :=
  if error_status s then (s, [])
  else split_groups now_time_str (breed_groups (split_table s)) s.

(** ** The main program *)

Record Outcome := mkOutcome {
  exit_code : nat;
  final : Splitter;
  bundles : list Bundle
}.

(** [run] after the prompt for the farm code, which nothing reads. *)
Definition run (w : Workdir) (now_time_str : str) : Outcome :=
  let s := load_exclude_list w (u "exclude_chipid.txt") init in
  let s := load_split_table w (u "split_plink.txt") s in
  if error_status s then mkOutcome 1 s []
  else
    let '(s, plink_files) := find_plink_files w s in
    if error_status s then mkOutcome 1 s []
    else
      let s := load_plink_files w plink_files s in
      if error_status s then mkOutcome 1 s []
      else
        let '(s, ok) := validate_map_consistency s in
        if negb ok then mkOutcome 1 s []
        else
          let '(s, ok) := validate_data_integrity s in
          if negb ok then mkOutcome 1 s []
          else
            let '(s, out) := split_by_breed now_time_str s in
            mkOutcome 0 s out.

(** * Vocabulary of the statements *)

(** [extends s s'] says that [s'] is [s] with some defects appended to the
    log, and that the flag of [s'] is raised exactly when it was already
    raised in [s] or something was appended. *)
Definition extends (s s' : Splitter) : Prop :=
  ∃ ds, log s' = log s ++ ds
        ∧ error_status s' = error_status s || bool_decide (ds ≠ []).

(** A state is [sound] when its flag is raised as soon as its log is not
    empty; [init] is, and [extends] keeps it. *)
Definition sound (s : Splitter) : Prop := log s ≠ [] → error_status s = true.

(** Every sample table sits under the file stem of a marker table. *)
Definition paired (s : Splitter) : Prop :=
  ∀ k, k ∈ dict_keys (ped_data s) → k ∈ dict_keys (map_data s).

(** Every loaded sample record, in dictionary order then file order. *)
Definition all_samples (s : Splitter) : list SampleRecord :=
  concat ((λ e, e.2) <$> ped_data s).

Definition occurrences (d : Defect) (l : list Defect) : nat :=
  length (filter (λ d', d' = d) l).

(** The assignments [family_id = parts[0]] ... [genotypes = parts[6:]] of
    [load_ped_file], and the tuple built from them. *)
Definition sample_of_parts (parts : list str) : SampleRecord :=
  mkSample (parts !!! 1) (parts !!! 0) (parts !!! 2) (parts !!! 3)
           (parts !!! 4) (parts !!! 5) (drop 6 parts).

(** [chromosome, snp_id, genetic_distance, position = parts] of
    [load_map_file], and the tuple built from them. *)
Definition marker_of_parts (parts : list str) : MarkerRecord :=
  mkMarker (parts !!! 1) (parts !!! 0) (parts !!! 3) (parts !!! 2).

Create HintDb splitter discriminated.

(** ** Scenarios *)

(** ['\t'.join(l)] *)
Fixpoint join (sep : str) (l : list str) : str :=
  match l with
  | [] => []
  | [x] => x
  | x :: l' => x ++ sep ++ join sep l'
  end.

(** One line of a tab-separated file. *)
Definition tsv (cells : list string) : str := join [tab] (u <$> cells) ++ [nl].

Definition stamp : str := u "20250101120000".

(** One marker, one mapping entry, and two different sample rows that share
    the sample id [S1]. *)
Definition dup_workdir : Workdir :=
  [ (u "split_plink.txt", mkFile [tsv ["S1"; "Alice"; "BreedA"]] false);
    (u "a.map", mkFile [tsv ["1"; "M1"; "0"; "100"]] false);
    (u "a.ped",
     mkFile [tsv ["F1"; "S1"; "0"; "0"; "1"; "-9"; "A"; "A"];
             tsv ["F2"; "S1"; "0"; "0"; "2"; "-9"; "C"; "C"]] false) ].

(** A marker file with one line that is not a marker row, next to a sample
    file that is fine. *)
Definition bad_marker_workdir : Workdir :=
  [ (u "b.map", mkFile [tsv ["oops"]] false);
    (u "b.ped", mkFile [tsv ["F1"; "S1"; "0"; "0"; "1"; "-9"; "A"; "A"]] false) ].

(** Two markers, three samples stored in the order [S3], [S2], [S1], and a
    mapping table listing [S1], [S2], [S3] with two breeds. *)
Definition demo_workdir : Workdir :=
  [ (u "split_plink.txt",
     mkFile [tsv ["S1"; "Alice"; "BreedA"];
             tsv ["S2"; "Bob"; "BreedB"];
             tsv ["S3"; "Carol"; "BreedA"]] false);
    (u "a.map",
     mkFile [tsv ["1"; "M1"; "0"; "100"]; tsv ["1"; "M2"; "0"; "200"]] false);
    (u "a.ped",
     mkFile [tsv ["F3"; "S3"; "0"; "0"; "2"; "-9"; "G"; "G"; "T"; "T"];
             tsv ["F2"; "S2"; "0"; "0"; "1"; "-9"; "C"; "C"; "T"; "T"];
             tsv ["F1"; "S1"; "0"; "0"; "1"; "-9"; "A"; "A"; "C"; "C"]] false) ].

Definition demo_markers : list MarkerRecord :=
  [ mkMarker (u "M1") (u "1") (u "100") (u "0");
    mkMarker (u "M2") (u "1") (u "200") (u "0") ].

(** The state [run] reaches on [demo_workdir]. *)
Definition demo_state : Splitter := final (run demo_workdir stamp).

(** [demo_state] with one more mapping entry, whose chip id has no sample. *)
Definition unmapped_state : Splitter :=
  set_split_table (split_table demo_state ++ [(u "S9", (u "Zed", u "BreedA"))])
                  demo_state.

(** Two marker tables of equal length whose marker ids are transposed. *)
Definition transposed_state : Splitter :=
  set_map_data
    [ (u "a", demo_markers);
      (u "b", [ mkMarker (u "M2") (u "1") (u "200") (u "0");
                mkMarker (u "M1") (u "1") (u "100") (u "0") ]) ]
    init.

(** A mapping table with a one-field line and a repeated chip id, and a
    sample file whose second row lacks one genotype column. *)
Definition defective_workdir : Workdir :=
  [ (u "split_plink.txt",
     mkFile [tsv ["S1"; "Alice"; "BreedA"];
             tsv ["oops"];
             tsv ["S1"; "Bob"; "BreedB"];
             tsv ["S2"; "Carol"; "BreedA"]] false);
    (u "c.ped",
     mkFile [tsv ["F1"; "S1"; "0"; "0"; "1"; "-9"; "A"; "A"; "C"; "C"; "G"; "G"];
             tsv ["F2"; "S2"; "0"; "0"; "1"; "-9"; "A"; "A"; "C"; "C"; "G"];
             tsv ["F3"; "S3"; "0"; "0"; "2"; "-9"; "T"; "T"; "C"; "C"; "G"; "G"]]
            false) ].

(** A directory holding one file, [name], with the given lines. *)
Definition single_file (name : str) (content : list str) : Workdir :=
  [(name, mkFile content false)].

(** Two states that agree on everything but the exclude set. *)
Definition same_but_exclude_set (s s' : Splitter) : Prop :=
  error_status s = error_status s' ∧ map_data s = map_data s'
  ∧ ped_data s = ped_data s' ∧ split_table s = split_table s'
  ∧ log s = log s' ∧ warnings s = warnings s'.

(** The directory without the file of the given name. *)
Definition without_file (name : str) (w : list (str * File))
  : list (str * File) :=
  filter (λ e, e.1 ≠ name) w.

(** [demo_state] with its marker tables taken away. *)
Definition no_template_state : Splitter := set_map_data [] demo_state.

(** Two states with the same loaded tables. *)
Definition same_tables (s s' : Splitter) : Prop :=
  map_data s' = map_data s ∧ ped_data s' = ped_data s
  ∧ split_table s' = split_table s.

(** * Properties *)

(** ** The error flag follows the log *)

Lemma extends_refl s : extends s s.
Proof. exists []. rewrite app_nil_r, orb_false_r. done. Qed.

Lemma extends_trans s1 s2 s3 : extends s1 s2 → extends s2 s3 → extends s1 s3.
Proof.
  intros (d1 & L1 & E1) (d2 & L2 & E2). exists (d1 ++ d2). split.
  - by rewrite L2, L1, app_assoc.
  - rewrite E2, E1, <- orb_assoc. f_equal.
    destruct d1, d2; done.
Qed.

Lemma extends_defect d s : extends s (defect d s).
Proof. exists [d]. split; [done|]. simpl. by rewrite orb_true_r. Qed.

Lemma extends_defects ds s : ds ≠ [] → extends s (defects ds s).
Proof.
  intros H. exists ds. split; [done|]. simpl.
  rewrite bool_decide_true by done. by rewrite orb_true_r.
Qed.

Lemma extends_same_log s s' :
  log s' = log s → error_status s' = error_status s → extends s s'.
Proof.
  intros L E. exists []. by rewrite L, E, app_nil_r, orb_false_r.
Qed.

#[global] Hint Resolve extends_refl extends_defect : splitter.

Lemma extends_flag s s' :
  extends s s' → error_status s = true → error_status s' = true.
Proof. intros (ds & _ & E) H. by rewrite E, H. Qed.

Lemma extends_clean s s' :
  extends s s' → error_status s' = false → log s' = log s.
Proof.
  intros (ds & L & E) H. rewrite H in E. symmetry in E.
  apply orb_false_elim in E as [_ E]. apply bool_decide_eq_false in E.
  destruct ds; [by rewrite app_nil_r in L | by destruct E].
Qed.

Lemma extends_prefix s s' : extends s s' → log s `prefix_of` log s'.
Proof. intros (ds & L & _). by exists ds. Qed.

Lemma sound_init : sound init.
Proof. by intros ?. Qed.

Lemma extends_sound s s' : sound s → extends s s' → sound s'.
Proof.
  intros S (ds & L & E) N. rewrite E. destruct ds as [|d ds].
  - rewrite app_nil_r in L. rewrite L in N. by rewrite (S N).
  - by rewrite orb_true_r.
Qed.

Lemma load_exclude_list_log w f s :
  log (load_exclude_list w f s) = log s
  ∧ error_status (load_exclude_list w f s) = error_status s
  ∧ split_table (load_exclude_list w f s) = split_table s
  ∧ map_data (load_exclude_list w f s) = map_data s
  ∧ ped_data (load_exclude_list w f s) = ped_data s.
Proof. unfold load_exclude_list. by destruct (negb _). Qed.

Lemma load_split_rows_extends f n ls s : extends s (load_split_rows f n ls s).
Proof.
  revert n s. induction ls as [|line ls IH]; intros n s; simpl.
  - apply extends_refl.
  - eapply extends_trans; [|apply IH].
    case_bool_decide; [apply extends_defect|].
    destruct (fields line) as [|a [|b [|c [|]]]]; try apply extends_refl.
    destruct (dict_mem _ _); [apply extends_defect|by apply extends_same_log].
Qed.

Lemma load_split_table_extends w f s : extends s (load_split_table w f s).
Proof.
  unfold load_split_table.
  destruct (negb _); [apply extends_defect|].
  destruct (getsize_is_zero _); [apply extends_defect|].
  destruct (raises _).
  - eapply extends_trans; [apply load_split_rows_extends|apply extends_defect].
  - apply load_split_rows_extends.
Qed.

Lemma find_plink_loop_extends w names s ms ps :
  extends s (find_plink_loop w names s ms ps).1.1.
Proof.
  revert s ms ps. induction names as [|x names IH]; intros s ms ps; simpl.
  - apply extends_refl.
  - repeat case_match; try apply IH;
      (eapply extends_trans; [apply extends_defect|apply IH]).
Qed.

Lemma find_plink_files_extends w s : extends s (find_plink_files w s).1.
Proof.
  unfold find_plink_files.
  pose proof (find_plink_loop_extends w (dict_keys w) s [] []) as H.
  destruct (find_plink_loop _ _ _ _ _) as [[s' ms] ps]. simpl in H.
  destruct ms; simpl; [|done].
  eapply extends_trans; [exact H|apply extends_defect].
Qed.

Lemma load_map_rows_extends f n ls s data :
  extends s (load_map_rows f n ls s data).1.
Proof.
  revert n s data. induction ls as [|line ls IH]; intros n s data; simpl.
  - apply extends_refl.
  - case_bool_decide.
    + eapply extends_trans; [apply extends_defect|apply IH].
    + destruct (fields line) as [|a [|b [|c [|d [|]]]]]; apply IH.
Qed.

Lemma load_map_file_extends w f s : extends s (load_map_file w f s).1.
Proof.
  unfold load_map_file.
  pose proof (load_map_rows_extends f 1 (lines (open_file w f)) s []) as H.
  destruct (load_map_rows _ _ _ _ _) as [s' data]. simpl in H.
  destruct (raises _); simpl; [|done].
  eapply extends_trans; [exact H|apply extends_defect].
Qed.

Lemma load_ped_rows_extends f k n ls s data :
  extends s (load_ped_rows f k n ls s data).1.
Proof.
  revert n s data. induction ls as [|line ls IH]; intros n s data; simpl.
  - apply extends_refl.
  - case_bool_decide.
    + eapply extends_trans; [apply extends_defect|apply IH].
    + destruct (fields line) as [|a [|b [|c [|d [|e [|g ?]]]]]]; apply IH.
Qed.

Lemma load_ped_file_extends w f k s : extends s (load_ped_file w f k s).1.
Proof.
  unfold load_ped_file.
  pose proof (load_ped_rows_extends f (6 + 2 * k) 1 (lines (open_file w f)) s [])
    as H.
  destruct (load_ped_rows _ _ _ _ _ _) as [s' data]. simpl in H.
  destruct (raises _); simpl; [|done].
  eapply extends_trans; [exact H|apply extends_defect].
Qed.

Lemma load_pair_extends w s pair : extends s (load_pair w s pair).
Proof.
  destruct pair as [mf pf]. unfold load_pair.
  pose proof (load_map_file_extends w mf s) as H1.
  destruct (load_map_file w mf s) as [s1 data]. simpl in H1.
  destruct data as [|m data]; [done|].
  set (s2 := set_map_data _ s1).
  pose proof (load_ped_file_extends w pf (length (m :: data)) s2) as H2.
  destruct (load_ped_file _ _ _ _) as [s3 samples]. simpl in H2.
  assert (extends s s3) as H3.
  { eapply extends_trans; [exact H1|].
    eapply extends_trans; [|exact H2]. by apply extends_same_log. }
  destruct samples; [done|].
  eapply extends_trans; [exact H3|by apply extends_same_log].
Qed.

Lemma load_plink_files_extends w pairs s :
  extends s (load_plink_files w pairs s).
Proof.
  unfold load_plink_files. revert s.
  induction pairs as [|p pairs IH]; intros s; simpl.
  - apply extends_refl.
  - eapply extends_trans; [apply load_pair_extends|apply IH].
Qed.

Lemma validate_map_consistency_extends s :
  extends s (validate_map_consistency s).1.
Proof.
  unfold validate_map_consistency.
  repeat case_match; simpl; auto with splitter.
Qed.

Lemma validate_data_integrity_extends s :
  extends s (validate_data_integrity s).1.
Proof.
  unfold validate_data_integrity. simpl.
  set (s1 := match duplicate_defects _ with [] => s | _ => _ end).
  set (s2 := match missing_genotypes _ _ with [] => s1 | _ => _ end).
  assert (extends s s1) as H1.
  { subst s1. destruct (duplicate_defects _) eqn:E; [apply extends_refl|].
    by apply extends_defects. }
  assert (extends s1 s2) as H2.
  { subst s2. destruct (missing_genotypes _ _) eqn:E; [apply extends_refl|].
    by apply extends_defects. }
  eapply extends_trans; [exact H1|]. eapply extends_trans; [exact H2|].
  case_bool_decide; auto with splitter.
Qed.

(** ** Sample ids and the search for a sample *)

Lemma elem_of_add_sample_ids (l : list SampleRecord) (acc : gset str) x :
  x ∈ foldl (λ acc sample_data, {[sample_id sample_data]} ∪ acc) acc l
  ↔ x ∈ acc ∨ x ∈ sample_id <$> l.
Proof.
  revert acc. induction l as [|r l IH]; intros acc; simpl.
  - rewrite elem_of_nil. tauto.
  - rewrite IH, elem_of_union, elem_of_singleton, elem_of_cons. tauto.
Qed.

Lemma elem_of_all_sample_ids s x :
  x ∈ all_sample_ids s ↔ x ∈ sample_id <$> all_samples s.
Proof.
  unfold all_sample_ids, all_samples.
  enough (∀ peds (acc : gset str),
    x ∈ foldl (λ acc (e : str * list SampleRecord),
                 foldl (λ acc sample_data, {[sample_id sample_data]} ∪ acc)
                       acc e.2) acc peds
    ↔ x ∈ acc ∨ x ∈ sample_id <$> concat ((λ e, e.2) <$> peds)) as H.
  { rewrite H, elem_of_empty. tauto. }
  induction peds as [|[p data] peds IH]; intros acc; simpl.
  - rewrite elem_of_nil. tauto.
  - rewrite IH, elem_of_add_sample_ids, fmap_app, elem_of_app. simpl. tauto.
Qed.

Lemma find_in_ped_Some c data r :
  find_in_ped c data = Some r → r ∈ data ∧ sample_id r = c.
Proof.
  induction data as [|x data IH]; simpl; [done|].
  case_decide as E.
  - intros [= <-]. split; [left|done].
  - intros [? ?]%IH. split; [by right|done].
Qed.

Lemma find_in_ped_None c data :
  find_in_ped c data = None ↔ c ∉ sample_id <$> data.
Proof.
  induction data as [|x data IH]; simpl.
  - split; [intros _; apply not_elem_of_nil|done].
  - rewrite not_elem_of_cons. case_decide as E.
    + split; [done|]. intros [N _]. by destruct N.
    + rewrite IH. split; [by intros ?; split|by intros [_ ?]].
Qed.

Lemma find_sample_Some c peds r :
  find_sample c peds = Some r
  → r ∈ concat ((λ e, e.2) <$> peds) ∧ sample_id r = c.
Proof.
  induction peds as [|[p data] peds IH]; simpl; [done|].
  destruct (find_in_ped c data) as [r'|] eqn:E.
  - intros [= <-]. apply find_in_ped_Some in E as [? ?].
    split; [|done]. apply elem_of_app. by left.
  - intros [? ?]%IH. split; [|done]. apply elem_of_app. by right.
Qed.

Lemma find_sample_None c peds :
  find_sample c peds = None ↔ c ∉ sample_id <$> concat ((λ e, e.2) <$> peds).
Proof.
  induction peds as [|[p data] peds IH]; simpl.
  - split; [intros _; apply not_elem_of_nil|done].
  - rewrite fmap_app, not_elem_of_app, <- IH, <- find_in_ped_None.
    destruct (find_in_ped c data) as [r|].
    + split; [done|]. by intros [N _].
    + tauto.
Qed.

Lemma find_sample_is_Some s c :
  c ∈ all_sample_ids s → is_Some (find_sample c (ped_data s)).
Proof.
  rewrite elem_of_all_sample_ids. intros H.
  destruct (find_sample c (ped_data s)) eqn:E; [by eexists|].
  by apply find_sample_None in E.
Qed.

(** ** The duplicate check counts the elements of a set *)

Lemma sample_id_counts_lookup ids sample c :
  sample_id_counts ids !! sample = Some c → c = 1 ∧ sample ∈ ids.
Proof.
  unfold sample_id_counts. revert sample c.
  apply (set_fold_ind_L
           (λ (m : gmap str nat) (X : gset str),
              ∀ sample c, m !! sample = Some c → c = 1 ∧ sample ∈ X)).
  - intros sample c H. by rewrite lookup_empty in H.
  - intros x X m Hx IH sample c. rewrite lookup_insert.
    case_decide as E.
    + subst x. intros [= <-]. split.
      * destruct (m !! sample) as [c'|] eqn:L; [|done].
        apply IH in L as [_ ?]. done.
      * apply elem_of_union. left. by apply elem_of_singleton.
    + intros H. apply IH in H as [? ?]. split; [done|].
      apply elem_of_union. by right.
Qed.

(** The loop over [sample_id_counts.items()] never prints: every count is 1. *)
Lemma duplicate_defects_nil ids : duplicate_defects (sample_id_counts ids) = [].
Proof.
  unfold duplicate_defects.
  enough (filter (λ e : str * nat, 1 < e.2)
                 (map_to_list (sample_id_counts ids)) = []) as -> by done.
  destruct (filter _ _) as [|[k c] l] eqn:E; [done|].
  assert ((k, c) ∈ filter (λ e : str * nat, 1 < e.2)
                          (map_to_list (sample_id_counts ids))) as H.
  { rewrite E. left. }
  apply list_elem_of_filter in H as [Hc H]. simpl in Hc.
  apply elem_of_map_to_list in H. apply sample_id_counts_lookup in H as [-> _].
  lia.
Qed.

(** What [validate_data_integrity] does, with the vacuous loop removed. *)
Lemma validate_data_integrity_unfold s :
  validate_data_integrity s =
    let ids := all_sample_ids s in
    let s2 := match missing_genotypes s ids with
              | [] => s
              | missing => defects (UnmappedChip <$> missing) s
              end in
    let s3 := if bool_decide (length (split_table s) ≠ size ids)
              then defect RowCountMismatch s2 else s2 in
    (s3, negb (error_status s3)).
Proof. unfold validate_data_integrity. by rewrite duplicate_defects_nil. Qed.

Lemma not_duplicate_in_unmapped sample (l : list str) :
  DuplicateSampleId sample ∉ UnmappedChip <$> l.
Proof. intros (? & ? & _)%list_elem_of_fmap. done. Qed.

(** No run of the validator ever records a [DuplicateSampleId]. *)
Lemma duplicate_check_is_vacuous s sample :
  DuplicateSampleId sample ∈ log (validate_data_integrity s).1
  → DuplicateSampleId sample ∈ log s.
Proof.
  rewrite validate_data_integrity_unfold. simpl.
  set (s2 := match missing_genotypes _ _ with [] => s | _ => _ end).
  assert (DuplicateSampleId sample ∈ log s2 → DuplicateSampleId sample ∈ log s)
    as H2.
  { subst s2. destruct (missing_genotypes _ _) as [|m ms]; [done|].
    unfold defects. cbn [log]. rewrite elem_of_app. intros [?|H]; [done|].
    by apply (not_duplicate_in_unmapped sample (m :: ms)) in H. }
  case_bool_decide; [|done]. simpl.
  rewrite elem_of_app, list_elem_of_singleton. intros [?|?]; [auto|done].
Qed.

(** A validated state: nothing was flagged before, every chip id of the
    mapping table has a sample, and the two counts agree. *)
Lemma validate_data_integrity_true s :
  (validate_data_integrity s).2 = true
  ↔ error_status s = false
    ∧ (∀ c, c ∈ dict_keys (split_table s) → c ∈ all_sample_ids s)
    ∧ length (split_table s) = size (all_sample_ids s).
Proof.
  rewrite validate_data_integrity_unfold. simpl.
  rewrite negb_true_iff. split.
  - case_bool_decide as L; [done|].
    destruct (missing_genotypes _ _) as [|m ms] eqn:M; [|done].
    intros E. split; [done|]. split.
    + intros c Hc. destruct (decide (c ∈ all_sample_ids s)) as [|N]; [done|].
      unfold missing_genotypes in M.
      by destruct (filter_nil_not_elem_of _ _ c M N).
    + done.
  - intros (E & H & L). rewrite bool_decide_false by lia.
    destruct (missing_genotypes _ _) as [|m ms] eqn:M; [done|].
    assert (m ∈ missing_genotypes s (all_sample_ids s)) as Hm.
    { rewrite M. left. }
    apply list_elem_of_filter in Hm as [N Hm]. destruct N. by apply H.
Qed.

Lemma validate_data_integrity_true_same s :
  (validate_data_integrity s).2 = true → (validate_data_integrity s).1 = s.
Proof.
  intros H. pose proof H as (E & Hc & L)%validate_data_integrity_true.
  rewrite validate_data_integrity_unfold. simpl.
  rewrite bool_decide_false by lia.
  destruct (missing_genotypes _ _) as [|m ms] eqn:M; [done|].
  assert (m ∈ missing_genotypes s (all_sample_ids s)) as Hm.
  { rewrite M. left. }
  apply list_elem_of_filter in Hm as [N Hm]. destruct N. by apply Hc.
Qed.

(** C1, as the code behaves: [validate_data_integrity] never adds a
    [DuplicateSampleId] defect to the log, whatever the batch; and the batch
    of [dup_workdir], whose sample file holds two records with the sample id
    [S1], passes validation with an empty log, the program ends with exit
    code 0, and partitioning runs and writes a bundle.  The claim asks for a
    [DuplicateSampleId] defect and no partitioning. *)
Theorem C1_duplicate_sample_id_goes_unreported :
  (∀ s sample,
     DuplicateSampleId sample ∈ log (validate_data_integrity s).1
     → DuplicateSampleId sample ∈ log s)
  ∧ let out := run dup_workdir stamp in
    sample_id <$> all_samples (final out) = [u "S1"; u "S1"]
    ∧ log (final out) = []
    ∧ exit_code out = 0
    ∧ length (bundles out) = 1.
Proof.
  split; [apply duplicate_check_is_vacuous|].
  vm_compute. done.
Qed.

(** ** Mapping entries without a sample *)

Lemma occurrences_app d l1 l2 :
  occurrences d (l1 ++ l2) = occurrences d l1 + occurrences d l2.
Proof. unfold occurrences. by rewrite filter_app, length_app. Qed.

Lemma occurrences_unmapped_notin chip (l : list str) :
  chip ∉ l → occurrences (UnmappedChip chip) (UnmappedChip <$> l) = 0.
Proof.
  unfold occurrences. induction l as [|x l IH]; [done|].
  intros [N1 N2]%not_elem_of_cons. rewrite fmap_cons, filter_cons_False.
  - by apply IH.
  - intros [= ->]. done.
Qed.

Lemma occurrences_unmapped_NoDup chip (l : list str) :
  NoDup l → chip ∈ l → occurrences (UnmappedChip chip) (UnmappedChip <$> l) = 1.
Proof.
  unfold occurrences. induction l as [|x l IH]; intros ND H.
  - by apply elem_of_nil in H.
  - apply NoDup_cons in ND as [Nx ND]. rewrite fmap_cons.
    destruct (decide (x = chip)) as [->|Ne].
    + rewrite filter_cons_True by done. simpl. f_equal.
      by apply occurrences_unmapped_notin.
    + rewrite filter_cons_False by (intros [= ->]; done).
      apply IH; [done|]. apply elem_of_cons in H as [->|]; done.
Qed.

Lemma validate_data_integrity_log s :
  ∃ tail, log (validate_data_integrity s).1 =
            log s ++ (UnmappedChip <$> missing_genotypes s (all_sample_ids s))
                  ++ tail
          ∧ (tail = [] ∨ tail = [RowCountMismatch]).
Proof.
  rewrite validate_data_integrity_unfold. simpl.
  set (s2 := match missing_genotypes _ _ with [] => s | _ => _ end).
  assert (log s2 = log s ++ (UnmappedChip <$>
                               missing_genotypes s (all_sample_ids s))) as L2.
  { subst s2. destruct (missing_genotypes _ _); [|done].
    by rewrite app_nil_r. }
  case_bool_decide.
  - exists [RowCountMismatch]. simpl. rewrite L2, <- app_assoc. auto.
  - exists []. rewrite L2, app_nil_r. auto.
Qed.

(** C6: on a batch as parsed (the mapping table is a dictionary, so its
    chip ids are distinct), validation adds exactly one [UnmappedChip] defect
    for each chip id of the mapping table that is the sample id of no loaded
    sample record, and adds none for any other id; so none at all when every
    chip id has a sample record. *)
Theorem C6_unmapped_chip_reported_once s :
  NoDup (dict_keys (split_table s)) →
  let s' := (validate_data_integrity s).1 in
  (∀ chip, chip ∈ dict_keys (split_table s) →
           chip ∉ sample_id <$> all_samples s →
           occurrences (UnmappedChip chip) (log s')
           = S (occurrences (UnmappedChip chip) (log s)))
  ∧ (∀ chip, (chip ∈ dict_keys (split_table s) →
              chip ∈ sample_id <$> all_samples s) →
             occurrences (UnmappedChip chip) (log s')
             = occurrences (UnmappedChip chip) (log s))
  ∧ ((∀ chip, chip ∈ dict_keys (split_table s) →
              chip ∈ sample_id <$> all_samples s) →
     ∀ chip, UnmappedChip chip ∈ log s' → UnmappedChip chip ∈ log s).
Proof.
  intros ND s'. subst s'.
  destruct (validate_data_integrity_log s) as (tail & -> & Ht).
  assert (∀ chip, occurrences (UnmappedChip chip) tail = 0) as Htail.
  { intros chip. destruct Ht as [->| ->]; [done|].
    unfold occurrences. by rewrite filter_cons_False. }
  assert (NoDup (missing_genotypes s (all_sample_ids s))) as NDm.
  { by apply NoDup_filter. }
  split; [|split].
  - intros chip Hk Hn. rewrite !occurrences_app, Htail.
    rewrite occurrences_unmapped_NoDup; [lia|done|].
    apply list_elem_of_filter. split; [|done].
    by rewrite elem_of_all_sample_ids.
  - intros chip H. rewrite !occurrences_app, Htail.
    rewrite occurrences_unmapped_notin; [lia|].
    intros [Hn Hk]%list_elem_of_filter. apply Hn.
    rewrite elem_of_all_sample_ids. by apply H.
  - intros H chip. rewrite !elem_of_app. intros [?|[Hm|Hx]]; [done| |].
    + apply list_elem_of_fmap in Hm as (c & [= ->] & Hc).
      apply list_elem_of_filter in Hc as [Hn Hk]. destruct Hn.
      rewrite elem_of_all_sample_ids. by apply H.
    + destruct Ht as [->| ->]; [by apply elem_of_nil in Hx|].
      by apply list_elem_of_singleton in Hx.
Qed.

(** ** Dictionaries *)

Lemma dict_set_keys {V} k (v : V) d :
  dict_keys (dict_set k v d)
  = if decide (k ∈ dict_keys d) then dict_keys d else dict_keys d ++ [k].
Proof.
  unfold dict_keys. induction d as [|[k' v'] d IH]; csimpl.
  - done.
  - destruct (decide (k' = k)) as [->|Ne]; csimpl.
    + by rewrite decide_True by left.
    + rewrite IH. destruct (decide (k ∈ d.*1)) as [Hk|Hk].
      * by rewrite decide_True by (by right).
      * rewrite decide_False; [done|].
        intros [?|?]%elem_of_cons; congruence.
Qed.

Lemma dict_set_new {V} k (v : V) d :
  k ∉ dict_keys d → dict_set k v d = d ++ [(k, v)].
Proof.
  unfold dict_keys. induction d as [|[k' v'] d IH]; simpl; [done|].
  intros [Ne Hk]%not_elem_of_cons.
  rewrite decide_False by done. by rewrite IH.
Qed.

Lemma dict_set_mem {V} k (v : V) d : k ∈ dict_keys (dict_set k v d).
Proof.
  rewrite dict_set_keys. case_decide; [done|].
  apply elem_of_app. right. left.
Qed.

Lemma dict_set_mono {V} k (v : V) d x :
  x ∈ dict_keys d → x ∈ dict_keys (dict_set k v d).
Proof.
  rewrite dict_set_keys. case_decide; [done|].
  intros ?. apply elem_of_app. by left.
Qed.

Lemma dict_set_NoDup {V} k (v : V) d :
  NoDup (dict_keys d) → NoDup (dict_keys (dict_set k v d)).
Proof.
  rewrite dict_set_keys. case_decide as Hk; [done|].
  intros ND. apply NoDup_app. split; [done|]. split.
  - intros x Hx ->%list_elem_of_singleton. done.
  - apply NoDup_singleton.
Qed.

Lemma dict_mem_true {V} k (d : list (str * V)) :
  dict_mem k d = true ↔ k ∈ dict_keys d.
Proof. unfold dict_mem. apply bool_decide_eq_true. Qed.

Lemma dict_mem_false {V} k (d : list (str * V)) :
  dict_mem k d = false ↔ k ∉ dict_keys d.
Proof. unfold dict_mem. apply bool_decide_eq_false. Qed.

(** ** The mapping table loader *)

(** One turn of the row loop of [load_split_table]. *)
Lemma load_split_rows_cons f n line ls s :
  load_split_rows f n (line :: ls) s
  = load_split_rows f (S n) ls (load_split_rows f n [line] s).
Proof. done. Qed.

Lemma load_split_rows_keys_mono f n ls s x :
  x ∈ dict_keys (split_table s)
  → x ∈ dict_keys (split_table (load_split_rows f n ls s)).
Proof.
  revert n s. induction ls as [|line ls IH]; intros n s Hx; [done|].
  simpl. apply IH. case_bool_decide; [done|].
  destruct (fields line) as [|a [|b [|c [|]]]]; try done.
  destruct (dict_mem _ _); [done|]. simpl. by apply dict_set_mono.
Qed.

Lemma load_split_rows_NoDup f n ls s :
  NoDup (dict_keys (split_table s))
  → NoDup (dict_keys (split_table (load_split_rows f n ls s))).
Proof.
  revert n s. induction ls as [|line ls IH]; intros n s ND; [done|].
  simpl. apply IH. case_bool_decide; [done|].
  destruct (fields line) as [|a [|b [|c [|]]]]; try done.
  destruct (dict_mem _ _); [done|]. simpl. by apply dict_set_NoDup.
Qed.

(** The mapping table's chip ids stay distinct, as dictionary keys must. *)
Lemma load_split_table_NoDup w f s :
  NoDup (dict_keys (split_table s))
  → NoDup (dict_keys (split_table (load_split_table w f s))).
Proof.
  intros ND. unfold load_split_table.
  destruct (negb _); [done|]. destruct (getsize_is_zero _); [done|].
  destruct (raises _); simpl; by apply load_split_rows_NoDup.
Qed.

Lemma log_mono s s' d : extends s s' → d ∈ log s → d ∈ log s'.
Proof. intros (ds & -> & _) H. apply elem_of_app. by left. Qed.

Lemma load_split_rows_spec f ls : ∀ n s i line,
  ls !! i = Some line →
  let s' := load_split_rows f n ls s in
  (length (fields line) ≠ 3 →
   MalformedRow (MappingTable f) (n + i) (length (fields line)) ∈ log s')
  ∧ (∀ chip name breed, fields line = [chip; name; breed] →
       chip ∈ dict_keys (split_table s')
       ∧ ((chip ∈ dict_keys (split_table s)
           ∨ ∃ j line' name' breed',
               j < i ∧ ls !! j = Some line'
               ∧ fields line' = [chip; name'; breed'])
          → DuplicateKey chip ∈ log s')).
Proof.
  induction ls as [|l0 ls IH]; intros n s i line Hi; [done|].
  rewrite load_split_rows_cons.
  set (s1 := load_split_rows f n [l0] s).
  assert (∀ x, x ∈ dict_keys (split_table s)
               → x ∈ dict_keys (split_table s1)) as Hmono.
  { intros x. apply load_split_rows_keys_mono. }
  destruct i as [|i]; simpl in Hi.
  - injection Hi as ->. rewrite Nat.add_0_r. cbn zeta. split.
    + intros Hlen. eapply log_mono; [apply load_split_rows_extends|].
      subst s1. simpl. rewrite bool_decide_true by done.
      simpl. apply elem_of_app. right. left.
    + intros chip name breed Hf.
      assert (chip ∈ dict_keys (split_table s1)
              ∧ (chip ∈ dict_keys (split_table s)
                 → DuplicateKey chip ∈ log s1)) as [Hk Hd].
      { subst s1. simpl. rewrite Hf. simpl.
        destruct (dict_mem chip (split_table s)) eqn:M.
        - apply dict_mem_true in M. split; [done|]. intros _. simpl.
          apply elem_of_app. right. left.
        - apply dict_mem_false in M. simpl. split; [apply dict_set_mem|done]. }
      split; [by apply load_split_rows_keys_mono|].
      intros [Hs|(j & ? & ? & ? & Hj & _)]; [|lia].
      eapply log_mono; [apply load_split_rows_extends|auto].
  - destruct (IH (S n) s1 i line Hi) as [IH1 IH2].
    replace (n + S i) with (S n + i) by lia. split; [exact IH1|].
    intros chip name breed Hf. destruct (IH2 chip name breed Hf) as [Hk Hd].
    split; [exact Hk|]. intros [Hs|(j & l' & n' & b' & Hj & Hl & Hf')].
    + apply Hd. left. by apply Hmono.
    + apply Hd. destruct j as [|j]; simpl in Hl.
      * injection Hl as ->. left. subst s1. simpl. rewrite Hf'. simpl.
        destruct (dict_mem chip (split_table s)) eqn:M.
        -- by apply dict_mem_true in M.
        -- simpl. apply dict_set_mem.
      * right. exists j, l', n', b'. split; [lia|done].
Qed.

(** C5: loading the mapping table records [MissingInput] when the file
    does not exist and [EmptyInput] when it has zero bytes, and stops there.
    Otherwise every line is read: each line whose field count (tab-separated,
    after [strip]) is not 3 gets a [MalformedRow] with its 1-based number,
    each three-field line whose chip id is already in the table (from the
    table's earlier content or an earlier line) gets a [DuplicateKey], and
    the chip id of every three-field line is in the table at the end, so
    no defect stops the loop. *)
Theorem C5_load_split_table_defects w filename s :
  let s' := load_split_table w filename s in
  let f := open_file w filename in
  (path_exists w filename = false →
   s' = defect (MissingInput (MappingTable filename)) s)
  ∧ (path_exists w filename = true → getsize_is_zero f = true →
     s' = defect (EmptyInput (MappingTable filename)) s)
  ∧ (path_exists w filename = true → getsize_is_zero f = false →
     ∀ i line, lines f !! i = Some line →
       (length (fields line) ≠ 3 →
        MalformedRow (MappingTable filename) (S i) (length (fields line))
          ∈ log s')
       ∧ (∀ chip name breed, fields line = [chip; name; breed] →
            chip ∈ dict_keys (split_table s')
            ∧ ((chip ∈ dict_keys (split_table s)
                ∨ ∃ j line' name' breed',
                    j < i ∧ lines f !! j = Some line'
                    ∧ fields line' = [chip; name'; breed'])
               → DuplicateKey chip ∈ log s'))).
Proof.
  intros s' f. subst s'. unfold load_split_table. fold f.
  split; [|split].
  - by intros ->.
  - by intros -> ->.
  - intros -> ->. simpl. intros i line Hi.
    destruct (load_split_rows_spec filename (lines f) 1 s i line Hi)
      as [H1 H2].
    destruct (raises f).
    + split.
      * intros Hn. simpl. apply elem_of_app. left. by apply H1.
      * intros chip name breed Hf.
        destruct (H2 chip name breed Hf) as [Hk Hd]. split; [done|].
        intros H. simpl. apply elem_of_app. left. by apply Hd.
    + split; [exact H1|exact H2].
Qed.

(** ** Splitting and joining *)

Lemma split_not_nil sep s : split sep s ≠ [].
Proof. destruct s as [|c s]; simpl; [done|]. by repeat case_match. Qed.

(** ['\t'.join(s.split('\t')) == s] *)
Lemma join_split sep s : join [sep] (split sep s) = s.
Proof.
  induction s as [|c s IH]; simpl; [done|].
  pose proof (split_not_nil sep s) as Hne.
  destruct (c =? sep)%N eqn:E.
  - apply N.eqb_eq in E as ->.
    destruct (split sep s) as [|f fs]; [done|]. simpl in *. by rewrite IH.
  - destruct (split sep s) as [|f fs]; [done|].
    destruct fs as [|g fs]; simpl in *; by rewrite <- IH.
Qed.

(** ** The marker and sample file loaders *)

Lemma load_map_rows_frame f n ls s data :
  let s' := (load_map_rows f n ls s data).1 in
  map_data s' = map_data s ∧ ped_data s' = ped_data s
  ∧ split_table s' = split_table s.
Proof.
  revert n s data. induction ls as [|line ls IH]; intros n s data; [done|].
  simpl. case_bool_decide.
  - apply (IH (S n) (defect _ s)).
  - destruct (fields line) as [|a [|b [|c [|d [|]]]]]; apply IH.
Qed.

Lemma load_map_rows_log f n ls s data d :
  d ∈ log (load_map_rows f n ls s data).1 →
  d ∈ log s ∨ ∃ i k, d = MalformedRow (MarkerFile f) i k.
Proof.
  revert n s data. induction ls as [|line ls IH]; intros n s data; simpl.
  - by left.
  - case_bool_decide as Hb.
    + intros [H|H]%IH; [|by right]. simpl in H.
      apply elem_of_app in H as [H|H]; [by left|].
      apply list_elem_of_singleton in H. right. eauto.
    + destruct (fields line) as [|a [|b [|c [|e [|]]]]]; apply IH.
Qed.

Lemma load_map_rows_data f n ls s data :
  (load_map_rows f n ls s data).2
  = data ++ ((λ l, marker_of_parts (fields l))
               <$> filter (λ l, length (fields l) = 4) ls).
Proof.
  revert n s data. induction ls as [|line ls IH]; intros n s data; simpl.
  - by rewrite app_nil_r.
  - case_bool_decide as Hl.
    + rewrite IH. by rewrite filter_cons_False.
    + rewrite filter_cons_True, fmap_cons by done.
      destruct (fields line) as [|a [|b [|c [|d [|]]]]]; try done.
      rewrite IH, <- app_assoc. done.
Qed.

Lemma load_map_rows_malformed f ls : ∀ n s data i line,
  ls !! i = Some line → length (fields line) ≠ 4 →
  MalformedRow (MarkerFile f) (n + i) (length (fields line))
    ∈ log (load_map_rows f n ls s data).1.
Proof.
  induction ls as [|l0 ls IH]; intros n s data i line Hi Hlen; [done|].
  destruct i as [|i]; simpl in Hi.
  - injection Hi as ->. simpl. rewrite bool_decide_true by done.
    eapply log_mono; [apply load_map_rows_extends|].
    simpl. rewrite Nat.add_0_r. apply elem_of_app. right. left.
  - replace (n + S i) with (S n + i) by lia. simpl.
    case_bool_decide; [by apply (IH (S n) _ _ i line)|].
    destruct (fields l0) as [|a [|b [|c [|d [|]]]]];
      by apply (IH (S n) _ _ i line).
Qed.

(** A marker row written back is the line it was read from, stripped. *)
Lemma map_line_of_fields line :
  length (fields line) = 4 →
  map_line (marker_of_parts (fields line)) = strip line ++ [nl].
Proof.
  intros Hl. unfold fields in *.
  pose proof (join_split tab (strip line)) as J.
  destruct (split tab (strip line)) as [|a [|b [|c [|d [|]]]]]; try done.
  rewrite <- J. unfold map_line, marker_of_parts. simpl.
  repeat (rewrite <- app_assoc || rewrite <- app_comm_cons). done.
Qed.

Lemma load_ped_rows_data f k n ls s data :
  6 ≤ k →
  (load_ped_rows f k n ls s data).2
  = data ++ ((λ l, sample_of_parts (fields l))
               <$> filter (λ l, length (fields l) = k) ls).
Proof.
  intros Hk. revert n s data.
  induction ls as [|line ls IH]; intros n s data; simpl.
  - by rewrite app_nil_r.
  - case_bool_decide as Hl.
    + rewrite IH. by rewrite filter_cons_False.
    + rewrite filter_cons_True, fmap_cons by done.
      destruct (fields line) as [|a [|b [|c [|d [|e [|g gs]]]]]];
        simpl in Hl; try lia.
      rewrite IH, <- app_assoc. done.
Qed.

Lemma load_ped_rows_malformed f k ls : ∀ n s data i line,
  ls !! i = Some line → length (fields line) ≠ k →
  MalformedRow (SampleFile f) (n + i) (length (fields line))
    ∈ log (load_ped_rows f k n ls s data).1.
Proof.
  induction ls as [|l0 ls IH]; intros n s data i line Hi Hlen; [done|].
  destruct i as [|i]; simpl in Hi.
  - injection Hi as ->. simpl. rewrite bool_decide_true by done.
    eapply log_mono; [apply load_ped_rows_extends|].
    simpl. rewrite Nat.add_0_r. apply elem_of_app. right. left.
  - replace (n + S i) with (S n + i) by lia. simpl.
    case_bool_decide; [by apply (IH (S n) _ _ i line)|].
    destruct (fields l0) as [|a [|b [|c [|d [|e [|g gs]]]]]];
      by apply (IH (S n) _ _ i line).
Qed.

(** C8: parsing a sample file with expected marker count [n] records, for
    every line whose field count differs from [6 + 2 * n], a [MalformedRow]
    defect with the line's 1-based number; the sample data returned (when
    reading itself does not fail) are the records of exactly the other
    lines, in file order, so a bad row is left out and the rows after it are
    still parsed. *)
Theorem C8_load_ped_file_malformed_rows w filename n s :
  let f := open_file w filename in
  let r := load_ped_file w filename n s in
  (∀ i line, lines f !! i = Some line →
             length (fields line) ≠ 6 + 2 * n →
             MalformedRow (SampleFile filename) (S i) (length (fields line))
               ∈ log r.1)
  ∧ (raises f = false →
     r.2 = (λ l, sample_of_parts (fields l))
             <$> filter (λ l, length (fields l) = 6 + 2 * n) (lines f)).
Proof.
  intros f r. subst r. unfold load_ped_file. fold f.
  pose proof (load_ped_rows_malformed filename (6 + 2 * n) (lines f) 1 s [])
    as Hm.
  pose proof (load_ped_rows_data filename (6 + 2 * n) 1 (lines f) s []) as Hd.
  destruct (load_ped_rows _ _ _ _ _ _) as [s' data]. simpl in Hm, Hd.
  split.
  - intros i line Hi Hl. specialize (Hm i line Hi Hl).
    destruct (raises f); simpl; [|done]. apply elem_of_app. by left.
  - intros ->. simpl. apply Hd. lia.
Qed.

(** C9, as stated, fails: the marker file of [bad_marker_workdir] has no
    parseable row, the pair is discovered, and loading it records a defect. *)
Lemma C9_counterexample :
  (find_plink_files bad_marker_workdir init).2 = [(u "b.map", u "b.ped")]
  ∧ (load_map_file bad_marker_workdir (u "b.map") init).2 = []
  ∧ log (load_pair bad_marker_workdir init (u "b.map", u "b.ped"))
    = [MalformedRow (MarkerFile (u "b.map")) 1 1].
Proof. vm_compute. done. Qed.

Lemma load_map_file_frame w f s :
  let s' := (load_map_file w f s).1 in
  map_data s' = map_data s ∧ ped_data s' = ped_data s
  ∧ split_table s' = split_table s.
Proof.
  unfold load_map_file.
  pose proof (load_map_rows_frame f 1 (lines (open_file w f)) s []) as H.
  destruct (load_map_rows _ _ _ _ _) as [s' data]. simpl in H.
  by destruct (raises _).
Qed.

Lemma load_map_file_log w f s d :
  d ∈ log (load_map_file w f s).1 →
  d ∈ log s ∨ (∃ i k, d = MalformedRow (MarkerFile f) i k)
  ∨ d = ReadFailure (MarkerFile f).
Proof.
  unfold load_map_file.
  pose proof (load_map_rows_log f 1 (lines (open_file w f)) s [] d) as H.
  destruct (load_map_rows _ _ _ _ _) as [s' data]. simpl in H.
  destruct (raises _); simpl.
  - intros [Hd|Hd]%elem_of_app.
    + destruct (H Hd); auto.
    + apply list_elem_of_singleton in Hd. auto.
  - intros Hd. destruct (H Hd); auto.
Qed.

(** C9, amended: when the marker file of a pair yields no marker row, the
    loop of [run] goes on with the state [load_map_file] left, whatever the
    sample file holds: the sample file is not read, the pair adds nothing
    to the marker and sample tables, and the only defects recorded for the
    pair are the [MalformedRow] and read-failure defects of the marker file
    itself; none at all when the marker file is empty. *)
Theorem C9_pair_without_marker_rows w s map_file ped_file :
  (load_map_file w map_file s).2 = [] →
  let s' := load_pair w s (map_file, ped_file) in
  s' = (load_map_file w map_file s).1
  ∧ map_data s' = map_data s
  ∧ ped_data s' = ped_data s
  ∧ (∀ d, d ∈ log s' →
          d ∈ log s ∨ (∃ i k, d = MalformedRow (MarkerFile map_file) i k)
          ∨ d = ReadFailure (MarkerFile map_file))
  ∧ (open_file w map_file = mkFile [] false → s' = s).
Proof.
  intros Hd s'.
  assert (s' = (load_map_file w map_file s).1) as ->.
  { subst s'. unfold load_pair.
    destruct (load_map_file w map_file s) as [s1 data]. simpl in Hd.
    by subst data. }
  destruct (load_map_file_frame w map_file s) as (Hm & Hp & _).
  split; [done|]. split; [done|]. split; [done|]. split.
  - apply load_map_file_log.
  - intros Hf. unfold load_map_file. by rewrite Hf.
Qed.

(** ** Marker-set consistency *)

Lemma snp_order_consistent_Some first entries :
  snp_order_consistent (Some first) entries = true →
  ∀ e, e ∈ entries → snp_id <$> e.2 = first.
Proof.
  induction entries as [|[p data] entries IH]; simpl; intros H e He.
  - by apply elem_of_nil in He.
  - case_bool_decide as Hne; [done|].
    apply elem_of_cons in He as [->|He]; [done|]. by apply IH.
Qed.

Lemma snp_order_consistent_None entries :
  snp_order_consistent None entries = true →
  ∀ e1 e2, e1 ∈ entries → e2 ∈ entries → snp_id <$> e1.2 = snp_id <$> e2.2.
Proof.
  destruct entries as [|[p data] entries]; simpl; intros H e1 e2 H1 H2.
  - by apply elem_of_nil in H1.
  - pose proof (snp_order_consistent_Some _ _ H) as Hall.
    apply elem_of_cons in H1 as [->|H1], H2 as [->|H2]; simpl;
      rewrite ?(Hall _ H1), ?(Hall _ H2); done.
Qed.

Lemma two_elements_length {A} (l : list A) x y :
  x ∈ l → y ∈ l → x ≠ y → 2 ≤ length l.
Proof.
  destruct l as [|a [|b l]]; simpl; intros Hx Hy Hne; [| |lia].
  - by apply elem_of_nil in Hx.
  - apply list_elem_of_singleton in Hx, Hy. congruence.
Qed.

Lemma validate_map_consistency_mismatch s e1 e2 :
  e1 ∈ map_data s → e2 ∈ map_data s →
  snp_id <$> e1.2 ≠ snp_id <$> e2.2 →
  ∃ why, validate_map_consistency s
         = (defect (InconsistentSchema why) s, false).
Proof.
  intros H1 H2 Hne. unfold validate_map_consistency.
  assert (2 ≤ length (map_data s)) as Hlen.
  { apply (two_elements_length _ e1 e2); [done..|]. by intros ->. }
  rewrite bool_decide_false by lia.
  case_bool_decide; [by eexists|].
  destruct (snp_order_consistent None (map_data s)) eqn:E; [|by eexists].
  destruct Hne. by apply (snp_order_consistent_None _ E).
Qed.

(** ** The partitioner *)

Lemma collect_spec peds samples : ∀ rows names,
  collect peds samples rows names
  = (rows ++ omap (λ e, find_sample e.1 peds) samples,
     names ++ ((λ e, e.1 ++ [tab] ++ e.2)
                 <$> filter (λ e, is_Some (find_sample e.1 peds)) samples)).
Proof.
  induction samples as [|[c name] samples IH]; intros rows names; simpl.
  - by rewrite !app_nil_r.
  - destruct (find_sample c peds) as [r|] eqn:E.
    + rewrite IH, filter_cons_True by (simpl; rewrite E; by eexists).
      csimpl. by rewrite <- !app_assoc.
    + by rewrite IH, filter_cons_False by (simpl; rewrite E; by intros [? ?]).
Qed.

Lemma omap_find_sample_ids peds (samples : list (str * str)) :
  sample_id <$> omap (λ e, find_sample e.1 peds) samples
  = (filter (λ e, is_Some (find_sample e.1 peds)) samples).*1.
Proof.
  induction samples as [|[c name] samples IH]; [done|]. simpl.
  destruct (find_sample c peds) as [r|] eqn:E.
  - rewrite filter_cons_True by (simpl; rewrite E; by eexists).
    csimpl. rewrite IH. apply find_sample_Some in E as [_ ->]. done.
  - by rewrite filter_cons_False by (simpl; rewrite E; by intros [? ?]).
Qed.

Lemma is_Some_find_sample s c :
  is_Some (find_sample c (ped_data s)) ↔ c ∈ sample_id <$> all_samples s.
Proof.
  unfold all_samples. destruct (find_sample c (ped_data s)) as [r|] eqn:E.
  - split; [intros _|by eexists].
    apply find_sample_Some in E as [Hr <-]. by apply list_elem_of_fmap_2.
  - split; [by intros [? ?]|]. intros H. by apply find_sample_None in E.
Qed.

Lemma generate_breed_files_template s breed samples prefix p tmpl rest :
  map_data s = (p, tmpl) :: rest →
  generate_breed_files s breed samples prefix
  = (s, Some (mkBundle prefix (map_line <$> tmpl)
                (ped_line <$> omap (λ e, find_sample e.1 (ped_data s)) samples)
                ((λ e, e.1 ++ [tab] ++ e.2 ++ [nl])
                   <$> filter (λ e, is_Some (find_sample e.1 (ped_data s)))
                              samples))).
Proof.
  intros Hm. unfold generate_breed_files. rewrite Hm, collect_spec. simpl.
  do 3 f_equal. rewrite <- list_fmap_compose. apply list_fmap_ext.
  intros _ [c name] _. simpl. by rewrite <- !app_assoc.
Qed.

Lemma split_groups_template now groups : ∀ s p tmpl rest,
  map_data s = (p, tmpl) :: rest →
  let r := split_groups now groups s in
  log r.1 = log s ∧ error_status r.1 = error_status s
  ∧ r.2 = (λ g, mkBundle (g.1 ++ u "_" ++ now) (map_line <$> tmpl)
                  (ped_line <$> omap (λ e, find_sample e.1 (ped_data s)) g.2)
                  ((λ e, e.1 ++ [tab] ++ e.2 ++ [nl])
                     <$> filter (λ e, is_Some (find_sample e.1 (ped_data s)))
                                g.2))
          <$> groups.
Proof.
  induction groups as [|[breed samples] groups IH]; intros s p tmpl rest Hm;
    [done|].
  simpl.
  set (s1 := if bool_decide (length samples < 100) then warn breed s else s).
  assert (map_data s1 = (p, tmpl) :: rest ∧ ped_data s1 = ped_data s
          ∧ log s1 = log s ∧ error_status s1 = error_status s)
    as (Hm1 & Hp1 & Hl1 & He1).
  { subst s1. by case_bool_decide. }
  rewrite (generate_breed_files_template s1 _ _ _ _ _ _ Hm1).
  destruct (IH s1 p tmpl rest Hm1) as (IHl & IHe & IHb).
  destruct (split_groups now groups s1) as [s3 outs]. simpl in *.
  rewrite IHl, IHe, IHb, Hp1. done.
Qed.

Lemma split_groups_no_template now groups : ∀ s,
  map_data s = [] → (split_groups now groups s).2 = [].
Proof.
  induction groups as [|[breed samples] groups IH]; intros s Hm; [done|].
  simpl.
  set (s1 := if bool_decide (length samples < 100) then warn breed s else s).
  assert (map_data s1 = []) as Hm1. { subst s1. by case_bool_decide. }
  unfold generate_breed_files. rewrite Hm1.
  specialize (IH (defect (BundleWriteFailure breed) s1) Hm1).
  destruct (split_groups now groups _) as [s3 outs]. simpl in *. done.
Qed.

(** The gate at the head of [split_by_breed]. *)
Lemma split_by_breed_gate now s :
  error_status s = true → split_by_breed now s = (s, []).
Proof. unfold split_by_breed. by intros ->. Qed.

(** ** Grouping by breed *)

Lemma dict_get_None {V} k (d : list (str * V)) :
  dict_get k d = None ↔ k ∉ dict_keys d.
Proof.
  unfold dict_keys. induction d as [|[k' v] d IH]; csimpl.
  - split; [intros _; apply not_elem_of_nil|done].
  - rewrite not_elem_of_cons. case_decide as E.
    + subst k'. split; [done|]. by intros [? _].
    + rewrite IH. split; [by intros ?; split|by intros [_ ?]].
Qed.

Lemma dict_get_Some_elem {V} k (v : V) d : dict_get k d = Some v → (k, v) ∈ d.
Proof.
  induction d as [|[k' v'] d IH]; simpl; [done|]. case_decide as E.
  - subst k'. intros [= ->]. left.
  - intros H. right. by apply IH.
Qed.

Lemma dict_get_elem {V} k (v : V) d :
  NoDup (dict_keys d) → (k, v) ∈ d → dict_get k d = Some v.
Proof.
  unfold dict_keys. induction d as [|[k' v'] d IH]; csimpl; intros ND H.
  - by apply elem_of_nil in H.
  - apply NoDup_cons in ND as [Nk ND].
    apply elem_of_cons in H as [[= -> ->]|H].
    + by rewrite decide_True.
    + rewrite decide_False; [by apply IH|]. intros ->. apply Nk.
      by apply (list_elem_of_fmap_2 fst) in H.
Qed.

Lemma dict_append_keys {V} k (x : V) d :
  dict_keys (dict_append k x d)
  = if decide (k ∈ dict_keys d) then dict_keys d else dict_keys d ++ [k].
Proof.
  unfold dict_keys. induction d as [|[k' xs] d IH]; csimpl.
  - done.
  - destruct (decide (k' = k)) as [->|Ne]; csimpl.
    + by rewrite decide_True by left.
    + rewrite IH. destruct (decide (k ∈ d.*1)) as [Hk|Hk].
      * by rewrite decide_True by (by right).
      * rewrite decide_False; [done|].
        intros [?|?]%elem_of_cons; congruence.
Qed.

Lemma dict_append_NoDup {V} k (x : V) d :
  NoDup (dict_keys d) → NoDup (dict_keys (dict_append k x d)).
Proof.
  rewrite dict_append_keys. case_decide as Hk; [done|].
  intros ND. apply NoDup_app. split; [done|]. split.
  - intros y Hy ->%list_elem_of_singleton. done.
  - apply NoDup_singleton.
Qed.

Lemma dict_get_append_eq {V} k (x : V) d :
  dict_get k (dict_append k x d) = Some (default [] (dict_get k d) ++ [x]).
Proof.
  induction d as [|[k' xs] d IH]; simpl.
  - by rewrite decide_True.
  - destruct (decide (k' = k)) as [->|Ne]; simpl.
    + by rewrite decide_True.
    + by rewrite decide_False.
Qed.

Lemma dict_get_append_ne {V} k k' (x : V) d :
  k ≠ k' → dict_get k' (dict_append k x d) = dict_get k' d.
Proof.
  intros Ne. induction d as [|[k0 xs] d IH]; simpl.
  - by rewrite decide_False.
  - destruct (decide (k0 = k)) as [->|Ne0]; simpl.
    + by rewrite !decide_False.
    + by rewrite IH.
Qed.

Lemma dict_append_concat {V} k (x : V) d :
  concat ((dict_append k x d).*2) ≡ₚ concat (d.*2) ++ [x].
Proof.
  induction d as [|[k' xs] d IH]; csimpl; [done|].
  destruct (decide (k' = k)) as [->|Ne]; csimpl.
  - rewrite <- !app_assoc. f_equiv. apply Permutation_app_comm.
  - by rewrite IH, app_assoc.
Qed.

Lemma breed_fold_NoDup (t : list (str * (str * str))) : ∀ acc,
  NoDup (dict_keys acc) →
  NoDup (dict_keys
           (foldl (λ groups e, dict_append e.2.2 (e.1, e.2.1) groups) acc t)).
Proof.
  induction t as [|e t IH]; intros acc ND; [done|].
  simpl. apply IH. by apply dict_append_NoDup.
Qed.

Lemma breed_fold_get b (t : list (str * (str * str))) : ∀ acc,
  dict_get b (foldl (λ groups e, dict_append e.2.2 (e.1, e.2.1) groups) acc t)
  = let new := (λ e, (e.1, e.2.1)) <$> filter (λ e, e.2.2 = b) t in
    match dict_get b acc with
    | Some xs => Some (xs ++ new)
    | None => match new with [] => None | _ => Some new end
    end.
Proof.
  induction t as [|e t IH]; intros acc; cbn zeta.
  - simpl. destruct (dict_get b acc); by rewrite ?app_nil_r.
  - simpl. rewrite IH. cbn zeta. destruct (decide (e.2.2 = b)) as [Eb|Eb].
    + rewrite filter_cons_True by done. subst b.
      rewrite dict_get_append_eq, fmap_cons.
      destruct (dict_get e.2.2 acc); simpl; by rewrite <- ?app_assoc.
    + rewrite filter_cons_False by done.
      by rewrite dict_get_append_ne.
Qed.

Lemma breed_fold_concat (t : list (str * (str * str))) : ∀ acc,
  concat ((foldl (λ groups e, dict_append e.2.2 (e.1, e.2.1) groups) acc t).*2)
  ≡ₚ concat (acc.*2) ++ ((λ e, (e.1, e.2.1)) <$> t).
Proof.
  induction t as [|e t IH]; intros acc; simpl.
  - by rewrite app_nil_r.
  - rewrite IH, dict_append_concat, <- app_assoc. done.
Qed.

Lemma breed_groups_NoDup t : NoDup (dict_keys (breed_groups t)).
Proof. apply breed_fold_NoDup. constructor. Qed.

(** A group holds the entries of its breed, in mapping-table order. *)
Lemma breed_groups_elem t b samples :
  (b, samples) ∈ breed_groups t →
  samples = (λ e, (e.1, e.2.1)) <$> filter (λ e, e.2.2 = b) t.
Proof.
  intros H. apply dict_get_elem in H; [|apply breed_groups_NoDup].
  unfold breed_groups in H. rewrite breed_fold_get in H. simpl in H.
  destruct (_ <$> _); congruence.
Qed.

Lemma breed_groups_keys t e : e ∈ t → e.2.2 ∈ dict_keys (breed_groups t).
Proof.
  intros He. destruct (dict_get e.2.2 (breed_groups t)) eqn:E.
  - apply dict_get_Some_elem in E. by apply (list_elem_of_fmap_2 fst) in E.
  - unfold breed_groups in E. rewrite breed_fold_get in E. simpl in E.
    destruct (_ <$> filter _ t) as [|x xs] eqn:F; [|done].
    apply fmap_nil_inv in F.
    by destruct (filter_nil_not_elem_of _ _ e F eq_refl).
Qed.

Lemma breed_groups_concat t :
  concat ((breed_groups t).*2) ≡ₚ (λ e, (e.1, e.2.1)) <$> t.
Proof. unfold breed_groups. by rewrite breed_fold_concat. Qed.

Lemma filter_all {A} (P : A → Prop) `{∀ x, Decision (P x)} (l : list A) :
  (∀ x, x ∈ l → P x) → filter P l = l.
Proof.
  induction l as [|x l IH]; intros H0; [done|].
  rewrite filter_cons_True by (apply H0; left).
  f_equal. apply IH. intros y Hy. apply H0. by right.
Qed.

Lemma Forall2_fmap_diag {A B} (P : A → B → Prop) (f : A → B) (l : list A) :
  (∀ x, x ∈ l → P x (f x)) → Forall2 P l (f <$> l).
Proof.
  induction l as [|x l IH]; intros H; csimpl; constructor.
  - apply H. left.
  - apply IH. intros y Hy. apply H. by right.
Qed.

(** C10: when [generate_breed_files] writes a group's files (a marker
    template exists), it records no defect and leaves the state as it was;
    the sample file and the identifier-translation file hold one line per
    entry of the group whose chip id is the sample id of some loaded record,
    in the entries' order; the other entries are left out of both files; and
    the i-th translation line starts with the sample id of the i-th row. *)
Theorem C10_sample_and_idmap_aligned s breed samples prefix :
  map_data s ≠ [] →
  ∃ b rows,
    generate_breed_files s breed samples prefix = (s, Some b)
    ∧ ped_out b = ped_line <$> rows
    ∧ let kept := filter (λ e, e.1 ∈ sample_id <$> all_samples s) samples in
      sample_id <$> rows = kept.*1
      ∧ idmap_out b = (λ e, e.1 ++ [tab] ++ e.2 ++ [nl]) <$> kept
      ∧ length (idmap_out b) = length (ped_out b)
      ∧ ∀ i line row, idmap_out b !! i = Some line → rows !! i = Some row →
          ∃ name, line = sample_id row ++ [tab] ++ name ++ [nl].
Proof.
  intros Hm. destruct (map_data s) as [|[p tmpl] rest] eqn:E; [done|].
  eexists _, (omap (λ e, find_sample e.1 (ped_data s)) samples).
  split; [by apply (generate_breed_files_template s _ _ _ p tmpl rest)|].
  cbn [ped_out idmap_out]. split; [done|]. cbn zeta.
  assert (filter (λ e : str * str, is_Some (find_sample e.1 (ped_data s)))
                 samples
          = filter (λ e, e.1 ∈ sample_id <$> all_samples s) samples) as Hf.
  { apply list_filter_iff. intros e. apply is_Some_find_sample. }
  rewrite <- Hf.
  pose proof (omap_find_sample_ids (ped_data s) samples) as Hids.
  split; [done|]. split; [done|]. split.
  - rewrite !length_fmap.
    rewrite <- (length_fmap sample_id), Hids. by rewrite length_fmap.
  - intros i line row Hl Hr.
    apply list_lookup_fmap_Some in Hl as (e & -> & He).
    exists e.2. do 1 f_equal.
    assert ((sample_id <$> omap (λ e, find_sample e.1 (ped_data s)) samples)
              !! i = Some (sample_id row)) as H1.
    { by rewrite list_lookup_fmap, Hr. }
    rewrite Hids, list_lookup_fmap, He in H1. by injection H1.
Qed.

(** On a state that is not flagged and has a marker template,
    [split_by_breed] writes one bundle per group, in the order of the
    groups. *)
Lemma split_by_breed_bundles now s p tmpl rest :
  map_data s = (p, tmpl) :: rest → error_status s = false →
  (split_by_breed now s).2
  = (λ g, mkBundle (g.1 ++ u "_" ++ now) (map_line <$> tmpl)
            (ped_line <$> omap (λ e, find_sample e.1 (ped_data s)) g.2)
            ((λ e, e.1 ++ [tab] ++ e.2 ++ [nl])
               <$> filter (λ e, is_Some (find_sample e.1 (ped_data s))) g.2))
    <$> breed_groups (split_table s).
Proof.
  intros Hm He. unfold split_by_breed. rewrite He.
  by destruct (split_groups_template now (breed_groups (split_table s))
                 s p tmpl rest Hm) as (_ & _ & ->).
Qed.

(** In a validated state every entry of a group finds its sample. *)
Lemma validated_group_all_found s g :
  (validate_data_integrity s).2 = true →
  g ∈ breed_groups (split_table s) →
  filter (λ e : str * str, is_Some (find_sample e.1 (ped_data s))) g.2 = g.2.
Proof.
  intros (_ & Hall & _)%validate_data_integrity_true Hg.
  apply filter_all. intros e He.
  apply find_sample_is_Some, Hall.
  destruct g as [b samples]. simpl in He.
  rewrite (breed_groups_elem _ _ _ Hg) in He.
  apply list_elem_of_fmap in He as (e' & -> & He').
  apply list_elem_of_filter in He' as [_ He']. simpl.
  by apply (list_elem_of_fmap_2 fst) in He'.
Qed.

(** C3: in a validated batch with a marker template, partitioning writes
    one bundle per group; every group label of the mapping table has its
    group; and in a group's bundle the sample ids of the rows of the sample
    file, and the lines ["chipId<TAB>name"] of the identifier-translation
    file, are those of the mapping-table entries carrying that group label,
    in the order these entries have in the mapping table, whatever the order
    of the records in the sample files. *)
Theorem C3_rows_follow_mapping_order s now :
  map_data s ≠ [] →
  (validate_data_integrity s).2 = true →
  let groups := breed_groups (split_table s) in
  let outs := (split_by_breed now s).2 in
  (∀ e, e ∈ split_table s → e.2.2 ∈ dict_keys groups)
  ∧ NoDup (dict_keys groups)
  ∧ Forall2
      (λ g b,
         let entries := filter (λ e, e.2.2 = g.1) (split_table s) in
         stem b = g.1 ++ u "_" ++ now
         ∧ ∃ rows, ped_out b = ped_line <$> rows
                   ∧ (∀ r, r ∈ rows → r ∈ all_samples s)
                   ∧ sample_id <$> rows = entries.*1
                   ∧ idmap_out b
                     = (λ e, e.1 ++ [tab] ++ e.2.1 ++ [nl]) <$> entries)
      groups outs.
Proof.
  intros Hm Hv groups outs.
  split; [apply breed_groups_keys|]. split; [apply breed_groups_NoDup|].
  destruct (map_data s) as [|[p tmpl] rest] eqn:E; [done|].
  pose proof Hv as (He & _)%validate_data_integrity_true.
  subst outs. rewrite (split_by_breed_bundles now s p tmpl rest E He).
  apply Forall2_fmap_diag. intros [b samples] Hg. cbn zeta.
  cbn [stem ped_out idmap_out fst snd]. split; [done|].
  exists (omap (λ e, find_sample e.1 (ped_data s)) samples).
  pose proof (validated_group_all_found s _ Hv Hg) as Hall. simpl in Hall.
  pose proof (breed_groups_elem _ _ _ Hg) as Hs.
  split; [done|]. split; [|split].
  - intros r (e & _ & Hr)%list_elem_of_omap.
    by apply find_sample_Some in Hr as [? _].
  - rewrite omap_find_sample_ids, Hall, Hs, <- list_fmap_compose.
    by apply list_fmap_ext.
  - rewrite Hall, Hs, <- list_fmap_compose. by apply list_fmap_ext.
Qed.

(** C7: in a batch that is not flagged, partitioning writes one bundle per
    group and the marker file of every bundle is the first parsed marker
    file, row by row in the same order, each row written as chromosome,
    marker id, genetic distance, position, separated by tabs; and the rows
    a marker file parses into are written back as the accepted lines of that
    file, stripped, in file order. *)
Theorem C7_marker_file_is_first_template s now p tmpl rest :
  map_data s = (p, tmpl) :: rest →
  error_status s = false →
  let outs := (split_by_breed now s).2 in
  length outs = length (breed_groups (split_table s))
  ∧ (∀ b, b ∈ outs → map_out b = map_line <$> tmpl)
  ∧ (∀ r, map_line r = chromosome r ++ [tab] ++ snp_id r ++ [tab]
                       ++ genetic_distance r ++ [tab] ++ position r ++ [nl])
  ∧ (∀ w f s0, raises (open_file w f) = false →
       map_line <$> (load_map_file w f s0).2
       = (λ l, strip l ++ [nl])
           <$> filter (λ l, length (fields l) = 4) (lines (open_file w f))).
Proof.
  intros Hm He outs. subst outs.
  rewrite (split_by_breed_bundles now s p tmpl rest Hm He).
  split; [by rewrite length_fmap|]. split; [|split].
  - intros b (g & -> & _)%list_elem_of_fmap. done.
  - done.
  - intros w f s0 Hr. unfold load_map_file.
    pose proof (load_map_rows_data f 1 (lines (open_file w f)) s0 []) as Hd.
    destruct (load_map_rows _ _ _ _ _) as [s' data]. simpl in Hd.
    rewrite Hr. simpl. subst data. rewrite <- list_fmap_compose.
    apply list_fmap_ext. intros i l Hl. simpl.
    apply map_line_of_fields.
    apply list_elem_of_lookup_2, list_elem_of_filter in Hl as [? _]. done.
Qed.

(** ** The round trip *)

Lemma NoDup_fmap_inj_on {A B} (f : A → B) (l : list A) x y :
  NoDup (f <$> l) → x ∈ l → y ∈ l → f x = f y → x = y.
Proof.
  induction l as [|a l IH]; csimpl; intros ND Hx Hy Hf.
  - by apply elem_of_nil in Hx.
  - apply NoDup_cons in ND as [Na ND].
    apply elem_of_cons in Hx as [->|Hx], Hy as [->|Hy]; [done| | |by apply IH].
    + destruct Na. rewrite Hf. by apply list_elem_of_fmap_2.
    + destruct Na. rewrite <- Hf. by apply list_elem_of_fmap_2.
Qed.

Lemma elem_of_concat {A} (x : A) (ls : list (list A)) :
  x ∈ concat ls ↔ ∃ l, x ∈ l ∧ l ∈ ls.
Proof.
  induction ls as [|l0 ls IH]; simpl.
  - split; [by intros ?%elem_of_nil|]. by intros (l & _ & ?%elem_of_nil).
  - rewrite elem_of_app, IH. split.
    + intros [H|(l & H1 & H2)].
      * exists l0. split; [done|left].
      * exists l. split; [done|by right].
    + intros (l & H1 & [->|H2]%elem_of_cons); [by left|].
      right. by exists l.
Qed.

(** What the duplicate check was meant to secure: when, in addition to
    passing validation, the sample ids of the loaded records are distinct,
    the rows of all bundles together are the loaded sample records, each
    exactly once. *)
Lemma round_trip_when_sample_ids_unique s now :
  map_data s ≠ [] →
  (validate_data_integrity s).2 = true →
  NoDup (dict_keys (split_table s)) →
  NoDup (sample_id <$> all_samples s) →
  ∃ rowss,
    ped_out <$> (split_by_breed now s).2 = (λ rows, ped_line <$> rows) <$> rowss
    ∧ concat rowss ≡ₚ all_samples s.
Proof.
  intros Hm Hv NDk NDs.
  destruct (map_data s) as [|[p tmpl] rest] eqn:E; [done|].
  pose proof Hv as (He & Hall & Hlen)%validate_data_integrity_true.
  set (groups := breed_groups (split_table s)).
  exists ((λ g : str * list (str * str),
             omap (λ e, find_sample e.1 (ped_data s)) g.2) <$> groups).
  split.
  { rewrite (split_by_breed_bundles now s p tmpl rest E He).
    rewrite <- !list_fmap_compose. by apply list_fmap_ext. }
  match goal with |- ?l ≡ₚ _ => set (L := l) end.
  assert (sample_id <$> L ≡ₚ dict_keys (split_table s)) as Hids.
  { unfold dict_keys.
    assert ((split_table s).*1 = ((λ e, (e.1, e.2.1)) <$> split_table s).*1)
      as -> by (rewrite <- list_fmap_compose; by apply list_fmap_ext).
    rewrite <- breed_groups_concat. fold groups. subst L.
    assert (∀ gs : list (str * list (str * str)),
              (∀ g, g ∈ gs → g ∈ groups) →
              sample_id
                <$> concat ((λ g : str * list (str * str),
                               omap (λ e : str * str,
                                       find_sample e.1 (ped_data s)) g.2)
                              <$> gs)
              = (concat (gs.*2)).*1) as Hgs.
    { induction gs as [|g gs IH]; intros Hin; [done|]. csimpl.
      rewrite !fmap_app, IH by (intros; apply Hin; by right).
      f_equal. rewrite omap_find_sample_ids.
      by rewrite (validated_group_all_found s g Hv (Hin g ltac:(left))). }
    by rewrite Hgs. }
  assert (∀ r, r ∈ L → r ∈ all_samples s) as Hsub.
  { intros r Hr. subst L. apply elem_of_concat in Hr as (rows & Hr & Hrows).
    apply list_elem_of_fmap in Hrows as (g & -> & _).
    apply list_elem_of_omap in Hr as (e & _ & Hr).
    by apply find_sample_Some in Hr as [? _]. }
  assert (NoDup (sample_id <$> L)) as NDL by (by rewrite Hids).
  assert (list_to_set (dict_keys (split_table s)) = all_sample_ids s) as Hset.
  { apply set_subseteq_size_eq.
    - intros c Hc%elem_of_list_to_set. by apply Hall.
    - rewrite size_list_to_set by done. unfold dict_keys.
      rewrite length_fmap. lia. }
  apply NoDup_Permutation.
  - by apply (NoDup_fmap_1 sample_id).
  - by apply (NoDup_fmap_1 sample_id).
  - intros r. split; [apply Hsub|]. intros Hr.
    assert (sample_id r ∈ sample_id <$> L) as Hid.
    { rewrite Hids. apply (elem_of_list_to_set (C:=gset str)).
      rewrite Hset, elem_of_all_sample_ids. by apply list_elem_of_fmap_2. }
    apply list_elem_of_fmap in Hid as (r' & Hf & Hr').
    by rewrite (NoDup_fmap_inj_on sample_id (all_samples s) r r' NDs Hr
                  (Hsub _ Hr') Hf).
Qed.

(** C2, as the code behaves: the batch of [dup_workdir] passes every
    validation check (empty log, exit code 0); its mapping table has the one
    group [BreedA] with the one entry [S1], so both loaded sample records
    belong to exactly one group; yet only the first of the two records is
    written, and the second is in no group's output.  The claim asks for
    every input row to appear in exactly one group's output. *)
Theorem C2_round_trip_loses_row_with_repeated_id :
  let out := run dup_workdir stamp in
  exit_code out = 0
  ∧ log (final out) = []
  ∧ breed_groups (split_table (final out))
    = [(u "BreedA", [(u "S1", u "Alice")])]
  ∧ ped_line <$> all_samples (final out)
    = [tsv ["F1"; "S1"; "0"; "0"; "1"; "-9"; "A"; "A"];
       tsv ["F2"; "S1"; "0"; "0"; "2"; "-9"; "C"; "C"]]
  ∧ concat (ped_out <$> bundles out)
    = [tsv ["F1"; "S1"; "0"; "0"; "1"; "-9"; "A"; "A"]].
Proof. vm_compute. done. Qed.

(** ** What a successful run hands to the partitioner *)

Lemma paired_same s s' :
  map_data s' = map_data s → ped_data s' = ped_data s → paired s → paired s'.
Proof. unfold paired. by intros -> ->. Qed.

Lemma load_split_rows_frame f n ls s :
  let s' := load_split_rows f n ls s in
  map_data s' = map_data s ∧ ped_data s' = ped_data s.
Proof.
  revert n s. induction ls as [|line ls IH]; intros n s; [done|].
  simpl. destruct (IH (S n)
    (if bool_decide (length (fields line) ≠ 3)
     then defect (MalformedRow (MappingTable f) n (length (fields line))) s
     else match fields line with
          | [chip_id; sample_name; breed] =>
              if dict_mem chip_id (split_table s)
              then defect (DuplicateKey chip_id) s
              else set_split_table
                     (dict_set chip_id (sample_name, breed) (split_table s)) s
          | _ => s
          end)) as [-> ->].
  case_bool_decide; [done|].
  destruct (fields line) as [|a [|b [|c [|]]]]; try done.
  by destruct (dict_mem _ _).
Qed.

Lemma load_split_table_frame w f s :
  let s' := load_split_table w f s in
  map_data s' = map_data s ∧ ped_data s' = ped_data s.
Proof.
  unfold load_split_table.
  destruct (negb _); [done|]. destruct (getsize_is_zero _); [done|].
  destruct (raises _); simpl; apply load_split_rows_frame.
Qed.

Lemma find_plink_loop_frame w names : ∀ s ms ps,
  let s' := (find_plink_loop w names s ms ps).1.1 in
  map_data s' = map_data s ∧ ped_data s' = ped_data s
  ∧ split_table s' = split_table s.
Proof.
  induction names as [|x names IH]; intros s ms ps; [done|].
  simpl. repeat case_match; try apply IH; apply (IH (defect _ s)).
Qed.

Lemma find_plink_files_frame w s :
  let s' := (find_plink_files w s).1 in
  map_data s' = map_data s ∧ ped_data s' = ped_data s
  ∧ split_table s' = split_table s.
Proof.
  unfold find_plink_files.
  pose proof (find_plink_loop_frame w (dict_keys w) s [] []) as H.
  destruct (find_plink_loop _ _ _ _ _) as [[s' ms] ps]. simpl in H.
  by destruct ms.
Qed.

Lemma load_ped_rows_frame f k n ls s data :
  let s' := (load_ped_rows f k n ls s data).1 in
  map_data s' = map_data s ∧ ped_data s' = ped_data s
  ∧ split_table s' = split_table s.
Proof.
  revert n s data. induction ls as [|line ls IH]; intros n s data; [done|].
  simpl. case_bool_decide.
  - apply (IH (S n) (defect _ s)).
  - destruct (fields line) as [|a [|b [|c [|d [|e [|g gs]]]]]]; apply IH.
Qed.

Lemma load_ped_file_frame w f k s :
  let s' := (load_ped_file w f k s).1 in
  map_data s' = map_data s ∧ ped_data s' = ped_data s
  ∧ split_table s' = split_table s.
Proof.
  unfold load_ped_file.
  pose proof (load_ped_rows_frame f (6 + 2 * k) 1 (lines (open_file w f)) s [])
    as H.
  destruct (load_ped_rows _ _ _ _ _ _) as [s' data]. simpl in H.
  by destruct (raises _).
Qed.

Lemma load_pair_paired w s pair : paired s → paired (load_pair w s pair).
Proof.
  intros P. destruct pair as [mf pf]. unfold load_pair.
  destruct (load_map_file_frame w mf s) as (Hm1 & Hp1 & _).
  destruct (load_map_file w mf s) as [s1 data]. simpl in Hm1, Hp1.
  assert (paired s1) as P1 by (by apply (paired_same s)).
  destruct data as [|m data]; [done|].
  set (prefix := drop_last4 mf).
  set (s2 := set_map_data (dict_set prefix (m :: data) (map_data s1)) s1).
  destruct (load_ped_file_frame w pf (length (m :: data)) s2) as (Hm3 & Hp3 & _).
  destruct (load_ped_file w pf _ s2) as [s3 samples]. simpl in Hm3, Hp3.
  assert (paired s3 ∧ prefix ∈ dict_keys (map_data s3)) as [P3 Hk].
  { unfold paired. rewrite Hm3, Hp3. subst s2. simpl. split.
    - intros k Hk. by apply dict_set_mono, P1.
    - apply dict_set_mem. }
  destruct samples as [|r samples]; [done|].
  intros k. simpl. rewrite dict_set_keys. case_decide.
  - apply P3.
  - intros [?|Hk']%elem_of_app; [by apply P3|].
    by apply list_elem_of_singleton in Hk' as ->.
Qed.

Lemma load_plink_files_paired w pairs s :
  paired s → paired (load_plink_files w pairs s).
Proof.
  unfold load_plink_files. revert s.
  induction pairs as [|p pairs IH]; intros s P; [done|].
  simpl. by apply IH, load_pair_paired.
Qed.

Lemma validate_map_consistency_true s s' :
  validate_map_consistency s = (s', true) → s' = s.
Proof.
  unfold validate_map_consistency. repeat case_match; congruence.
Qed.

(** A validated state with sample tables under marker tables has a marker
    template as soon as its mapping table has an entry. *)
Lemma validated_has_template s :
  paired s → (validate_data_integrity s).2 = true →
  split_table s ≠ [] → map_data s ≠ [].
Proof.
  intros P (_ & Hall & _)%validate_data_integrity_true Ht Hm.
  destruct (split_table s) as [|[c v] t] eqn:E; [done|].
  assert (c ∈ all_sample_ids s) as Hc by (apply Hall; left).
  apply elem_of_all_sample_ids in Hc. unfold all_samples in Hc.
  destruct (ped_data s) as [|[k d] peds] eqn:Ep.
  - by apply elem_of_nil in Hc.
  - assert (k ∈ dict_keys (map_data s)) as Hk.
    { apply P. rewrite Ep. left. }
    rewrite Hm in Hk. by apply elem_of_nil in Hk.
Qed.

(** A run that ends with exit code 0 has handed to [split_by_breed] a state
    that passed validation with an empty log, in which a marker template
    exists unless the mapping table is empty. *)
Lemma run_success_state w now :
  exit_code (run w now) = 0 →
  ∃ s, (validate_data_integrity s).2 = true
       ∧ log s = []
       ∧ (split_table s ≠ [] → map_data s ≠ [])
       ∧ final (run w now) = (split_by_breed now s).1
       ∧ bundles (run w now) = (split_by_breed now s).2.
Proof.
  unfold run.
  set (s0 := load_exclude_list w (u "exclude_chipid.txt") init).
  destruct (load_exclude_list_log w (u "exclude_chipid.txt") init)
    as (L0 & _ & _ & Hm0 & Hp0). fold s0 in L0, Hm0, Hp0.
  assert (paired s0) as P0.
  { apply (paired_same init); [done..|].
    intros k Hk. by apply elem_of_nil in Hk. }
  assert (sound s0) as S0.
  { unfold sound. rewrite L0. by intros N. }
  destruct (load_split_table_frame w (u "split_plink.txt") s0) as [Hm1 Hp1].
  pose proof (paired_same _ _ Hm1 Hp1 P0) as P1.
  pose proof (extends_sound _ _ S0
                (load_split_table_extends w (u "split_plink.txt") s0)) as S1.
  destruct (error_status (load_split_table _ _ s0)); [done|].
  destruct (find_plink_files_frame w
              (load_split_table w (u "split_plink.txt") s0)) as (Hm2 & Hp2 & _).
  pose proof (find_plink_files_extends w
                (load_split_table w (u "split_plink.txt") s0)) as X2.
  destruct (find_plink_files w _) as [s2 pairs]. simpl in Hm2, Hp2, X2.
  pose proof (paired_same _ _ Hm2 Hp2 P1) as P2.
  pose proof (extends_sound _ _ S1 X2) as S2.
  destruct (error_status s2); [done|].
  pose proof (load_plink_files_paired w pairs s2 P2) as P3.
  pose proof (extends_sound _ _ S2 (load_plink_files_extends w pairs s2)) as S3.
  destruct (error_status (load_plink_files w pairs s2)); [done|].
  pose proof (validate_map_consistency_true (load_plink_files w pairs s2)) as V4.
  destruct (validate_map_consistency _) as [s4 ok4].
  destruct ok4; [|done]. cbn [negb].
  rewrite (V4 s4 eq_refl) in *.
  pose proof (validate_data_integrity_true_same
                (load_plink_files w pairs s2)) as V5.
  pose proof (validate_data_integrity_true
                (load_plink_files w pairs s2)) as V6.
  destruct (validate_data_integrity _) as [s5 ok5] eqn:E5.
  destruct ok5; [|done]. cbn [negb]. simpl in V5, V6.
  rewrite (V5 eq_refl) in *. intros _.
  exists (load_plink_files w pairs s2).
  split; [by rewrite E5|]. split; [|split].
  - destruct V6 as [[E _] _]; [done|].
    destruct (log (load_plink_files w pairs s2)) as [|d l] eqn:L; [done|].
    rewrite S3 in E by (by rewrite L). done.
  - apply validated_has_template; [done|by rewrite E5].
  - by destruct (split_by_breed now _).
Qed.

(** On a validated state with an empty log that has a marker template or
    no mapping entry, partitioning records nothing. *)
Lemma split_by_breed_log_empty now s :
  log s = [] → (split_table s ≠ [] → map_data s ≠ []) →
  log (split_by_breed now s).1 = [].
Proof.
  intros L Ht. unfold split_by_breed. destruct (error_status s); [done|].
  destruct (split_table s) as [|e t] eqn:E; [done|].
  destruct (map_data s) as [|[p tmpl] rest] eqn:Hm; [by destruct Ht|].
  destruct (split_groups_template now (breed_groups (e :: t)) s p tmpl rest Hm)
    as (-> & _ & _). done.
Qed.

(** A run that recorded a defect has stopped with exit code 1 before the
    partitioning step, and has written no bundle. *)
Lemma run_defect_stops w now :
  log (final (run w now)) ≠ [] →
  exit_code (run w now) = 1 ∧ bundles (run w now) = [].
Proof.
  intros N.
  assert (exit_code (run w now) ≠ 0) as Hx.
  { intros (s & _ & L & Ht & Hf & _)%run_success_state.
    apply N. rewrite Hf. by apply split_by_breed_log_empty. }
  revert Hx. clear N. unfold run.
  destruct (error_status _); [done|].
  destruct (find_plink_files w _) as [s2 pairs].
  destruct (error_status s2); [done|].
  destruct (error_status _); [done|].
  destruct (validate_map_consistency _) as [s4 [|]]; [|done]. cbn [negb].
  destruct (validate_data_integrity _) as [s5 [|]]; [|done]. cbn [negb].
  by destruct (split_by_breed now s5).
Qed.

(** C4: when two of the parsed marker files have the same number of rows
    and different marker id sequences, [validate_map_consistency] fails,
    appends one [InconsistentSchema] defect and raises the flag, and
    partitioning the resulting state writes nothing.  In general
    [split_by_breed] does nothing on a flagged state, and a run whose log
    holds any defect has stopped with exit code 1 before the partitioning
    step and has written no bundle. *)
Theorem C4_schema_mismatch_blocks_partition :
  (∀ s e1 e2 now,
     e1 ∈ map_data s → e2 ∈ map_data s →
     length e1.2 = length e2.2 →
     snp_id <$> e1.2 ≠ snp_id <$> e2.2 →
     let r := validate_map_consistency s in
     r.2 = false ∧ error_status r.1 = true
     ∧ (∃ why, log r.1 = log s ++ [InconsistentSchema why])
     ∧ split_by_breed now r.1 = (r.1, []))
  ∧ (∀ s now, error_status s = true → split_by_breed now s = (s, []))
  ∧ (∀ w now, log (final (run w now)) ≠ [] →
              exit_code (run w now) = 1 ∧ bundles (run w now) = []).
Proof.
  split; [|split].
  - intros s e1 e2 now H1 H2 _ Hne r. subst r.
    destruct (validate_map_consistency_mismatch s e1 e2 H1 H2 Hne)
      as [why ->]. simpl.
    split; [done|]. split; [done|]. split; [by exists why|].
    by apply split_by_breed_gate.
  - intros s now. apply split_by_breed_gate.
  - apply run_defect_stops.
Qed.

(** ** The theorems at concrete batches *)

Lemma C3_rows_follow_mapping_order_witness :
  map_data demo_state ≠ []
  ∧ (validate_data_integrity demo_state).2 = true
  ∧ let s := demo_state in
    let now := stamp in
    let groups := breed_groups (split_table s) in
    let outs := (split_by_breed now s).2 in
    (∀ e, e ∈ split_table s → e.2.2 ∈ dict_keys groups)
    ∧ NoDup (dict_keys groups)
    ∧ Forall2
        (λ g b,
           let entries := filter (λ e, e.2.2 = g.1) (split_table s) in
           stem b = g.1 ++ u "_" ++ now
           ∧ ∃ rows, ped_out b = ped_line <$> rows
                     ∧ (∀ r, r ∈ rows → r ∈ all_samples s)
                     ∧ sample_id <$> rows = entries.*1
                     ∧ idmap_out b
                       = (λ e, e.1 ++ [tab] ++ e.2.1 ++ [nl]) <$> entries)
        groups outs.
Proof.
  assert (map_data demo_state ≠ []) as H1 by (vm_compute; done).
  assert ((validate_data_integrity demo_state).2 = true) as H2
    by (vm_compute; reflexivity).
  split; [exact H1|]. split; [exact H2|].
  exact (C3_rows_follow_mapping_order demo_state stamp H1 H2).
Defined.

Lemma C6_unmapped_chip_reported_once_witness :
  NoDup (dict_keys (split_table unmapped_state))
  ∧ let s := unmapped_state in
    let s' := (validate_data_integrity s).1 in
    (∀ chip, chip ∈ dict_keys (split_table s) →
             chip ∉ sample_id <$> all_samples s →
             occurrences (UnmappedChip chip) (log s')
             = S (occurrences (UnmappedChip chip) (log s)))
    ∧ (∀ chip, (chip ∈ dict_keys (split_table s) →
                chip ∈ sample_id <$> all_samples s) →
               occurrences (UnmappedChip chip) (log s')
               = occurrences (UnmappedChip chip) (log s))
    ∧ ((∀ chip, chip ∈ dict_keys (split_table s) →
                chip ∈ sample_id <$> all_samples s) →
       ∀ chip, UnmappedChip chip ∈ log s' → UnmappedChip chip ∈ log s).
Proof.
  assert (NoDup (dict_keys (split_table unmapped_state))) as H1.
  { apply (bool_decide_unpack _). vm_compute. exact I. }
  split; [exact H1|].
  exact (C6_unmapped_chip_reported_once unmapped_state H1).
Defined.

Lemma C7_marker_file_is_first_template_witness :
  map_data demo_state = (u "a", demo_markers) :: []
  ∧ error_status demo_state = false
  ∧ let s := demo_state in
    let outs := (split_by_breed stamp s).2 in
    length outs = length (breed_groups (split_table s))
    ∧ (∀ b, b ∈ outs → map_out b = map_line <$> demo_markers)
    ∧ (∀ r, map_line r = chromosome r ++ [tab] ++ snp_id r ++ [tab]
                         ++ genetic_distance r ++ [tab] ++ position r ++ [nl])
    ∧ (∀ w f s0, raises (open_file w f) = false →
         map_line <$> (load_map_file w f s0).2
         = (λ l, strip l ++ [nl])
             <$> filter (λ l, length (fields l) = 4) (lines (open_file w f))).
Proof.
  assert (map_data demo_state = (u "a", demo_markers) :: []) as H1
    by (vm_compute; reflexivity).
  assert (error_status demo_state = false) as H2 by (vm_compute; reflexivity).
  split; [exact H1|]. split; [exact H2|].
  exact (C7_marker_file_is_first_template demo_state stamp _ _ _ H1 H2).
Defined.

Lemma C9_pair_without_marker_rows_witness :
  (load_map_file bad_marker_workdir (u "b.map") init).2 = []
  ∧ let w := bad_marker_workdir in
    let s := init in
    let map_file := u "b.map" in
    let s' := load_pair w s (map_file, u "b.ped") in
    s' = (load_map_file w map_file s).1
    ∧ map_data s' = map_data s
    ∧ ped_data s' = ped_data s
    ∧ (∀ d, d ∈ log s' →
            d ∈ log s ∨ (∃ i k, d = MalformedRow (MarkerFile map_file) i k)
            ∨ d = ReadFailure (MarkerFile map_file))
    ∧ (open_file w map_file = mkFile [] false → s' = s).
Proof.
  assert ((load_map_file bad_marker_workdir (u "b.map") init).2 = []) as H1
    by (vm_compute; reflexivity).
  split; [exact H1|].
  exact (C9_pair_without_marker_rows bad_marker_workdir init (u "b.map")
           (u "b.ped") H1).
Defined.

Lemma C10_sample_and_idmap_aligned_witness :
  map_data demo_state ≠ []
  ∧ let s := demo_state in
    let samples := [(u "S3", u "Carol"); (u "S9", u "Zed"); (u "S1", u "Alice")] in
    ∃ b rows,
      generate_breed_files s (u "BreedA") samples (u "BreedA_x") = (s, Some b)
      ∧ ped_out b = ped_line <$> rows
      ∧ let kept := filter (λ e, e.1 ∈ sample_id <$> all_samples s) samples in
        sample_id <$> rows = kept.*1
        ∧ idmap_out b = (λ e, e.1 ++ [tab] ++ e.2 ++ [nl]) <$> kept
        ∧ length (idmap_out b) = length (ped_out b)
        ∧ ∀ i line row, idmap_out b !! i = Some line → rows !! i = Some row →
            ∃ name, line = sample_id row ++ [tab] ++ name ++ [nl].
Proof.
  assert (map_data demo_state ≠ []) as H1 by (vm_compute; done).
  split; [exact H1|].
  exact (C10_sample_and_idmap_aligned demo_state (u "BreedA")
           [(u "S3", u "Carol"); (u "S9", u "Zed"); (u "S1", u "Alice")]
           (u "BreedA_x") H1).
Defined.

Lemma C4_schema_mismatch_blocks_partition_witness :
  let s := transposed_state in
  let r := validate_map_consistency s in
  r.2 = false ∧ error_status r.1 = true
  ∧ (∃ why, log r.1 = log s ++ [InconsistentSchema why])
  ∧ split_by_breed stamp r.1 = (r.1, []).
Proof.
  refine (proj1 C4_schema_mismatch_blocks_partition transposed_state
            (u "a", demo_markers)
            (u "b", [ mkMarker (u "M2") (u "1") (u "200") (u "0");
                      mkMarker (u "M1") (u "1") (u "100") (u "0") ])
            stamp _ _ _ _).
  - apply (bool_decide_unpack _). vm_compute. exact I.
  - apply (bool_decide_unpack _). vm_compute. exact I.
  - reflexivity.
  - vm_compute. discriminate.
Defined.

Lemma C5_load_split_table_defects_witness :
  let s' := load_split_table defective_workdir (u "split_plink.txt") init in
  load_split_table [] (u "split_plink.txt") init
  = defect (MissingInput (MappingTable (u "split_plink.txt"))) init
  ∧ MalformedRow (MappingTable (u "split_plink.txt")) 2 1 ∈ log s'
  ∧ DuplicateKey (u "S1") ∈ log s'
  ∧ u "S2" ∈ dict_keys (split_table s').
Proof.
  pose proof (C5_load_split_table_defects []
                (u "split_plink.txt") init) as (Hmiss & _ & _).
  pose proof (C5_load_split_table_defects defective_workdir
                (u "split_plink.txt") init) as (_ & _ & Hrows).
  cbn zeta in Hrows.
  specialize (Hrows ltac:(vm_compute; reflexivity)
                    ltac:(vm_compute; reflexivity)).
  split; [apply Hmiss; vm_compute; reflexivity|]. split; [|split].
  - destruct (Hrows 1 (tsv ["oops"]) ltac:(vm_compute; reflexivity))
      as [H _].
    apply H. vm_compute. discriminate.
  - destruct (Hrows 2 (tsv ["S1"; "Bob"; "BreedB"])
                ltac:(vm_compute; reflexivity)) as [_ H].
    destruct (H (u "S1") (u "Bob") (u "BreedB") ltac:(vm_compute; reflexivity))
      as [_ Hd].
    apply Hd. right.
    exists 0, (tsv ["S1"; "Alice"; "BreedA"]), (u "Alice"), (u "BreedA").
    split; [lia|]. split; vm_compute; reflexivity.
  - destruct (Hrows 3 (tsv ["S2"; "Carol"; "BreedA"])
                ltac:(vm_compute; reflexivity)) as [_ H].
    by destruct (H (u "S2") (u "Carol") (u "BreedA")
                   ltac:(vm_compute; reflexivity)) as [Hk _].
Defined.

Lemma C8_load_ped_file_malformed_rows_witness :
  let r := load_ped_file defective_workdir (u "c.ped") 3 init in
  MalformedRow (SampleFile (u "c.ped")) 2 11 ∈ log r.1
  ∧ sample_id <$> r.2 = [u "S1"; u "S3"].
Proof.
  pose proof (C8_load_ped_file_malformed_rows defective_workdir (u "c.ped") 3
                init) as [Hbad Hdata].
  cbn zeta in Hbad, Hdata. split.
  - apply (Hbad 1 (tsv ["F2"; "S2"; "0"; "0"; "1"; "-9"; "A"; "A"; "C"; "C"; "G"])).
    + vm_compute. reflexivity.
    + vm_compute. discriminate.
  - rewrite Hdata by (vm_compute; reflexivity). vm_compute. reflexivity.
Defined.

(** The sample file of [demo_workdir] lists [S3], [S2], [S1]; the rows of
    group [BreedA] come out as [S1], [S3], the order of the mapping table. *)
Example demo_rows_in_mapping_order :
  (ped_out <$> bundles (run demo_workdir stamp)) !! 0
  = Some [tsv ["F1"; "S1"; "0"; "0"; "1"; "-9"; "A"; "A"; "C"; "C"];
          tsv ["F3"; "S3"; "0"; "0"; "2"; "-9"; "G"; "G"; "T"; "T"]]
  ∧ (idmap_out <$> bundles (run demo_workdir stamp)) !! 0
    = Some [tsv ["S1"; "Alice"]; tsv ["S3"; "Carol"]].
Proof. vm_compute. done. Qed.

(** * Further properties of the program *)

(** ** Discovery of the file pairs *)

Lemma find_plink_loop_lists w names : ∀ s ms ps,
  let P := λ m, endswith m (u ".map") = true
                ∧ path_exists w (drop_last4 m ++ u ".ped") = true in
  (find_plink_loop w names s ms ps).1.2 = ms ++ filter P names
  ∧ (find_plink_loop w names s ms ps).2
    = ps ++ ((λ m, drop_last4 m ++ u ".ped") <$> filter P names).
Proof.
  induction names as [|x names IH]; intros s ms ps P; simpl.
  - by rewrite !app_nil_r.
  - destruct (endswith x (u ".map")) eqn:Em.
    + destruct (path_exists w (drop_last4 x ++ u ".ped")) eqn:Ep.
      * destruct (IH s (ms ++ [x]) (ps ++ [drop_last4 x ++ u ".ped"]))
          as [-> ->].
        rewrite filter_cons_True by done. csimpl.
        by rewrite <- !app_assoc.
      * destruct (IH (defect (UnpairedInput x (drop_last4 x ++ u ".ped")) s)
                    ms ps) as [-> ->].
        rewrite filter_cons_False; [done|]. subst P. simpl.
        intros [_ ?]. congruence.
    + assert (filter P (x :: names) = filter P names) as ->.
      { apply filter_cons_False. subst P. simpl. intros [? _]. congruence. }
      repeat case_match; apply IH.
Qed.

Lemma zip_fmap_diag {A B} (g : A → B) (l : list A) :
  zip l (g <$> l) = (λ x, (x, g x)) <$> l.
Proof. induction l as [|x l IH]; csimpl; [done|]. by rewrite IH. Qed.

Lemma find_plink_files_pairs w s :
  (find_plink_files w s).2
  = (λ m, (m, drop_last4 m ++ u ".ped"))
      <$> filter (λ m, endswith m (u ".map") = true
                       ∧ path_exists w (drop_last4 m ++ u ".ped") = true)
                 (dict_keys w).
Proof.
  unfold find_plink_files.
  destruct (find_plink_loop_lists w (dict_keys w) s [] []) as [Hm Hp].
  destruct (find_plink_loop _ _ _ _ _) as [[s' ms] ps]. simpl in Hm, Hp.
  subst ms ps. destruct (filter _ _) as [|m ms] eqn:E; [done|].
  apply zip_fmap_diag.
Qed.

(** X1: the pairs returned by [find_plink_files] are, in directory-listing
    order, exactly the names ending in [.map] whose stem followed by [.ped]
    also exists, each paired with that [.ped] name; the state passed in and
    the defects found on the way do not change the answer. *)
Theorem X1_find_plink_files_pairs w s :
  let pairs := (find_plink_files w s).2 in
  pairs
  = (λ m, (m, drop_last4 m ++ u ".ped"))
      <$> filter (λ m, endswith m (u ".map") = true
                       ∧ path_exists w (drop_last4 m ++ u ".ped") = true)
                 (dict_keys w)
  ∧ ∀ m p, (m, p) ∈ pairs →
      m ∈ dict_keys w ∧ endswith m (u ".map") = true
      ∧ p = drop_last4 m ++ u ".ped" ∧ path_exists w p = true.
Proof.
  intros pairs. subst pairs. rewrite find_plink_files_pairs.
  split; [done|]. intros m p (m' & [= -> ->] & Hm)%list_elem_of_fmap.
  apply list_elem_of_filter in Hm as [[? ?] ?]. done.
Qed.

(** A name that is neither a marker file without its sample file nor a
    sample file without its marker file. *)
Lemma find_plink_loop_orphan w names : ∀ s ms ps x missing,
  x ∈ names →
  (endswith x (u ".map") = true ∧ missing = drop_last4 x ++ u ".ped"
   ∨ endswith x (u ".map") = false ∧ endswith x (u ".ped") = true
     ∧ missing = drop_last4 x ++ u ".map") →
  path_exists w missing = false →
  let s' := (find_plink_loop w names s ms ps).1.1 in
  UnpairedInput x missing ∈ log s' ∧ error_status s' = true.
Proof.
  induction names as [|y names IH]; intros s ms ps x missing Hx Hk Hn.
  - by apply elem_of_nil in Hx.
  - apply elem_of_cons in Hx as [->|Hx].
    + assert (find_plink_loop w (y :: names) s ms ps
              = find_plink_loop w names (defect (UnpairedInput y missing) s)
                                ms ps) as ->.
      { simpl. destruct Hk as [[-> ->]|(-> & -> & ->)]; by rewrite Hn. }
      pose proof (find_plink_loop_extends w names
                    (defect (UnpairedInput y missing) s) ms ps) as X.
      split.
      * eapply log_mono; [exact X|]. simpl. apply elem_of_app. right. left.
      * by apply (extends_flag _ _ X).
    + simpl. repeat case_match; by apply IH.
Qed.

Lemma find_plink_loop_no_orphan w names : ∀ s ms ps,
  (∀ x, x ∈ names → endswith x (u ".map") = true →
        path_exists w (drop_last4 x ++ u ".ped") = true) →
  (∀ x, x ∈ names → endswith x (u ".map") = false →
        endswith x (u ".ped") = true →
        path_exists w (drop_last4 x ++ u ".map") = true) →
  (find_plink_loop w names s ms ps).1.1 = s.
Proof.
  induction names as [|y names IH]; intros s ms ps H1 H2; [done|].
  assert (y ∈ y :: names) as Hy by left.
  simpl. destruct (endswith y (u ".map")) eqn:Em.
  - rewrite (H1 y Hy Em). apply IH; intros; [apply H1|apply H2]; by try right.
  - destruct (endswith y (u ".ped")) eqn:Ep.
    + rewrite (H2 y Hy Em Ep). simpl.
      apply IH; intros; [apply H1|apply H2]; by try right.
    + apply IH; intros; [apply H1|apply H2]; by try right.
Qed.

(** X2: [find_plink_files] reports every orphan of the directory: a name
    ending in [.map] whose [.ped] is missing, and a name ending in [.ped]
    whose [.map] is missing, each get an [UnpairedInput] defect; an empty
    answer comes with a [MissingInput] defect and the flag raised; and on a
    state that is not flagged the flag stays down exactly when the directory
    has no orphan and at least one pair, in which case the state is
    unchanged. *)
Theorem X2_find_plink_files_defects w s :
  let s' := (find_plink_files w s).1 in
  let pairs := (find_plink_files w s).2 in
  let map_orphan := λ x, endswith x (u ".map") = true
                         ∧ path_exists w (drop_last4 x ++ u ".ped") = false in
  let ped_orphan := λ x, endswith x (u ".map") = false
                         ∧ endswith x (u ".ped") = true
                         ∧ path_exists w (drop_last4 x ++ u ".map") = false in
  (∀ x, x ∈ dict_keys w → map_orphan x →
        UnpairedInput x (drop_last4 x ++ u ".ped") ∈ log s')
  ∧ (∀ x, x ∈ dict_keys w → ped_orphan x →
          UnpairedInput x (drop_last4 x ++ u ".map") ∈ log s')
  ∧ (pairs = [] → MissingInput MarkerFiles ∈ log s' ∧ error_status s' = true)
  ∧ (error_status s = false →
     (error_status s' = false
      ↔ (∀ x, x ∈ dict_keys w → ¬ map_orphan x ∧ ¬ ped_orphan x)
        ∧ pairs ≠ []))
  ∧ (error_status s' = false → s' = s).
Proof.
  intros s' pairs map_orphan ped_orphan.
  assert (∀ x, x ∈ dict_keys w → map_orphan x →
            UnpairedInput x (drop_last4 x ++ u ".ped") ∈ log s'
            ∧ error_status s' = true) as Hmo.
  { intros x Hx [Em Ep]. subst s'. unfold find_plink_files.
    destruct (find_plink_loop_orphan w (dict_keys w) s [] [] x
                (drop_last4 x ++ u ".ped") Hx (or_introl (conj Em eq_refl)) Ep)
      as [Hl He].
    destruct (find_plink_loop _ _ _ _ _) as [[s1 ms] ps]. simpl in Hl, He.
    destruct ms; simpl; [|done]. split; [|done].
    apply elem_of_app. by left. }
  assert (∀ x, x ∈ dict_keys w → ped_orphan x →
            UnpairedInput x (drop_last4 x ++ u ".map") ∈ log s'
            ∧ error_status s' = true) as Hpo.
  { intros x Hx (Em & Ep & En). subst s'. unfold find_plink_files.
    destruct (find_plink_loop_orphan w (dict_keys w) s [] [] x
                (drop_last4 x ++ u ".map") Hx
                (or_intror (conj Em (conj Ep eq_refl))) En) as [Hl He].
    destruct (find_plink_loop _ _ _ _ _) as [[s1 ms] ps]. simpl in Hl, He.
    destruct ms; simpl; [|done]. split; [|done].
    apply elem_of_app. by left. }
  assert (pairs = [] → MissingInput MarkerFiles ∈ log s'
                       ∧ error_status s' = true) as Hempty.
  { subst pairs s'. unfold find_plink_files.
    destruct (find_plink_loop_lists w (dict_keys w) s [] []) as [Hm Hp].
    destruct (find_plink_loop _ _ _ _ _) as [[s1 ms] ps]. simpl in Hm, Hp.
    destruct ms as [|m ms].
    - intros _. simpl. split; [|done]. apply elem_of_app. right. left.
    - cbn [snd]. rewrite Hp, <- Hm. rewrite zip_fmap_diag. done. }
  assert ((∀ x, x ∈ dict_keys w → ¬ map_orphan x ∧ ¬ ped_orphan x) →
          pairs ≠ [] → s' = s) as Hclean.
  { intros Hno Hne. subst pairs s'. unfold find_plink_files in *.
    pose proof (find_plink_loop_no_orphan w (dict_keys w) s [] []) as Hs.
    destruct (find_plink_loop _ _ _ _ _) as [[s1 ms] ps]. simpl in Hs.
    destruct ms as [|m ms]; [done|]. simpl. apply Hs.
    - intros x Hx Em. destruct (Hno x Hx) as [N _].
      destruct (path_exists w _) eqn:E; [done|]. by destruct N.
    - intros x Hx Em Ep. destruct (Hno x Hx) as [_ N].
      destruct (path_exists w _) eqn:E; [done|]. by destruct N. }
  split; [intros; by apply Hmo|]. split; [intros; by apply Hpo|].
  split; [exact Hempty|].
  assert (error_status s' = false →
          (∀ x, x ∈ dict_keys w → ¬ map_orphan x ∧ ¬ ped_orphan x)
          ∧ pairs ≠ []) as Hconv.
  { intros E. split.
    - intros x Hx. split; intros H.
      + destruct (Hmo x Hx H). congruence.
      + destruct (Hpo x Hx H). congruence.
    - intros H. destruct (Hempty H). congruence. }
  split.
  - intros Es. split; [exact Hconv|]. intros [Hno Hne].
    by rewrite (Hclean Hno Hne).
  - intros E. destruct (Hconv E). by apply Hclean.
Qed.

(** ** The exclude list *)

Lemma elem_of_exclude_fold (ls : list str) : ∀ (acc : gset str) chip,
  chip ∈ foldl (λ acc line,
                  let chip_id := strip line in
                  if bool_decide (chip_id = []) then acc
                  else {[chip_id]} ∪ acc) acc ls
  ↔ chip ∈ acc ∨ (chip ≠ [] ∧ ∃ line, line ∈ ls ∧ strip line = chip).
Proof.
  induction ls as [|l ls IH]; intros acc chip; simpl.
  - split; [by left|]. intros [?|(_ & line & ?%elem_of_nil & _)]; done.
  - rewrite IH. case_bool_decide as E.
    + split.
      * intros [?|(Hc & line & Hl & Hs)]; [by left|].
        right. split; [done|]. exists line. split; [by right|done].
      * intros [?|(Hc & line & Hl & Hs)]; [by left|].
        apply elem_of_cons in Hl as [->|Hl]; [congruence|].
        right. split; [done|]. by exists line.
    + rewrite elem_of_union, elem_of_singleton. split.
      * intros [[->|?]|(Hc & line & Hl & Hs)].
        -- right. split; [done|]. exists l. split; [left|done].
        -- by left.
        -- right. split; [done|]. exists line. split; [by right|done].
      * intros [?|(Hc & line & Hl & Hs)]; [left; by right|].
        apply elem_of_cons in Hl as [->|Hl]; [left; by left|].
        right. split; [done|]. by exists line.
Qed.

(** X3: [load_exclude_list] never touches the flag, the log or the loaded
    tables, whether the file is missing, unreadable or fine; a missing file
    leaves the state as it is; otherwise the exclude set gains exactly the
    non-empty stripped lines that could be read. *)
Theorem X3_load_exclude_list w filename s :
  let s' := load_exclude_list w filename s in
  log s' = log s ∧ error_status s' = error_status s
  ∧ split_table s' = split_table s ∧ map_data s' = map_data s
  ∧ ped_data s' = ped_data s
  ∧ (path_exists w filename = false → s' = s)
  ∧ (path_exists w filename = true →
     ∀ chip, chip ∈ exclude_set s'
             ↔ chip ∈ exclude_set s
               ∨ (chip ≠ []
                  ∧ ∃ line, line ∈ lines (open_file w filename)
                            ∧ strip line = chip)).
Proof.
  intros s'. subst s'. unfold load_exclude_list.
  destruct (path_exists w filename); simpl.
  - do 5 (split; [done|]). split; [done|].
    intros _ chip. apply elem_of_exclude_fold.
  - do 5 (split; [done|]). split; done.
Qed.

(** ** Stripping and splitting a line *)

Lemma lstrip_snoc_nonspace s c :
  isspace c = false → lstrip (s ++ [c]) = lstrip s ++ [c].
Proof.
  intros Hc. induction s as [|a s IH]; simpl.
  - by rewrite Hc.
  - destruct (isspace a); [exact IH|done].
Qed.

Lemma lstrip_idemp s : lstrip (lstrip s) = lstrip s.
Proof.
  induction s as [|a s IH]; simpl; [done|].
  destruct (isspace a) eqn:E; [exact IH|]. simpl. by rewrite E.
Qed.

Lemma lstrip_head s c t : lstrip s = c :: t → isspace c = false.
Proof.
  induction s as [|a s IH]; simpl; [done|].
  destruct (isspace a) eqn:E; [exact IH|]. by intros [= <- _].
Qed.

Lemma rstrip_snoc_space s c : isspace c = true → rstrip (s ++ [c]) = rstrip s.
Proof.
  intros Hc. unfold rstrip. rewrite reverse_snoc. simpl. by rewrite Hc.
Qed.

Lemma rstrip_cons_nonspace c s :
  isspace c = false → rstrip (c :: s) = c :: rstrip s.
Proof.
  intros Hc. unfold rstrip.
  rewrite reverse_cons, lstrip_snoc_nonspace, reverse_snoc by done. done.
Qed.

Lemma rstrip_idemp s : rstrip (rstrip s) = rstrip s.
Proof. unfold rstrip. by rewrite reverse_involutive, lstrip_idemp. Qed.

(** A stripped line is empty or starts with a character that is not
    white space. *)
Lemma strip_head s c t : strip s = c :: t → isspace c = false.
Proof.
  unfold strip. destruct (lstrip s) as [|a r] eqn:E; [done|].
  pose proof (lstrip_head _ _ _ E) as Ha.
  rewrite rstrip_cons_nonspace by done. by intros [= <- _].
Qed.

(** The line written for a parsed row strips back to the row's own line. *)
Lemma strip_strip_nl s : strip (strip s ++ [nl]) = strip s.
Proof.
  destruct (strip s) as [|c t] eqn:E; [done|].
  pose proof (strip_head _ _ _ E) as Hc.
  unfold strip at 1. simpl. rewrite Hc.
  change (c :: t ++ [nl]) with ((c :: t) ++ [nl]).
  rewrite rstrip_snoc_space by done.
  rewrite <- E. unfold strip. apply rstrip_idemp.
Qed.

Lemma fields_strip_nl line : fields (strip line ++ [nl]) = fields line.
Proof. unfold fields. by rewrite strip_strip_nl. Qed.

Lemma split_no_sep sep s : Forall (λ piece, sep ∉ piece) (split sep s).
Proof.
  induction s as [|c s IH]; simpl.
  - constructor; [apply not_elem_of_nil|constructor].
  - destruct (c =? sep)%N eqn:E.
    + constructor; [apply not_elem_of_nil|done].
    + apply N.eqb_neq in E.
      destruct (split sep s) as [|f fs]; [repeat constructor|].
      * intros [?|?%elem_of_nil]%elem_of_cons; [congruence|done].
      * apply Forall_cons in IH as [Hf Hfs]. constructor; [|done].
        intros [?|?]%elem_of_cons; [congruence|done].
Qed.

Lemma split_length sep s :
  length (split sep s) = S (length (filter (λ c, c = sep) s)).
Proof.
  induction s as [|c s IH]; simpl; [done|].
  destruct (c =? sep)%N eqn:E.
  - apply N.eqb_eq in E as ->. rewrite filter_cons_True by done.
    simpl. by rewrite IH.
  - apply N.eqb_neq in E. rewrite filter_cons_False by done.
    pose proof (split_not_nil sep s) as Hne.
    destruct (split sep s) as [|f fs]; [done|]. exact IH.
Qed.

(** X4: the fields of a line, as every row loop computes them: joining them
    with tabs gives back the stripped line, there is one field more than
    there are tabs in the stripped line, no field contains a tab, and the
    line written back for a row (its stripped line and a newline) has the
    same fields. *)
Theorem X4_fields_of_a_line line :
  join [tab] (fields line) = strip line
  ∧ length (fields line) = S (length (filter (λ c, c = tab) (strip line)))
  ∧ Forall (λ field, tab ∉ field) (fields line)
  ∧ fields (strip line ++ [nl]) = fields line.
Proof.
  unfold fields. split; [apply join_split|]. split; [apply split_length|].
  split; [apply split_no_sep|]. by rewrite strip_strip_nl.
Qed.

(** ** The marker file loader *)

Lemma load_map_rows_clean f ls : ∀ n s data,
  Forall (λ l, length (fields l) = 4) ls →
  (load_map_rows f n ls s data).1 = s.
Proof.
  induction ls as [|line ls IH]; intros n s data H; [done|].
  apply Forall_cons in H as [Hl H]. simpl.
  rewrite bool_decide_false by (by intros ?).
  destruct (fields line) as [|a [|b [|c [|d [|]]]]]; by apply IH.
Qed.

Lemma load_map_rows_count f ls : ∀ n s data,
  let r := load_map_rows f n ls s data in
  length r.2 + length (log r.1) = length data + length (log s) + length ls.
Proof.
  induction ls as [|line ls IH]; intros n s data; simpl; [lia|].
  case_bool_decide.
  - rewrite IH. simpl. rewrite length_app. simpl. lia.
  - destruct (fields line) as [|a [|b [|c [|d [|]]]]]; try done.
    rewrite IH. rewrite length_app. simpl. lia.
Qed.

(** X5: [load_map_file] records a [MalformedRow] with the 1-based line
    number for every line that does not have four fields and goes on; when
    reading does not fail it returns the marker tuples of exactly the other
    lines, in file order, and leaves the state unchanged if every line has
    four fields; when reading fails it returns an empty table, records a
    read failure and raises the flag; it never changes the loaded tables. *)
Theorem X5_load_map_file w filename s :
  let f := open_file w filename in
  let r := load_map_file w filename s in
  (∀ i line, lines f !! i = Some line → length (fields line) ≠ 4 →
     MalformedRow (MarkerFile filename) (S i) (length (fields line))
       ∈ log r.1)
  ∧ (raises f = false →
     r.2 = (λ l, marker_of_parts (fields l))
             <$> filter (λ l, length (fields l) = 4) (lines f))
  ∧ (raises f = false → Forall (λ l, length (fields l) = 4) (lines f) →
     r.1 = s)
  ∧ (raises f = true →
     r.2 = [] ∧ ReadFailure (MarkerFile filename) ∈ log r.1
     ∧ error_status r.1 = true)
  ∧ map_data r.1 = map_data s ∧ ped_data r.1 = ped_data s
  ∧ split_table r.1 = split_table s.
Proof.
  intros f r.
  pose proof (load_map_file_frame w filename s) as Hframe.
  subst r. unfold load_map_file in *. fold f in Hframe |- *.
  pose proof (load_map_rows_malformed filename (lines f) 1 s []) as Hm.
  pose proof (load_map_rows_data filename 1 (lines f) s []) as Hd.
  pose proof (load_map_rows_clean filename (lines f) 1 s []) as Hc.
  destruct (load_map_rows _ _ _ _ _) as [s' data]. simpl in Hm, Hd, Hc.
  split; [|split; [|split; [|split]]].
  - intros i line Hi Hl. specialize (Hm i line Hi Hl).
    destruct (raises f); simpl; [|done]. apply elem_of_app. by left.
  - by intros ->.
  - intros -> Hall. simpl. by apply Hc.
  - intros ->. simpl. split; [done|]. split; [|done].
    apply elem_of_app. right. left.
  - exact Hframe.
Qed.

(** ** Every line is accounted for *)

Lemma load_ped_rows_count f k ls : ∀ n s data,
  6 ≤ k →
  let r := load_ped_rows f k n ls s data in
  length r.2 + length (log r.1) = length data + length (log s) + length ls.
Proof.
  induction ls as [|line ls IH]; intros n s data Hk; simpl; [lia|].
  case_bool_decide as Hl.
  - rewrite IH by done. simpl. rewrite length_app. simpl. lia.
  - destruct (fields line) as [|a [|b [|c [|d [|e [|g gs]]]]]];
      simpl in Hl; try lia.
    rewrite IH by done. rewrite length_app. simpl. lia.
Qed.

Lemma dict_set_new_length {V} k (v : V) d :
  k ∉ dict_keys d → length (dict_set k v d) = S (length d).
Proof. intros H. rewrite dict_set_new by done. rewrite length_app. simpl. lia. Qed.

Lemma load_split_rows_count f ls : ∀ n s,
  let s' := load_split_rows f n ls s in
  length (split_table s') + length (log s')
  = length (split_table s) + length (log s) + length ls.
Proof.
  induction ls as [|line ls IH]; intros n s; simpl; [lia|].
  rewrite IH. case_bool_decide.
  - simpl. rewrite length_app. simpl. lia.
  - destruct (fields line) as [|a [|b [|c [|]]]]; try done.
    destruct (dict_mem a (split_table s)) eqn:M.
    + simpl. rewrite length_app. simpl. lia.
    + apply dict_mem_false in M. simpl.
      rewrite dict_set_new_length by done. lia.
Qed.

(** X6: no line is dropped in silence.  When reading does not fail, each
    line of a marker file or sample file yields either one row of the
    returned table or one defect in the log, and each line of the mapping
    table yields either one new entry of the table or one defect. *)
Theorem X6_every_line_is_loaded_or_reported w filename s :
  let f := open_file w filename in
  raises f = false →
  (let r := load_map_file w filename s in
   length r.2 + length (log r.1) = length (log s) + length (lines f))
  ∧ (∀ n, let r := load_ped_file w filename n s in
          length r.2 + length (log r.1) = length (log s) + length (lines f))
  ∧ (path_exists w filename = true → lines f ≠ [] →
     let s' := load_split_table w filename s in
     length (split_table s') + length (log s')
     = length (split_table s) + length (log s) + length (lines f)).
Proof.
  intros f Hr. split; [|split].
  - unfold load_map_file. fold f.
    pose proof (load_map_rows_count filename (lines f) 1 s []) as H.
    destruct (load_map_rows _ _ _ _ _) as [s' data].
    rewrite Hr. simpl in *. lia.
  - intros n. unfold load_ped_file. fold f.
    pose proof (load_ped_rows_count filename (6 + 2 * n) (lines f) 1 s []
                  ltac:(lia)) as H.
    destruct (load_ped_rows _ _ _ _ _ _) as [s' data].
    rewrite Hr. simpl in *. lia.
  - intros He Hne. unfold load_split_table. fold f. rewrite He. simpl.
    unfold getsize_is_zero. rewrite bool_decide_false by done. simpl.
    rewrite Hr. apply load_split_rows_count.
Qed.

(** ** The mapping table keeps the first entry of a chip id *)

Lemma dict_get_set_eq {V} k (v : V) d : dict_get k (dict_set k v d) = Some v.
Proof.
  induction d as [|[k' v'] d IH]; simpl.
  - by rewrite decide_True.
  - destruct (decide (k' = k)) as [->|Ne]; simpl.
    + by rewrite decide_True.
    + by rewrite decide_False.
Qed.

Lemma dict_get_set_ne {V} k k' (v : V) d :
  k ≠ k' → dict_get k' (dict_set k v d) = dict_get k' d.
Proof.
  intros Ne. induction d as [|[k0 v0] d IH]; simpl.
  - by rewrite decide_False.
  - destruct (decide (k0 = k)) as [->|Ne0]; simpl.
    + by rewrite !decide_False.
    + by rewrite IH.
Qed.

Lemma dict_get_is_Some {V} k (d : list (str * V)) :
  is_Some (dict_get k d) ↔ k ∈ dict_keys d.
Proof.
  destruct (dict_get k d) eqn:E.
  - split; [intros _|by eexists].
    apply dict_get_Some_elem in E. by apply (list_elem_of_fmap_2 fst) in E.
  - apply dict_get_None in E. split; [by intros [? ?]|done].
Qed.

Lemma load_split_rows_keeps f ls : ∀ n s chip v,
  dict_get chip (split_table s) = Some v →
  dict_get chip (split_table (load_split_rows f n ls s)) = Some v.
Proof.
  induction ls as [|line ls IH]; intros n s chip v Hg; [done|].
  simpl. apply IH. case_bool_decide; [done|].
  destruct (fields line) as [|a [|b [|c [|]]]]; try done.
  destruct (dict_mem a (split_table s)) eqn:M; [done|]. simpl.
  rewrite dict_get_set_ne; [done|]. intros ->.
  apply dict_mem_false in M. apply M, dict_get_is_Some. by eexists.
Qed.

Lemma load_split_rows_first f ls : ∀ n s i line chip name breed,
  ls !! i = Some line → fields line = [chip; name; breed] →
  chip ∉ dict_keys (split_table s) →
  (∀ j line', j < i → ls !! j = Some line' →
              ∀ name' breed', fields line' ≠ [chip; name'; breed']) →
  dict_get chip (split_table (load_split_rows f n ls s)) = Some (name, breed).
Proof.
  induction ls as [|l0 ls IH]; intros n s i line chip name breed Hi Hf Hn Hj;
    [done|].
  destruct i as [|i]; simpl in Hi.
  - injection Hi as ->. simpl. apply load_split_rows_keeps.
    rewrite Hf. simpl. apply dict_mem_false in Hn. rewrite Hn. simpl.
    apply dict_get_set_eq.
  - simpl. apply (IH _ _ i line); [done..| |].
    + specialize (Hj 0 l0 ltac:(lia) eq_refl).
      case_bool_decide; [done|].
      destruct (fields l0) as [|a [|b [|c [|]]]] eqn:E; try done.
      destruct (dict_mem a (split_table s)); [done|]. simpl.
      rewrite dict_set_keys. case_decide; [done|].
      intros [?|Hk]%elem_of_app; [done|].
      apply list_elem_of_singleton in Hk as ->. by destruct (Hj b c).
    + intros j line' Hlt Hl. apply (Hj (S j) line'); [lia|done].
Qed.

(** X7: a chip id keeps the first entry the mapping table gets for it.
    An entry already in the table is never overwritten by
    [load_split_table], and a chip id that is new to the table gets the name
    and breed of the first three-field line that carries it, whatever later
    lines say. *)
Theorem X7_first_mapping_entry_wins w filename s :
  let s' := load_split_table w filename s in
  let f := open_file w filename in
  (∀ chip v, dict_get chip (split_table s) = Some v →
             dict_get chip (split_table s') = Some v)
  ∧ (path_exists w filename = true → getsize_is_zero f = false →
     ∀ i line chip name breed,
       lines f !! i = Some line → fields line = [chip; name; breed] →
       chip ∉ dict_keys (split_table s) →
       (∀ j line', j < i → lines f !! j = Some line' →
                   ∀ name' breed', fields line' ≠ [chip; name'; breed']) →
       dict_get chip (split_table s') = Some (name, breed)).
Proof.
  intros s' f. subst s'. unfold load_split_table. fold f. split.
  - intros chip v Hg.
    destruct (negb _); [done|]. destruct (getsize_is_zero f); [done|].
    destruct (raises f); simpl; by apply load_split_rows_keeps.
  - intros -> ->. simpl. intros i line chip name breed Hi Hf Hn Hj.
    destruct (raises f); simpl;
      by apply (load_split_rows_first filename (lines f) 1 s i line).
Qed.

(** ** Sample rows *)

Lemma genotypes_of_parts parts n :
  length parts = 6 + 2 * n →
  length (genotypes (sample_of_parts parts)) = 2 * n.
Proof. intros H. unfold sample_of_parts. simpl. rewrite length_drop. lia. Qed.

(** X8: every sample record [load_ped_file] returns for expected marker
    count [n] carries exactly [2 * n] genotype columns. *)
Theorem X8_sample_records_have_two_columns_per_marker w filename n s :
  Forall (λ r, length (genotypes r) = 2 * n) (load_ped_file w filename n s).2.
Proof.
  unfold load_ped_file.
  pose proof (load_ped_rows_data filename (6 + 2 * n) 1
                (lines (open_file w filename)) s [] ltac:(lia)) as Hd.
  destruct (load_ped_rows _ _ _ _ _ _) as [s' data]. simpl in Hd.
  destruct (raises _); simpl; [constructor|]. subst data.
  apply Forall_fmap, Forall_forall. intros l [Hl _]%list_elem_of_filter.
  simpl. by apply genotypes_of_parts.
Qed.

Lemma join_tab_foldl (gs : list str) : ∀ pre x,
  foldl (λ line genotype, line ++ [tab] ++ genotype) (pre ++ x) gs
  = pre ++ join [tab] (x :: gs).
Proof.
  induction gs as [|g gs IH]; intros pre x; [done|].
  cbn [foldl].
  replace ((pre ++ x) ++ [tab] ++ g) with ((pre ++ x ++ [tab]) ++ g)
    by (by rewrite <- !app_assoc).
  rewrite IH. cbn [join]. by rewrite <- !app_assoc.
Qed.

(** The sample line is the tab-joined tuple in file order. *)
Lemma ped_line_join r :
  ped_line r
  = join [tab] (family_id r :: sample_id r :: father_id r :: mother_id r
                :: sex r :: phenotype r :: genotypes r) ++ [nl].
Proof.
  unfold ped_line. f_equal.
  transitivity
    (foldl (λ line genotype, line ++ [tab] ++ genotype)
       ((family_id r ++ [tab] ++ sample_id r ++ [tab] ++ father_id r ++ [tab]
         ++ mother_id r ++ [tab] ++ sex r ++ [tab]) ++ phenotype r)
       (genotypes r)).
  { f_equal. repeat (rewrite <- app_assoc || rewrite <- app_comm_cons). done. }
  rewrite join_tab_foldl. cbn [join].
  repeat (rewrite <- app_assoc || rewrite <- app_comm_cons). done.
Qed.

(** A sample row written back is the line it was read from, stripped. *)
Lemma ped_line_of_fields line k :
  6 ≤ k → length (fields line) = k →
  ped_line (sample_of_parts (fields line)) = strip line ++ [nl].
Proof.
  intros Hk Hl. rewrite ped_line_join. f_equal.
  rewrite <- (join_split tab (strip line)). unfold fields in *.
  destruct (split tab (strip line)) as [|a [|b [|c [|d [|e [|g gs]]]]]];
    simpl in Hl; try lia.
  done.
Qed.

Lemma load_ped_rows_clean f k ls : ∀ n s data,
  6 ≤ k → Forall (λ l, length (fields l) = k) ls →
  (load_ped_rows f k n ls s data).1 = s.
Proof.
  induction ls as [|line ls IH]; intros n s data Hk H; [done|].
  apply Forall_cons in H as [Hl H]. simpl.
  rewrite bool_decide_false by (by intros ?).
  destruct (fields line) as [|a [|b [|c [|d [|e [|g gs]]]]]];
    simpl in Hl; try lia; by apply IH.
Qed.

Lemma filter_fmap_all {A B} (P : B → Prop) `{∀ x, Decision (P x)}
    (f : A → B) (l : list A) :
  Forall (λ x, P (f x)) l → filter P (f <$> l) = f <$> l.
Proof.
  intros H0. apply filter_all. intros y (x & -> & Hx)%list_elem_of_fmap.
  by apply (proj1 (Forall_forall _ _) H0).
Qed.

Lemma load_map_file_lines w filename s :
  raises (open_file w filename) = false →
  (load_map_file w filename s).2
  = (λ l, marker_of_parts (fields l))
      <$> filter (λ l, length (fields l) = 4) (lines (open_file w filename))
  ∧ map_line <$> (load_map_file w filename s).2
    = (λ l, strip l ++ [nl])
        <$> filter (λ l, length (fields l) = 4) (lines (open_file w filename)).
Proof.
  intros Hr. unfold load_map_file.
  pose proof (load_map_rows_data filename 1 (lines (open_file w filename))
                s []) as Hd.
  destruct (load_map_rows _ _ _ _ _) as [s1 data]. simpl in Hd.
  rewrite Hr. simpl. subst data. split; [done|].
  rewrite <- list_fmap_compose. apply list_fmap_ext. intros i l Hl. simpl.
  apply map_line_of_fields.
  apply list_elem_of_lookup_2, list_elem_of_filter in Hl as [? _]. done.
Qed.

(** X9: the marker file written for a group parses back to the table it
    was written from.  If a marker table was loaded from a readable file
    and a file holds the lines [map_line] writes for it, loading that file
    gives the same table and records nothing. *)
Theorem X9_marker_file_round_trip w filename s w' filename' s' :
  raises (open_file w filename) = false →
  open_file w' filename'
  = mkFile (map_line <$> (load_map_file w filename s).2) false →
  load_map_file w' filename' s' = (s', (load_map_file w filename s).2).
Proof.
  intros Hr Hw.
  destruct (load_map_file_lines w filename s Hr) as [Hd Hlines].
  unfold load_map_file at 1. rewrite Hw. simpl.
  set (good := filter (λ l, length (fields l) = 4)
                      (lines (open_file w filename))) in *.
  assert (Forall (λ l, length (fields l) = 4) good) as Hgood.
  { apply Forall_forall. by intros l [? _]%list_elem_of_filter. }
  rewrite Hlines.
  pose proof (load_map_rows_data filename' 1
                ((λ l, strip l ++ [nl]) <$> good) s' []) as Hdata.
  pose proof (load_map_rows_clean filename'
                ((λ l, strip l ++ [nl]) <$> good) 1 s' []) as Hclean.
  destruct (load_map_rows _ _ _ _ _) as [s1 data]. simpl in Hdata, Hclean.
  rewrite Hclean, Hdata, Hd.
  - f_equal. rewrite filter_fmap_all.
    + rewrite <- list_fmap_compose. apply list_fmap_ext.
      intros i l _. simpl. by rewrite fields_strip_nl.
    + eapply Forall_impl; [exact Hgood|]. intros l Hl. simpl.
      by rewrite fields_strip_nl.
  - apply Forall_fmap. eapply Forall_impl; [exact Hgood|].
    intros l Hl. simpl. by rewrite fields_strip_nl.
Qed.

(** X10: sample rows go through the program unchanged.  The lines
    [ped_line] writes for the records loaded from a readable sample file are
    the accepted lines of that file, stripped, in file order; and a file
    holding these written lines loads, with the same expected marker count,
    to the same records without any defect. *)
Theorem X10_sample_rows_round_trip w filename n s w' filename' s' :
  raises (open_file w filename) = false →
  let data := (load_ped_file w filename n s).2 in
  ped_line <$> data
  = (λ l, strip l ++ [nl])
      <$> filter (λ l, length (fields l) = 6 + 2 * n)
                 (lines (open_file w filename))
  ∧ (open_file w' filename' = mkFile (ped_line <$> data) false →
     load_ped_file w' filename' n s' = (s', data)).
Proof.
  intros Hr data.
  set (good := filter (λ l, length (fields l) = 6 + 2 * n)
                      (lines (open_file w filename))).
  assert (Forall (λ l, length (fields l) = 6 + 2 * n) good) as Hgood.
  { apply Forall_forall. by intros l [? _]%list_elem_of_filter. }
  assert (data = (λ l, sample_of_parts (fields l)) <$> good) as Hd.
  { subst data. unfold load_ped_file.
    pose proof (load_ped_rows_data filename (6 + 2 * n) 1
                  (lines (open_file w filename)) s [] ltac:(lia)) as H.
    destruct (load_ped_rows _ _ _ _ _ _) as [s1 d]. rewrite Hr. exact H. }
  assert (ped_line <$> data = (λ l, strip l ++ [nl]) <$> good) as Hlines.
  { rewrite Hd, <- list_fmap_compose. apply list_fmap_ext.
    intros i l Hl. simpl. apply (ped_line_of_fields l (6 + 2 * n)); [lia|].
    apply list_elem_of_lookup_2 in Hl.
    by apply (proj1 (Forall_forall _ _) Hgood). }
  split; [exact Hlines|]. intros Hw.
  assert (Forall (λ l, length (fields l) = 6 + 2 * n)
                 ((λ l, strip l ++ [nl]) <$> good)) as Hgood'.
  { apply Forall_fmap. eapply Forall_impl; [exact Hgood|].
    intros l Hl. simpl. by rewrite fields_strip_nl. }
  unfold load_ped_file. rewrite Hw, Hlines. simpl.
  pose proof (load_ped_rows_data filename' (6 + 2 * n) 1
                ((λ l, strip l ++ [nl]) <$> good) s' [] ltac:(lia)) as Hdata.
  pose proof (load_ped_rows_clean filename' (6 + 2 * n)
                ((λ l, strip l ++ [nl]) <$> good) 1 s' [] ltac:(lia) Hgood')
    as Hclean.
  destruct (load_ped_rows _ _ _ _ _ _) as [s1 d]. simpl in Hdata, Hclean.
  rewrite Hclean, Hdata, Hd. f_equal.
  rewrite filter_all by (by apply Forall_forall).
  rewrite <- list_fmap_compose. apply list_fmap_ext.
  intros i l _. simpl. by rewrite fields_strip_nl.
Qed.

(** ** The validators *)

Lemma size_list_to_set_const (l : list nat) a :
  (∀ x, x ∈ l → x = a) → size (list_to_set l : gset nat) ≤ 1.
Proof.
  intros H. transitivity (size ({[a]} : gset nat)).
  - apply subseteq_size. intros x Hx%elem_of_list_to_set.
    apply elem_of_singleton. by apply H.
  - by rewrite size_singleton.
Qed.

Lemma snp_order_consistent_all first entries :
  (∀ e, e ∈ entries → snp_id <$> e.2 = first) →
  snp_order_consistent (Some first) entries = true.
Proof.
  induction entries as [|[p data] entries IH]; intros H; [done|]. simpl.
  rewrite bool_decide_false.
  - apply IH. intros e He. apply H. by right.
  - intros N. apply N. symmetry. apply (H (p, data)). left.
Qed.

Lemma validate_map_consistency_same_ids s :
  (∀ e1 e2, e1 ∈ map_data s → e2 ∈ map_data s →
            snp_id <$> e1.2 = snp_id <$> e2.2) →
  validate_map_consistency s = (s, true).
Proof.
  intros H. unfold validate_map_consistency.
  case_bool_decide as Hlen; [done|].
  destruct (map_data s) as [|[p0 d0] rest] eqn:E; [simpl in Hlen; lia|].
  rewrite bool_decide_false.
  - simpl. rewrite snp_order_consistent_all; [done|].
    intros e He. apply (H e (p0, d0)); [by right|left].
  - pose proof (size_list_to_set_const
                  ((λ e : str * list MarkerRecord, length e.2)
                     <$> (p0, d0) :: rest) (length d0)) as Hs.
    enough (size (list_to_set ((λ e : str * list MarkerRecord, length e.2)
                                 <$> (p0, d0) :: rest) : gset nat) ≤ 1) by lia.
    apply Hs. intros x (e & -> & He)%list_elem_of_fmap.
    rewrite <- (length_fmap snp_id e.2), <- (length_fmap snp_id d0).
    f_equal. apply (H e (p0, d0)); [done|left].
Qed.

(** X11: [validate_map_consistency] passes exactly when all marker tables
    carry the same sequence of marker ids (chromosomes, distances and
    positions are not compared); when it passes the state is unchanged, and
    when it fails exactly one [InconsistentSchema] defect is appended and
    the flag is raised. *)
Theorem X11_validate_map_consistency_iff s :
  let r := validate_map_consistency s in
  (r.2 = true
   ↔ ∀ e1 e2, e1 ∈ map_data s → e2 ∈ map_data s →
              snp_id <$> e1.2 = snp_id <$> e2.2)
  ∧ (r.2 = true → r.1 = s)
  ∧ (r.2 = false → ∃ why, r.1 = defect (InconsistentSchema why) s).
Proof.
  intros r. subst r. split; [split|split].
  - intros Ht e1 e2 H1 H2.
    destruct (decide (snp_id <$> e1.2 = snp_id <$> e2.2)) as [|Ne]; [done|].
    destruct (validate_map_consistency_mismatch s e1 e2 H1 H2 Ne) as [why E].
    rewrite E in Ht. done.
  - intros H. by rewrite validate_map_consistency_same_ids.
  - intros Ht. apply validate_map_consistency_true.
    destruct (validate_map_consistency s) as [s' ok]. simpl in Ht. by subst ok.
  - unfold validate_map_consistency. repeat case_match; simpl; try done;
      intros _; by eexists.
Qed.

(** X12: [validate_v1plus_chip] looks at the first marker table only.
    Without any marker table it answers false and records nothing; with one
    it answers true, leaving the state unchanged, exactly when every one of
    the seven reference marker ids occurs in the first table, and otherwise
    records [UnrecognizedChipFormat] and raises the flag. *)
Theorem X12_validate_v1plus_chip s :
  (map_data s = [] → validate_v1plus_chip s = (s, false))
  ∧ (∀ p first rest, map_data s = (p, first) :: rest →
       ((∀ snp, snp ∈ v1plus_snps → snp ∈ snp_id <$> first) →
        validate_v1plus_chip s = (s, true))
       ∧ (∀ snp, snp ∈ v1plus_snps → snp ∉ snp_id <$> first →
          validate_v1plus_chip s = (defect UnrecognizedChipFormat s, false))).
Proof.
  unfold validate_v1plus_chip. split; [by intros ->|].
  intros p first rest ->.
  destruct (forallb _ v1plus_snps) eqn:E.
  - split; [done|]. intros snp Hin Hn.
    rewrite forallb_forall in E. apply list_elem_of_In, E in Hin.
    by apply bool_decide_eq_true in Hin.
  - split; [|done]. intros H.
    assert (forallb (λ snp, bool_decide (snp ∈ snp_id <$> first)) v1plus_snps
            = true) as Et; [|congruence].
    apply forallb_forall. intros snp Hin%list_elem_of_In.
    apply bool_decide_eq_true. by apply H.
Qed.

Lemma validated_keys_are_sample_ids s :
  (validate_data_integrity s).2 = true →
  NoDup (dict_keys (split_table s)) →
  list_to_set (dict_keys (split_table s)) = all_sample_ids s.
Proof.
  intros (_ & Hall & Hlen)%validate_data_integrity_true ND.
  apply set_subseteq_size_eq.
  - intros c Hc%elem_of_list_to_set. by apply Hall.
  - rewrite size_list_to_set by done. unfold dict_keys.
    rewrite length_fmap. lia.
Qed.

(** X13: in a batch that passes [validate_data_integrity] (the mapping
    table being a dictionary, its chip ids are distinct) the chip ids of the
    mapping table and the sample ids of the loaded records are the same set:
    no mapping entry lacks a sample and no sample lacks a mapping entry. *)
Theorem X13_validated_ids_coincide s :
  (validate_data_integrity s).2 = true →
  NoDup (dict_keys (split_table s)) →
  ∀ c, c ∈ dict_keys (split_table s) ↔ c ∈ sample_id <$> all_samples s.
Proof.
  intros Hv ND c.
  rewrite <- elem_of_all_sample_ids, <- (validated_keys_are_sample_ids s Hv ND).
  by rewrite elem_of_list_to_set.
Qed.

Lemma concat_fmap_fmap {A B} (f : A → B) (ls : list (list A)) :
  concat ((λ l : list A, f <$> l) <$> ls) = f <$> concat ls.
Proof.
  induction ls as [|l ls IH]; csimpl; [done|]. by rewrite IH, fmap_app.
Qed.

(** X14: the round trip on batches with distinct sample ids.  When a batch
    passes validation, has a marker template, and no two loaded records
    share a sample id, the sample lines written over all bundles are the
    lines of the loaded records, each exactly once. *)
Theorem X14_round_trip_with_distinct_sample_ids s now :
  map_data s ≠ [] →
  (validate_data_integrity s).2 = true →
  NoDup (dict_keys (split_table s)) →
  NoDup (sample_id <$> all_samples s) →
  concat (ped_out <$> (split_by_breed now s).2)
  ≡ₚ ped_line <$> all_samples s.
Proof.
  intros Hm Hv NDk NDs.
  destruct (round_trip_when_sample_ids_unique s now Hm Hv NDk NDs)
    as (rowss & -> & Hperm).
  rewrite concat_fmap_fmap. by rewrite Hperm.
Qed.

(** ** Grouping and partitioning *)

(** X15: [breed_groups] partitions the mapping table.  Group labels are
    distinct and are exactly the breeds that occur in the table; a group is
    never empty and holds the (chip id, name) pairs of the entries of its
    breed in table order; all groups together hold each entry of the table
    exactly once; and one more entry at the end of the table adds its breed
    at the end of the group list exactly when the breed is new. *)
Theorem X15_breed_groups_partition t :
  let groups := breed_groups t in
  NoDup (dict_keys groups)
  ∧ (∀ b, b ∈ dict_keys groups ↔ ∃ e, e ∈ t ∧ e.2.2 = b)
  ∧ (∀ b samples, (b, samples) ∈ groups →
       samples ≠ []
       ∧ samples = (λ e, (e.1, e.2.1)) <$> filter (λ e, e.2.2 = b) t)
  ∧ concat (groups.*2) ≡ₚ (λ e, (e.1, e.2.1)) <$> t
  ∧ (∀ e, dict_keys (breed_groups (t ++ [e]))
          = if decide (e.2.2 ∈ dict_keys groups) then dict_keys groups
            else dict_keys groups ++ [e.2.2]).
Proof.
  intros groups.
  assert (∀ b samples, (b, samples) ∈ groups →
            samples ≠ []
            ∧ samples = (λ e, (e.1, e.2.1)) <$> filter (λ e, e.2.2 = b) t)
    as Hgroup.
  { intros b samples H. split; [|by apply breed_groups_elem].
    apply dict_get_elem in H; [|apply breed_groups_NoDup].
    subst groups. unfold breed_groups in H. rewrite breed_fold_get in H.
    simpl in H. destruct (_ <$> filter _ t); [done|]. by intros ->. }
  split; [apply breed_groups_NoDup|]. split; [|split; [exact Hgroup|split]].
  - intros b. split.
    + intros ((b' & samples) & -> & Hg)%list_elem_of_fmap. simpl.
      destruct (Hgroup _ _ Hg) as [Hne ->].
      destruct (filter (λ e, e.2.2 = b') t) as [|e l] eqn:F; [done|].
      assert (e ∈ filter (λ e, e.2.2 = b') t) as He by (rewrite F; left).
      apply list_elem_of_filter in He as [? ?]. by exists e.
    + intros (e & He & <-). by apply breed_groups_keys.
  - apply breed_groups_concat.
  - intros e. subst groups. unfold breed_groups.
    rewrite foldl_snoc. apply dict_append_keys.
Qed.

Lemma split_groups_warnings now groups : ∀ s p tmpl rest,
  map_data s = (p, tmpl) :: rest →
  warnings (split_groups now groups s).1
  = warnings s ++ (filter (λ g, length g.2 < 100) groups).*1.
Proof.
  induction groups as [|[breed samples] groups IH]; intros s p tmpl rest Hm.
  - simpl. by rewrite app_nil_r.
  - simpl.
    set (s1 := if bool_decide (length samples < 100) then warn breed s else s).
    assert (map_data s1 = (p, tmpl) :: rest) as Hm1.
    { subst s1. by case_bool_decide. }
    rewrite (generate_breed_files_template s1 _ _ _ _ _ _ Hm1).
    specialize (IH s1 p tmpl rest Hm1).
    destruct (split_groups now groups s1) as [s3 outs]. simpl in *.
    rewrite IH. subst s1. case_bool_decide as Hl.
    + rewrite filter_cons_True by done. csimpl. by rewrite <- app_assoc.
    + by rewrite filter_cons_False by done.
Qed.

(** X16: a group of fewer than 100 entries is warned about and written all
    the same.  On a batch that is not flagged and has a marker template,
    [split_by_breed] adds to the warnings the labels of exactly the groups
    with fewer than 100 entries, in group order, writes one bundle per
    group, and leaves the flag down and the log as they were. *)
Theorem X16_small_groups_are_warned_and_written s now p tmpl rest :
  map_data s = (p, tmpl) :: rest →
  error_status s = false →
  let r := split_by_breed now s in
  let groups := breed_groups (split_table s) in
  warnings r.1 = warnings s ++ (filter (λ g, length g.2 < 100) groups).*1
  ∧ length r.2 = length groups
  ∧ error_status r.1 = false
  ∧ log r.1 = log s.
Proof.
  intros Hm He r groups.
  pose proof (split_by_breed_bundles now s p tmpl rest Hm He) as Hb.
  subst r. split; [|split].
  - unfold split_by_breed. rewrite He. by apply (split_groups_warnings _ _ s p tmpl rest).
  - by rewrite Hb, length_fmap.
  - unfold split_by_breed. rewrite He. subst groups.
    destruct (split_groups_template now (breed_groups (split_table s))
                s p tmpl rest Hm) as (Hl & Hf & _).
    split; [by rewrite Hf|exact Hl].
Qed.

Lemma split_groups_extends now groups : ∀ s,
  extends s (split_groups now groups s).1.
Proof.
  induction groups as [|[breed samples] groups IH]; intros s.
  - apply extends_refl.
  - simpl.
    set (s1 := if bool_decide (length samples < 100) then warn breed s else s).
    assert (extends s s1) as X1.
    { subst s1. case_bool_decide; [by apply extends_same_log|apply extends_refl]. }
    assert (extends s1 (generate_breed_files s1 breed samples
                          (breed ++ u "_" ++ now)).1) as X2.
    { unfold generate_breed_files. destruct (map_data s1) as [|[p t] r].
      - apply extends_defect.
      - destruct (collect _ _ _ _). apply extends_refl. }
    destruct (generate_breed_files s1 _ _ _) as [s2 out]. simpl in X2.
    specialize (IH s2).
    destruct (split_groups now groups s2) as [s3 outs]. simpl in *.
    eapply extends_trans; [exact X1|]. by eapply extends_trans.
Qed.

Lemma split_groups_no_template_log now groups : ∀ s,
  map_data s = [] →
  let r := split_groups now groups s in
  r.2 = [] ∧ log r.1 = log s ++ (BundleWriteFailure <$> groups.*1)
  ∧ (groups ≠ [] → error_status r.1 = true).
Proof.
  induction groups as [|[breed samples] groups IH]; intros s Hm.
  - simpl. by rewrite app_nil_r.
  - simpl.
    set (s1 := if bool_decide (length samples < 100) then warn breed s else s).
    assert (map_data s1 = [] ∧ log s1 = log s) as [Hm1 Hl1].
    { subst s1. by case_bool_decide. }
    unfold generate_breed_files. rewrite Hm1.
    destruct (IH (defect (BundleWriteFailure breed) s1) Hm1) as (H2 & Hl & _).
    pose proof (split_groups_extends now groups
                  (defect (BundleWriteFailure breed) s1)) as X.
    destruct (split_groups now groups _) as [s3 outs]. simpl in *.
    split; [done|]. split.
    + rewrite Hl, Hl1, <- app_assoc. done.
    + intros _. by apply (extends_flag _ _ X).
Qed.

(** X17: without any marker table nothing can be written.  On a batch
    that is not flagged and has no marker table, [split_by_breed] writes no
    bundle, records one [BundleWriteFailure] for every group, in group
    order, and goes on to the next group each time; the flag is raised as
    soon as there is a group. *)
Theorem X17_no_template_no_bundle s now :
  map_data s = [] →
  error_status s = false →
  let r := split_by_breed now s in
  r.2 = []
  ∧ log r.1
    = log s ++ (BundleWriteFailure <$> dict_keys (breed_groups (split_table s)))
  ∧ (split_table s ≠ [] → error_status r.1 = true).
Proof.
  intros Hm He r. subst r. unfold split_by_breed. rewrite He.
  destruct (split_groups_no_template_log now (breed_groups (split_table s))
              s Hm) as (H1 & H2 & H3).
  split; [done|]. split; [done|]. intros Ht. apply H3.
  destruct (split_table s) as [|e t] eqn:E; [done|].
  pose proof (breed_groups_keys (e :: t) e ltac:(left)) as Hk.
  intros Hg. rewrite Hg in Hk. by apply elem_of_nil in Hk.
Qed.

Lemma find_in_ped_head c data :
  find_in_ped c data = head (filter (λ r, sample_id r = c) data).
Proof.
  induction data as [|r data IH]; simpl; [done|]. case_decide as E.
  - by rewrite filter_cons_True.
  - by rewrite filter_cons_False.
Qed.

(** X18: the search for a sample returns the first loaded record with the
    wanted sample id, tables in dictionary order and records in file order
    within a table; later records with the same id are never returned, and
    the answer is empty exactly when no record has the id. *)
Theorem X18_find_sample_takes_first_match c peds :
  find_sample c peds
  = head (filter (λ r, sample_id r = c) (concat ((λ e, e.2) <$> peds)))
  ∧ (find_sample c peds = None
     ↔ c ∉ sample_id <$> concat ((λ e, e.2) <$> peds)).
Proof.
  split; [|apply find_sample_None].
  induction peds as [|[p data] peds IH]; simpl; [done|].
  rewrite filter_app, find_in_ped_head, IH.
  by destruct (filter _ data).
Qed.

(** ** The main program *)

Lemma split_by_breed_extends now s : extends s (split_by_breed now s).1.
Proof.
  unfold split_by_breed. destruct (error_status s).
  - apply extends_refl.
  - apply split_groups_extends.
Qed.

Lemma validate_map_consistency_false s s' :
  validate_map_consistency s = (s', false) → error_status s' = true.
Proof.
  unfold validate_map_consistency. repeat case_match; by intros [= <-].
Qed.

Lemma run_extends w now : extends init (final (run w now)).
Proof.
  unfold run.
  set (s0 := load_exclude_list w (u "exclude_chipid.txt") init).
  assert (extends init s0) as X0.
  { destruct (load_exclude_list_log w (u "exclude_chipid.txt") init)
      as (L & E & _). by apply extends_same_log. }
  pose proof (extends_trans _ _ _ X0
                (load_split_table_extends w (u "split_plink.txt") s0)) as X1.
  destruct (error_status (load_split_table _ _ s0)); [exact X1|].
  pose proof (find_plink_files_extends w
                (load_split_table w (u "split_plink.txt") s0)) as X2.
  destruct (find_plink_files w _) as [s2 pairs]. simpl in X2.
  pose proof (extends_trans _ _ _ X1 X2) as X2'.
  destruct (error_status s2); [exact X2'|].
  pose proof (extends_trans _ _ _ X2' (load_plink_files_extends w pairs s2))
    as X3.
  destruct (error_status (load_plink_files w pairs s2)); [exact X3|].
  pose proof (validate_map_consistency_extends (load_plink_files w pairs s2))
    as X4.
  destruct (validate_map_consistency _) as [s4 ok4]. simpl in X4.
  pose proof (extends_trans _ _ _ X3 X4) as X4'.
  destruct ok4; cbn [negb]; [|exact X4'].
  pose proof (validate_data_integrity_extends s4) as X5.
  destruct (validate_data_integrity s4) as [s5 ok5]. simpl in X5.
  pose proof (extends_trans _ _ _ X4' X5) as X5'.
  destruct ok5; cbn [negb]; [|exact X5'].
  pose proof (split_by_breed_extends now s5) as X6.
  destruct (split_by_breed now s5) as [s6 outs]. simpl in *.
  by eapply extends_trans.
Qed.

Lemma run_exit_1_flag w now :
  exit_code (run w now) = 1 → error_status (final (run w now)) = true.
Proof.
  unfold run.
  destruct (error_status (load_split_table _ _ _)) eqn:E1; [done|].
  destruct (find_plink_files w _) as [s2 pairs].
  destruct (error_status s2) eqn:E2; [done|].
  destruct (error_status (load_plink_files w pairs s2)) eqn:E3; [done|].
  destruct (validate_map_consistency _) as [s4 ok4] eqn:E4.
  destruct ok4; cbn [negb].
  - pose proof (eq_refl : (validate_data_integrity s4).2
                          = negb (error_status (validate_data_integrity s4).1))
      as E5.
    destruct (validate_data_integrity s4) as [s5 ok5]. simpl in E5.
    destruct ok5; cbn [negb].
    + by destruct (split_by_breed now s5).
    + intros _. simpl. by destruct (error_status s5).
  - intros _. by apply validate_map_consistency_false in E4.
Qed.

Lemma run_exit_cases w now :
  exit_code (run w now) = 0 ∨ exit_code (run w now) = 1.
Proof. unfold run. repeat case_match; simpl; auto. Qed.

Lemma run_flag_iff_log w now :
  error_status (final (run w now)) = true ↔ log (final (run w now)) ≠ [].
Proof.
  destruct (run_extends w now) as (ds & L & E).
  simpl in L, E. rewrite L, E. destruct ds; simpl; split; done.
Qed.

Lemma run_clean_log_exit_0 w now :
  log (final (run w now)) = [] → exit_code (run w now) = 0.
Proof.
  intros L. destruct (run_exit_cases w now) as [|E1]; [done|].
  apply run_exit_1_flag, run_flag_iff_log in E1. done.
Qed.

(** X19: the flag mirrors the log, and the program never gives up without
    saying why.  A run ends with exit code 0 or 1; at its end the flag is up
    exactly when the log holds a defect; and a run that ends with exit code
    1 has recorded at least one defect and has written no bundle. *)
Theorem X19_run_exit_code w now :
  let o := run w now in
  (exit_code o = 0 ∨ exit_code o = 1)
  ∧ (error_status (final o) = true ↔ log (final o) ≠ [])
  ∧ (exit_code o = 1 → log (final o) ≠ [] ∧ bundles o = []).
Proof.
  intros o. subst o. split; [apply run_exit_cases|].
  split; [apply run_flag_iff_log|]. intros E1.
  assert (log (final (run w now)) ≠ []) as N.
  { by apply run_flag_iff_log, run_exit_1_flag. }
  split; [exact N|]. by apply run_defect_stops.
Qed.

Lemma split_groups_split_table now groups : ∀ s,
  split_table (split_groups now groups s).1 = split_table s.
Proof.
  induction groups as [|[breed samples] groups IH]; intros s; [done|].
  simpl.
  set (s1 := if bool_decide (length samples < 100) then warn breed s else s).
  assert (split_table s1 = split_table s) as H1.
  { subst s1. by case_bool_decide. }
  assert (split_table (generate_breed_files s1 breed samples
                         (breed ++ u "_" ++ now)).1 = split_table s1) as H2.
  { unfold generate_breed_files. destruct (map_data s1) as [|[p t] r]; [done|].
    by destruct (collect _ _ _ _). }
  destruct (generate_breed_files s1 _ _ _) as [s2 out]. simpl in H2.
  specialize (IH s2).
  destruct (split_groups now groups s2) as [s3 outs]. simpl in *. congruence.
Qed.

Lemma validated_rows_count s (gs : list (str * list (str * str))) :
  (validate_data_integrity s).2 = true →
  (∀ g, g ∈ gs → g ∈ breed_groups (split_table s)) →
  length (concat ((λ g : str * list (str * str),
                     ped_line <$> omap (λ e : str * str,
                                          find_sample e.1 (ped_data s)) g.2)
                    <$> gs))
  = length (concat (gs.*2))
  ∧ length (concat ((λ g : str * list (str * str),
                       (λ e : str * str, e.1 ++ [tab] ++ e.2 ++ [nl])
                         <$> filter (λ e : str * str,
                                       is_Some (find_sample e.1 (ped_data s)))
                                    g.2) <$> gs))
    = length (concat (gs.*2)).
Proof.
  intros Hv Hin.
  assert (∀ g, g ∈ gs →
            length (omap (λ e : str * str, find_sample e.1 (ped_data s)) g.2)
            = length g.2
            ∧ filter (λ e : str * str, is_Some (find_sample e.1 (ped_data s)))
                     g.2 = g.2) as Hg.
  { intros g Hgs.
    pose proof (validated_group_all_found s g Hv (Hin g Hgs)) as Hall.
    pose proof (omap_find_sample_ids (ped_data s) g.2) as Hids.
    apply (f_equal length) in Hids. rewrite !length_fmap, Hall in Hids.
    done. }
  clear Hin. split.
  - induction gs as [|g gs IH]; [done|].
    rewrite !fmap_cons. cbn [concat]. rewrite !length_app, length_fmap.
    rewrite IH by (intros; apply Hg; by right).
    destruct (Hg g ltac:(left)) as [-> _]. done.
  - induction gs as [|g gs IH]; [done|].
    rewrite !fmap_cons. cbn [concat]. rewrite !length_app, length_fmap.
    rewrite IH by (intros; apply Hg; by right).
    destruct (Hg g ltac:(left)) as [_ ->]. done.
Qed.

#[local] Instance app_suffix_inj (sfx : str) : Inj (=) (=) (λ b : str, b ++ sfx).
Proof. intros x y H. by apply app_inv_tail in H. Qed.

(** X20: the bundles of a run without defect.  A run that ends with an
    empty log has written one bundle per group of the mapping table, under
    pairwise different file stems, and the bundles hold together one sample
    row and one identifier-translation line for each entry of the mapping
    table. *)
Theorem X20_successful_run_bundles w now :
  log (final (run w now)) = [] →
  let o := run w now in
  let table := split_table (final o) in
  length (bundles o) = length (breed_groups table)
  ∧ NoDup (stem <$> bundles o)
  ∧ length (concat (ped_out <$> bundles o)) = length table
  ∧ length (concat (idmap_out <$> bundles o)) = length table.
Proof.
  intros (s & Hv & L & Ht & Hf & Hb)%run_clean_log_exit_0%run_success_state
         o table.
  subst o table. rewrite Hf, Hb.
  pose proof Hv as (He & _)%validate_data_integrity_true.
  assert (split_table (split_by_breed now s).1 = split_table s) as ->.
  { unfold split_by_breed. rewrite He. apply split_groups_split_table. }
  destruct (split_table s) as [|e t] eqn:E.
  - unfold split_by_breed. rewrite He, E. simpl. repeat split; constructor.
  - destruct (map_data s) as [|[p tmpl] rest] eqn:Hm; [by destruct Ht|].
    rewrite (split_by_breed_bundles now s p tmpl rest Hm He), E.
    rewrite <- E in *. clear E.
    split; [by rewrite length_fmap|]. split; [|split].
    + rewrite <- list_fmap_compose.
      assert ((stem ∘ _) <$> breed_groups (split_table s)
              = (λ b : str, b ++ u "_" ++ now)
                  <$> dict_keys (breed_groups (split_table s))) as ->.
      { unfold dict_keys. rewrite <- list_fmap_compose.
        by apply list_fmap_ext. }
      apply (NoDup_fmap_2 _), breed_groups_NoDup.
    + rewrite <- list_fmap_compose.
      destruct (validated_rows_count s (breed_groups (split_table s)) Hv
                  ltac:(done)) as [H1 _].
      etransitivity; [exact H1|].
      rewrite breed_groups_concat. by rewrite length_fmap.
    + rewrite <- list_fmap_compose.
      destruct (validated_rows_count s (breed_groups (split_table s)) Hv
                  ltac:(done)) as [_ H2].
      etransitivity; [exact H2|].
      rewrite breed_groups_concat. by rewrite length_fmap.
Qed.

Lemma load_ped_file_data_indep w f n s s' :
  (load_ped_file w f n s).2 = (load_ped_file w f n s').2.
Proof.
  unfold load_ped_file.
  pose proof (load_ped_rows_data f (6 + 2 * n) 1 (lines (open_file w f)) s []
                ltac:(lia)) as H.
  pose proof (load_ped_rows_data f (6 + 2 * n) 1 (lines (open_file w f)) s' []
                ltac:(lia)) as H'.
  destruct (load_ped_rows f _ 1 _ s []) as [s1 d].
  destruct (load_ped_rows f _ 1 _ s' []) as [s1' d']. simpl in H, H'.
  destruct (raises _); simpl; congruence.
Qed.

(** X21: what one turn of the loading loop stores.  When the marker file of
    a pair yields marker rows, they are stored under the file stem; the
    sample rows parsed with that marker count are stored under the same
    stem if there are any, and otherwise the sample tables stay as they
    were; the tables of every other stem and the mapping table are
    untouched. *)
Theorem X21_load_pair_stores_under_stem w s map_file ped_file :
  let markers := (load_map_file w map_file s).2 in
  let samples := (load_ped_file w ped_file (length markers) s).2 in
  let stem := drop_last4 map_file in
  let s' := load_pair w s (map_file, ped_file) in
  markers ≠ [] →
  dict_get stem (map_data s') = Some markers
  ∧ (samples ≠ [] → dict_get stem (ped_data s') = Some samples)
  ∧ (samples = [] → ped_data s' = ped_data s)
  ∧ (∀ k, k ≠ stem →
          dict_get k (map_data s') = dict_get k (map_data s)
          ∧ dict_get k (ped_data s') = dict_get k (ped_data s))
  ∧ split_table s' = split_table s.
Proof.
  intros markers samples stem s' Hne. subst s'. unfold load_pair.
  destruct (load_map_file_frame w map_file s) as (Hm1 & Hp1 & Ht1).
  subst markers. destruct (load_map_file w map_file s) as [s1 data].
  simpl in *. destruct data as [|m data]; [done|]. fold stem.
  set (s2 := set_map_data (dict_set stem (m :: data) (map_data s1)) s1).
  destruct (load_ped_file_frame w ped_file (length (m :: data)) s2)
    as (Hm3 & Hp3 & Ht3).
  pose proof (load_ped_file_data_indep w ped_file (length (m :: data)) s2 s)
    as Hd. fold samples in Hd.
  destruct (load_ped_file w ped_file _ s2) as [s3 smp]. simpl in *.
  subst smp.
  assert (map_data s3 = dict_set stem (m :: data) (map_data s)) as Hm.
  { by rewrite Hm3, <- Hm1. }
  assert (ped_data s3 = ped_data s) as Hp by (by rewrite Hp3, <- Hp1).
  assert (split_table s3 = split_table s) as Ht by (by rewrite Ht3, <- Ht1).
  destruct samples as [|r smp] eqn:Es.
  - rewrite Hm, Hp, Ht. split; [apply dict_get_set_eq|].
    split; [done|]. split; [done|]. split; [|done].
    intros k Hk. split; [|done]. by apply dict_get_set_ne.
  - simpl. rewrite Hm, Hp, Ht. split; [apply dict_get_set_eq|].
    split; [intros _; apply dict_get_set_eq|]. split; [done|].
    split; [|done]. intros k Hk. split; by apply dict_get_set_ne.
Qed.

(** ** The exclude list is never consulted *)

Ltac solve_same :=
  unfold same_but_exclude_set in *; simpl in *; intuition congruence.

Lemma same_defect d s s' :
  same_but_exclude_set s s' → same_but_exclude_set (defect d s) (defect d s').
Proof. solve_same. Qed.

Lemma load_split_rows_same f ls : ∀ n s s',
  same_but_exclude_set s s' →
  same_but_exclude_set (load_split_rows f n ls s) (load_split_rows f n ls s').
Proof.
  induction ls as [|line ls IH]; intros n s s' R; [done|].
  simpl. apply IH. case_bool_decide; [by apply same_defect|].
  destruct (fields line) as [|a [|b [|c [|]]]]; try done.
  assert (split_table s = split_table s') as <- by solve_same.
  destruct (dict_mem a (split_table s)); [by apply same_defect|solve_same].
Qed.

Lemma find_plink_loop_same w names : ∀ s s' ms ps,
  same_but_exclude_set s s' →
  same_but_exclude_set (find_plink_loop w names s ms ps).1.1
                       (find_plink_loop w names s' ms ps).1.1
  ∧ (find_plink_loop w names s ms ps).1.2
    = (find_plink_loop w names s' ms ps).1.2
  ∧ (find_plink_loop w names s ms ps).2 = (find_plink_loop w names s' ms ps).2.
Proof.
  induction names as [|x names IH]; intros s s' ms ps R; [done|].
  simpl. repeat case_match; apply IH; by try apply same_defect.
Qed.

Lemma load_map_rows_same f ls : ∀ n s s' data,
  same_but_exclude_set s s' →
  same_but_exclude_set (load_map_rows f n ls s data).1
                       (load_map_rows f n ls s' data).1
  ∧ (load_map_rows f n ls s data).2 = (load_map_rows f n ls s' data).2.
Proof.
  induction ls as [|line ls IH]; intros n s s' data R; [done|].
  simpl. case_bool_decide; [by apply IH, same_defect|].
  destruct (fields line) as [|a [|b [|c [|d [|]]]]]; by apply IH.
Qed.

Lemma load_ped_rows_same f k ls : ∀ n s s' data,
  same_but_exclude_set s s' →
  same_but_exclude_set (load_ped_rows f k n ls s data).1
                       (load_ped_rows f k n ls s' data).1
  ∧ (load_ped_rows f k n ls s data).2 = (load_ped_rows f k n ls s' data).2.
Proof.
  induction ls as [|line ls IH]; intros n s s' data R; [done|].
  simpl. case_bool_decide; [by apply IH, same_defect|].
  destruct (fields line) as [|a [|b [|c [|d [|e [|g gs]]]]]]; by apply IH.
Qed.

Lemma split_groups_same now groups : ∀ s s',
  same_but_exclude_set s s' →
  same_but_exclude_set (split_groups now groups s).1
                       (split_groups now groups s').1
  ∧ (split_groups now groups s).2 = (split_groups now groups s').2.
Proof.
  induction groups as [|[breed samples] groups IH]; intros s s' R; [done|].
  simpl.
  set (s1 := if bool_decide (length samples < 100) then warn breed s else s).
  set (s1' := if bool_decide (length samples < 100) then warn breed s' else s').
  assert (same_but_exclude_set s1 s1') as R1.
  { subst s1 s1'. case_bool_decide; solve_same. }
  unfold generate_breed_files.
  assert (map_data s1 = map_data s1') as <- by solve_same.
  assert (ped_data s1 = ped_data s1') as <- by solve_same.
  destruct (map_data s1) as [|[p tmpl] rest].
  - destruct (IH (defect (BundleWriteFailure breed) s1)
                 (defect (BundleWriteFailure breed) s1')
                 (same_defect _ _ _ R1)) as [IH1 IH2].
    destruct (split_groups now groups (defect _ s1)) as [s3 outs].
    destruct (split_groups now groups (defect _ s1')) as [s3' outs'].
    simpl in *. by subst.
  - destruct (collect (ped_data s1) samples [] []) as [rows names].
    destruct (IH s1 s1' R1) as [IH1 IH2].
    destruct (split_groups now groups s1) as [s3 outs].
    destruct (split_groups now groups s1') as [s3' outs'].
    simpl in *. by subst.
Qed.

(** Every stage of [run] after [load_exclude_list], in one function of the
    directory and the state: what it computes does not read the exclude
    set. *)
Lemma load_split_table_same w f s s' :
  same_but_exclude_set s s' →
  same_but_exclude_set (load_split_table w f s) (load_split_table w f s').
Proof.
  intros R. unfold load_split_table.
  destruct (negb _); [by apply same_defect|].
  destruct (getsize_is_zero _); [by apply same_defect|].
  destruct (raises _); [apply same_defect|]; by apply load_split_rows_same.
Qed.

Lemma find_plink_files_same w s s' :
  same_but_exclude_set s s' →
  same_but_exclude_set (find_plink_files w s).1 (find_plink_files w s').1
  ∧ (find_plink_files w s).2 = (find_plink_files w s').2.
Proof.
  intros R. unfold find_plink_files.
  destruct (find_plink_loop_same w (dict_keys w) s s' [] [] R)
    as (R1 & Hm & Hp).
  destruct (find_plink_loop w (dict_keys w) s [] []) as [[s1 ms] ps].
  destruct (find_plink_loop w (dict_keys w) s' [] []) as [[s1' ms'] ps'].
  simpl in *. subst ms' ps'. destruct ms; simpl; [|done].
  split; [by apply same_defect|done].
Qed.

Lemma load_pair_same w s s' pair :
  same_but_exclude_set s s' →
  same_but_exclude_set (load_pair w s pair) (load_pair w s' pair).
Proof.
  intros R. destruct pair as [mf pf]. unfold load_pair, load_map_file.
  destruct (load_map_rows_same mf (lines (open_file w mf)) 1 s s' [] R)
    as [R1 Hd].
  destruct (load_map_rows mf 1 _ s []) as [s1 data].
  destruct (load_map_rows mf 1 _ s' []) as [s1' data']. simpl in R1, Hd.
  subst data'.
  destruct (raises (open_file w mf)); [by apply same_defect|].
  destruct data as [|m data]; [done|].
  set (s2 := set_map_data _ s1). set (s2' := set_map_data _ s1').
  assert (same_but_exclude_set s2 s2') as R2 by (subst s2 s2'; solve_same).
  unfold load_ped_file.
  destruct (load_ped_rows_same pf (6 + 2 * length (m :: data))
              (lines (open_file w pf)) 1 s2 s2' [] R2) as [R3 Hd3].
  destruct (load_ped_rows pf _ 1 _ s2 []) as [s3 smp].
  destruct (load_ped_rows pf _ 1 _ s2' []) as [s3' smp']. simpl in R3, Hd3.
  subst smp'.
  destruct (raises (open_file w pf)); [by apply same_defect|].
  destruct smp; [done|]. solve_same.
Qed.

Lemma load_plink_files_same w pairs : ∀ s s',
  same_but_exclude_set s s' →
  same_but_exclude_set (load_plink_files w pairs s)
                       (load_plink_files w pairs s').
Proof.
  unfold load_plink_files.
  induction pairs as [|p pairs IH]; intros s s' R; [done|].
  simpl. by apply IH, load_pair_same.
Qed.

Lemma validate_map_consistency_same s s' :
  same_but_exclude_set s s' →
  same_but_exclude_set (validate_map_consistency s).1
                       (validate_map_consistency s').1
  ∧ (validate_map_consistency s).2 = (validate_map_consistency s').2.
Proof.
  intros R. unfold validate_map_consistency.
  assert (map_data s = map_data s') as <- by solve_same.
  repeat case_match; simpl; split; try done; by apply same_defect.
Qed.

Lemma validate_data_integrity_same s s' :
  same_but_exclude_set s s' →
  same_but_exclude_set (validate_data_integrity s).1
                       (validate_data_integrity s').1
  ∧ (validate_data_integrity s).2 = (validate_data_integrity s').2.
Proof.
  intros R. rewrite !validate_data_integrity_unfold. cbn zeta.
  unfold all_sample_ids, missing_genotypes.
  assert (ped_data s = ped_data s') as <- by solve_same.
  assert (split_table s = split_table s') as <- by solve_same.
  repeat case_match; simpl; split; solve_same.
Qed.

Lemma split_by_breed_same now s s' :
  same_but_exclude_set s s' →
  same_but_exclude_set (split_by_breed now s).1 (split_by_breed now s').1
  ∧ (split_by_breed now s).2 = (split_by_breed now s').2.
Proof.
  intros R. unfold split_by_breed.
  assert (error_status s = error_status s') as <- by solve_same.
  assert (split_table s = split_table s') as <- by solve_same.
  destruct (error_status s); [done|]. by apply split_groups_same.
Qed.

Lemma dict_get_without {V} name n (w : list (str * V)) :
  n ≠ name → dict_get n (filter (λ e, e.1 ≠ name) w) = dict_get n w.
Proof.
  intros Hn. induction w as [|[k v] w IH]; [done|].
  destruct (decide (k = name)) as [->|Hk].
  - rewrite filter_cons_False by (simpl; by intros ?). simpl.
    by rewrite decide_False.
  - rewrite filter_cons_True by done. simpl. by rewrite IH.
Qed.

Lemma dict_keys_without {V} name (w : list (str * V)) :
  dict_keys (filter (λ e, e.1 ≠ name) w)
  = filter (λ k, k ≠ name) (dict_keys w).
Proof.
  unfold dict_keys. induction w as [|[k v] w IH]; [done|]. csimpl.
  destruct (decide (k = name)) as [->|Hk].
  - rewrite !filter_cons_False by (simpl; by intros ?). exact IH.
  - rewrite !filter_cons_True by done. csimpl. by rewrite IH.
Qed.

Lemma path_exists_without name n w :
  n ≠ name → path_exists (without_file name w) n = path_exists w n.
Proof.
  intros Hn. unfold path_exists, dict_mem, without_file.
  rewrite (dict_keys_without name w). apply bool_decide_ext.
  rewrite list_elem_of_filter. tauto.
Qed.

Lemma path_exists_without_self name w :
  path_exists (without_file name w) name = false.
Proof.
  unfold path_exists, dict_mem, without_file.
  rewrite (dict_keys_without name w). apply bool_decide_eq_false. by intros [? _]%list_elem_of_filter.
Qed.

Lemma open_file_without name n w :
  n ≠ name → open_file (without_file name w) n = open_file w n.
Proof.
  intros Hn. unfold open_file, without_file.
  by rewrite (dict_get_without name n w Hn).
Qed.

Lemma endswith_app a sfx : endswith (a ++ sfx) sfx = true.
Proof. apply bool_decide_eq_true. by apply suffix_app_r. Qed.

Lemma endswith_differ n name sfx :
  endswith n sfx = true → endswith name sfx = false → n ≠ name.
Proof. intros H1 H2 ->. congruence. Qed.

Lemma load_split_table_without name w f s :
  f ≠ name →
  load_split_table (without_file name w) f s = load_split_table w f s.
Proof.
  intros Hf. unfold load_split_table.
  by rewrite path_exists_without, open_file_without.
Qed.

Lemma load_map_file_without name w f s :
  f ≠ name → load_map_file (without_file name w) f s = load_map_file w f s.
Proof. intros Hf. unfold load_map_file. by rewrite open_file_without. Qed.

Lemma load_ped_file_without name w f n s :
  f ≠ name → load_ped_file (without_file name w) f n s = load_ped_file w f n s.
Proof. intros Hf. unfold load_ped_file. by rewrite open_file_without. Qed.

Lemma load_plink_files_without name w pairs : ∀ s,
  Forall (λ pair, pair.1 ≠ name ∧ pair.2 ≠ name) pairs →
  load_plink_files (without_file name w) pairs s = load_plink_files w pairs s.
Proof.
  unfold load_plink_files.
  induction pairs as [|[mf pf] pairs IH]; intros s H; [done|].
  apply Forall_cons in H as [[Hm Hp] H]. simpl in Hm, Hp. simpl.
  rewrite <- IH by done. f_equal. unfold load_pair.
  rewrite load_map_file_without by done.
  destruct (load_map_file w mf s) as [s1 [|m data]]; [done|].
  by rewrite load_ped_file_without.
Qed.

Lemma find_plink_loop_without name w names : ∀ s ms ps,
  endswith name (u ".map") = false → endswith name (u ".ped") = false →
  find_plink_loop (without_file name w) (filter (λ k, k ≠ name) names) s ms ps
  = find_plink_loop w names s ms ps.
Proof.
  intros s ms ps Em Ep. revert s ms ps.
  induction names as [|x names IH]; intros s ms ps; [done|].
  destruct (decide (x = name)) as [->|Hx].
  - rewrite filter_cons_False by (by intros ?). simpl. by rewrite Em, Ep.
  - rewrite filter_cons_True by done. simpl.
    destruct (endswith x (u ".map")) eqn:Exm.
    + rewrite path_exists_without
        by (eapply endswith_differ; [apply endswith_app|done]).
      destruct (path_exists w _); apply IH.
    + destruct (endswith x (u ".ped")) eqn:Exp; [|apply IH].
      rewrite path_exists_without
        by (eapply endswith_differ; [apply endswith_app|done]).
      destruct (path_exists w _); simpl; apply IH.
Qed.

Lemma find_plink_files_without name w s :
  endswith name (u ".map") = false → endswith name (u ".ped") = false →
  find_plink_files (without_file name w) s = find_plink_files w s.
Proof.
  intros Em Ep. unfold find_plink_files.
  unfold without_file at 2. rewrite (dict_keys_without name w).
  by rewrite find_plink_loop_without.
Qed.

Lemma find_plink_files_not name w s :
  endswith name (u ".map") = false → endswith name (u ".ped") = false →
  Forall (λ pair, pair.1 ≠ name ∧ pair.2 ≠ name) (find_plink_files w s).2.
Proof.
  intros Em Ep. rewrite find_plink_files_pairs.
  apply Forall_fmap, Forall_forall. intros m [[Hm _] _]%list_elem_of_filter.
  simpl. split.
  - by eapply endswith_differ.
  - eapply endswith_differ; [apply endswith_app|done].
Qed.

(** X22: the exclude list is loaded and never consulted.  Removing the
    file [exclude_chipid.txt] from the working directory changes neither
    the exit code of a run, nor the bundles it writes, nor the log, the
    flag, the warnings or the loaded tables: a chip id listed there is
    validated and written like any other. *)
Theorem X22_exclude_list_is_inert w now :
  let o := run w now in
  let o' := run (without_file (u "exclude_chipid.txt") w) now in
  exit_code o = exit_code o'
  ∧ bundles o = bundles o'
  ∧ same_but_exclude_set (final o) (final o').
Proof.
  intros o o'. subst o o'. unfold run.
  set (ex := u "exclude_chipid.txt"). set (w' := without_file ex w).
  assert (endswith ex (u ".map") = false) as Em by (vm_compute; reflexivity).
  assert (endswith ex (u ".ped") = false) as Ep by (vm_compute; reflexivity).
  assert (u "split_plink.txt" ≠ ex) as Hsp by (vm_compute; discriminate).
  assert (same_but_exclude_set (load_exclude_list w ex init)
                               (load_exclude_list w' ex init)) as R0.
  { destruct (load_exclude_list_log w ex init) as (? & ? & ? & ? & ?).
    destruct (load_exclude_list_log w' ex init) as (? & ? & ? & ? & ?).
    unfold same_but_exclude_set, load_exclude_list in *.
    subst w'. rewrite path_exists_without_self. simpl.
    destruct (negb (path_exists w ex)); simpl; done. }
  pose proof (load_split_table_same w (u "split_plink.txt") _ _ R0) as R1.
  rewrite <- (load_split_table_without ex w _ (load_exclude_list w' ex init)
                Hsp) in R1. fold w' in R1.
  set (s1 := load_split_table w _ _) in *.
  set (s1' := load_split_table w' _ _) in *.
  assert (error_status s1 = error_status s1') as <- by solve_same.
  destruct (error_status s1); [done|].
  destruct (find_plink_files_same w s1 s1' R1) as [R2 Hpairs].
  rewrite <- (find_plink_files_without ex w s1' Em Ep) in R2, Hpairs.
  fold w' in R2, Hpairs.
  pose proof (find_plink_files_not ex w s1 Em Ep) as Hnot.
  destruct (find_plink_files w s1) as [s2 pairs].
  destruct (find_plink_files w' s1') as [s2' pairs']. simpl in R2, Hpairs, Hnot.
  subst pairs'.
  assert (error_status s2 = error_status s2') as <- by solve_same.
  destruct (error_status s2); [done|].
  pose proof (load_plink_files_same w pairs s2 s2' R2) as R3.
  rewrite <- (load_plink_files_without ex w pairs s2' Hnot) in R3.
  fold w' in R3.
  set (s3 := load_plink_files w pairs s2) in *.
  set (s3' := load_plink_files w' pairs s2') in *.
  assert (error_status s3 = error_status s3') as <- by solve_same.
  destruct (error_status s3); [done|].
  destruct (validate_map_consistency_same s3 s3' R3) as [R4 Hok4].
  destruct (validate_map_consistency s3) as [s4 ok4].
  destruct (validate_map_consistency s3') as [s4' ok4']. simpl in R4, Hok4.
  subst ok4'. destruct ok4; cbn [negb]; [|done].
  destruct (validate_data_integrity_same s4 s4' R4) as [R5 Hok5].
  destruct (validate_data_integrity s4) as [s5 ok5].
  destruct (validate_data_integrity s4') as [s5' ok5']. simpl in R5, Hok5.
  subst ok5'. destruct ok5; cbn [negb]; [|done].
  destruct (split_by_breed_same now s5 s5' R5) as [R6 Hout].
  destruct (split_by_breed now s5) as [s6 outs].
  destruct (split_by_breed now s5') as [s6' outs']. simpl in *. by subst.
Qed.

(** ** The outcome of the integrity check *)

Lemma size_all_sample_ids s :
  size (all_sample_ids s)
  = length (remove_dups (sample_id <$> all_samples s)).
Proof.
  rewrite <- (size_list_to_set (C:=gset str)) by apply NoDup_remove_dups.
  f_equal. apply set_eq. intros c.
  by rewrite elem_of_all_sample_ids, elem_of_list_to_set, elem_of_remove_dups.
Qed.

(** X23: what [validate_data_integrity] decides.  It passes exactly when
    the flag was down, every chip id of the mapping table is the sample id
    of a loaded record, and the mapping table has as many rows as there are
    different sample ids among the loaded records; a flag that is already
    up makes it fail whatever the data.  When it passes the state is
    unchanged.  It adds a [RowCountMismatch] exactly when the two counts
    differ, after the [UnmappedChip] defects, which come in mapping-table
    order. *)
Theorem X23_validate_data_integrity_outcome s :
  let r := validate_data_integrity s in
  let ids := sample_id <$> all_samples s in
  let missing := filter (λ c, c ∉ ids) (dict_keys (split_table s)) in
  (r.2 = true
   ↔ error_status s = false
     ∧ (∀ c, c ∈ dict_keys (split_table s) → c ∈ ids)
     ∧ length (split_table s) = length (remove_dups ids))
  ∧ (r.2 = true → r.1 = s)
  ∧ log r.1
    = log s ++ (UnmappedChip <$> missing)
      ++ (if decide (length (split_table s) = length (remove_dups ids))
          then [] else [RowCountMismatch]).
Proof.
  intros r ids missing. subst r. split; [|split].
  - rewrite validate_data_integrity_true, size_all_sample_ids.
    split; intros (? & Hall & ?); (split; [done|split; [|done]]);
      intros c Hc; apply elem_of_all_sample_ids; by apply Hall.
  - apply validate_data_integrity_true_same.
  - rewrite validate_data_integrity_unfold. cbn zeta.
    rewrite size_all_sample_ids. fold ids.
    assert (missing_genotypes s (all_sample_ids s) = missing) as ->.
    { unfold missing_genotypes. subst missing. apply list_filter_iff.
      intros c. by rewrite elem_of_all_sample_ids. }
    set (s2 := match missing with [] => s | _ => _ end).
    assert (log s2 = log s ++ (UnmappedChip <$> missing)) as L2.
    { subst s2. destruct missing; [|done]. by rewrite app_nil_r. }
    cbn [fst]. case_bool_decide as Hc.
    + rewrite decide_False by done. unfold defect. cbn [log].
      rewrite L2, <- app_assoc. done.
    + rewrite decide_True by lia. by rewrite L2, app_nil_r.
Qed.

(** ** Invariants of every run *)

Lemma same_tables_refl s : same_tables s s.
Proof. done. Qed.

Lemma same_tables_trans s1 s2 s3 :
  same_tables s1 s2 → same_tables s2 s3 → same_tables s1 s3.
Proof. unfold same_tables. intuition congruence. Qed.

Lemma load_pair_split_table w s pair :
  split_table (load_pair w s pair) = split_table s.
Proof.
  destruct pair as [mf pf]. unfold load_pair.
  destruct (load_map_file_frame w mf s) as (_ & _ & H1).
  destruct (load_map_file w mf s) as [s1 data]. simpl in H1.
  destruct data as [|m data]; [done|].
  set (s2 := set_map_data _ s1).
  destruct (load_ped_file_frame w pf (length (m :: data)) s2) as (_ & _ & H3).
  destruct (load_ped_file w pf _ s2) as [s3 smp]. simpl in H3.
  destruct smp; simpl; congruence.
Qed.

Lemma load_plink_files_split_table w pairs : ∀ s,
  split_table (load_plink_files w pairs s) = split_table s.
Proof.
  unfold load_plink_files.
  induction pairs as [|p pairs IH]; intros s; [done|].
  simpl. by rewrite IH, load_pair_split_table.
Qed.

Lemma validate_map_consistency_tables s :
  same_tables s (validate_map_consistency s).1.
Proof. unfold validate_map_consistency. by repeat case_match. Qed.

Lemma validate_data_integrity_tables s :
  same_tables s (validate_data_integrity s).1.
Proof.
  rewrite validate_data_integrity_unfold. cbn zeta.
  case_bool_decide; destruct (missing_genotypes _ _); done.
Qed.

Lemma split_groups_tables now groups : ∀ s,
  same_tables s (split_groups now groups s).1.
Proof.
  induction groups as [|[breed samples] groups IH]; intros s; [done|].
  simpl.
  set (s1 := if bool_decide (length samples < 100) then warn breed s else s).
  assert (same_tables s s1) as H1. { subst s1. by case_bool_decide. }
  assert (same_tables s1 (generate_breed_files s1 breed samples
                            (breed ++ u "_" ++ now)).1) as H2.
  { unfold generate_breed_files. destruct (map_data s1) as [|[p t] r]; [done|].
    by destruct (collect _ _ _ _). }
  destruct (generate_breed_files s1 _ _ _) as [s2 out]. simpl in H2.
  specialize (IH s2).
  destruct (split_groups now groups s2) as [s3 outs]. simpl in *.
  eapply same_tables_trans; [exact H1|]. by eapply same_tables_trans.
Qed.

Lemma split_by_breed_tables now s : same_tables s (split_by_breed now s).1.
Proof.
  unfold split_by_breed. destruct (error_status s); [done|].
  apply split_groups_tables.
Qed.

Lemma invariants_same_tables s s' :
  same_tables s s' →
  NoDup (dict_keys (split_table s)) ∧ paired s →
  NoDup (dict_keys (split_table s')) ∧ paired s'.
Proof.
  intros (Hm & Hp & Ht) [ND P]. rewrite Ht. split; [done|].
  by apply (paired_same s).
Qed.

(** X24: two invariants of every run, whatever the directory holds and
    however the run ends: the chip ids of the mapping table are pairwise
    distinct, and every sample table is stored under a file stem that also
    has a marker table. *)
Theorem X24_run_invariants w now :
  let s := final (run w now) in
  NoDup (dict_keys (split_table s)) ∧ paired s.
Proof.
  intros s. subst s. unfold run.
  set (s0 := load_exclude_list w (u "exclude_chipid.txt") init).
  destruct (load_exclude_list_log w (u "exclude_chipid.txt") init)
    as (_ & _ & Ht0 & Hm0 & Hp0). fold s0 in Ht0, Hm0, Hp0.
  assert (NoDup (dict_keys (split_table s0)) ∧ paired s0) as I0.
  { apply (invariants_same_tables init); [done|]. split; [constructor|].
    intros k Hk. by apply elem_of_nil in Hk. }
  assert (NoDup (dict_keys (split_table
                              (load_split_table w (u "split_plink.txt") s0)))
          ∧ paired (load_split_table w (u "split_plink.txt") s0)) as I1.
  { destruct I0 as [ND P]. split; [by apply load_split_table_NoDup|].
    destruct (load_split_table_frame w (u "split_plink.txt") s0) as [? ?].
    by apply (paired_same s0). }
  destruct (error_status (load_split_table _ _ s0)); [exact I1|].
  pose proof (find_plink_files_frame w
                (load_split_table w (u "split_plink.txt") s0)) as F2.
  destruct (find_plink_files w _) as [s2 pairs]. simpl in F2.
  pose proof (invariants_same_tables _ s2 F2 I1) as I2.
  destruct (error_status s2); [exact I2|].
  assert (NoDup (dict_keys (split_table (load_plink_files w pairs s2)))
          ∧ paired (load_plink_files w pairs s2)) as I3.
  { destruct I2 as [ND P]. rewrite load_plink_files_split_table.
    split; [done|]. by apply load_plink_files_paired. }
  destruct (error_status (load_plink_files w pairs s2)); [exact I3|].
  pose proof (validate_map_consistency_tables (load_plink_files w pairs s2))
    as F4.
  destruct (validate_map_consistency _) as [s4 ok4]. simpl in F4.
  pose proof (invariants_same_tables _ s4 F4 I3) as I4.
  destruct ok4; cbn [negb]; [|exact I4].
  pose proof (validate_data_integrity_tables s4) as F5.
  destruct (validate_data_integrity s4) as [s5 ok5]. simpl in F5.
  pose proof (invariants_same_tables _ s5 F5 I4) as I5.
  destruct ok5; cbn [negb]; [|exact I5].
  pose proof (split_by_breed_tables now s5) as F6.
  destruct (split_by_breed now s5) as [s6 outs]. simpl in *.
  by apply (invariants_same_tables s5).
Qed.

(** ** The further properties at concrete batches *)

Lemma X6_every_line_is_loaded_or_reported_witness :
  raises (open_file defective_workdir (u "split_plink.txt")) = false
  ∧ let w := defective_workdir in
    let filename := u "split_plink.txt" in
    let s := init in
    let f := open_file w filename in
    (let r := load_map_file w filename s in
     length r.2 + length (log r.1) = length (log s) + length (lines f))
    ∧ (∀ n, let r := load_ped_file w filename n s in
            length r.2 + length (log r.1) = length (log s) + length (lines f))
    ∧ (path_exists w filename = true → lines f ≠ [] →
       let s' := load_split_table w filename s in
       length (split_table s') + length (log s')
       = length (split_table s) + length (log s) + length (lines f)).
Proof.
  assert (raises (open_file defective_workdir (u "split_plink.txt")) = false)
    as H by (vm_compute; reflexivity).
  split; [exact H|].
  exact (X6_every_line_is_loaded_or_reported defective_workdir
           (u "split_plink.txt") init H).
Defined.

Lemma X9_marker_file_round_trip_witness :
  let written := single_file (u "out.map") (map_line <$> demo_markers) in
  raises (open_file demo_workdir (u "a.map")) = false
  ∧ open_file written (u "out.map")
    = mkFile (map_line <$> (load_map_file demo_workdir (u "a.map") init).2)
             false
  ∧ load_map_file written (u "out.map") init
    = (init, (load_map_file demo_workdir (u "a.map") init).2).
Proof.
  intros written.
  assert (raises (open_file demo_workdir (u "a.map")) = false) as H1
    by (vm_compute; reflexivity).
  assert (open_file written (u "out.map")
          = mkFile (map_line
                      <$> (load_map_file demo_workdir (u "a.map") init).2)
                   false) as H2 by (vm_compute; reflexivity).
  split; [exact H1|]. split; [exact H2|].
  exact (X9_marker_file_round_trip demo_workdir (u "a.map") init written
           (u "out.map") init H1 H2).
Defined.

Lemma X10_sample_rows_round_trip_witness :
  raises (open_file demo_workdir (u "a.ped")) = false
  ∧ let w := demo_workdir in
    let filename := u "a.ped" in
    let data := (load_ped_file w filename 2 init).2 in
    let w' := single_file (u "out.ped") (ped_line <$> data) in
    ped_line <$> data
    = (λ l, strip l ++ [nl])
        <$> filter (λ l, length (fields l) = 6 + 2 * 2)
                   (lines (open_file w filename))
    ∧ (open_file w' (u "out.ped") = mkFile (ped_line <$> data) false →
       load_ped_file w' (u "out.ped") 2 init = (init, data)).
Proof.
  assert (raises (open_file demo_workdir (u "a.ped")) = false) as H1
    by (vm_compute; reflexivity).
  split; [exact H1|].
  exact (X10_sample_rows_round_trip demo_workdir (u "a.ped") 2 init
           (single_file (u "out.ped")
              (ped_line <$> (load_ped_file demo_workdir (u "a.ped") 2 init).2))
           (u "out.ped") init H1).
Defined.

Lemma X13_validated_ids_coincide_witness :
  (validate_data_integrity demo_state).2 = true
  ∧ NoDup (dict_keys (split_table demo_state))
  ∧ ∀ c, c ∈ dict_keys (split_table demo_state)
         ↔ c ∈ sample_id <$> all_samples demo_state.
Proof.
  assert ((validate_data_integrity demo_state).2 = true) as H1
    by (vm_compute; reflexivity).
  assert (NoDup (dict_keys (split_table demo_state))) as H2.
  { apply (bool_decide_unpack _). vm_compute. exact I. }
  split; [exact H1|]. split; [exact H2|].
  exact (X13_validated_ids_coincide demo_state H1 H2).
Defined.

Lemma X14_round_trip_with_distinct_sample_ids_witness :
  map_data demo_state ≠ []
  ∧ (validate_data_integrity demo_state).2 = true
  ∧ NoDup (dict_keys (split_table demo_state))
  ∧ NoDup (sample_id <$> all_samples demo_state)
  ∧ concat (ped_out <$> (split_by_breed stamp demo_state).2)
    ≡ₚ ped_line <$> all_samples demo_state.
Proof.
  assert (map_data demo_state ≠ []) as H1 by (vm_compute; done).
  assert ((validate_data_integrity demo_state).2 = true) as H2
    by (vm_compute; reflexivity).
  assert (NoDup (dict_keys (split_table demo_state))) as H3.
  { apply (bool_decide_unpack _). vm_compute. exact I. }
  assert (NoDup (sample_id <$> all_samples demo_state)) as H4.
  { apply (bool_decide_unpack _). vm_compute. exact I. }
  split; [exact H1|]. split; [exact H2|]. split; [exact H3|].
  split; [exact H4|].
  exact (X14_round_trip_with_distinct_sample_ids demo_state stamp H1 H2 H3 H4).
Defined.

Lemma X16_small_groups_are_warned_and_written_witness :
  map_data demo_state = (u "a", demo_markers) :: []
  ∧ error_status demo_state = false
  ∧ let s := demo_state in
    let r := split_by_breed stamp s in
    let groups := breed_groups (split_table s) in
    warnings r.1 = warnings s ++ (filter (λ g, length g.2 < 100) groups).*1
    ∧ length r.2 = length groups
    ∧ error_status r.1 = false
    ∧ log r.1 = log s.
Proof.
  assert (map_data demo_state = (u "a", demo_markers) :: []) as H1
    by (vm_compute; reflexivity).
  assert (error_status demo_state = false) as H2 by (vm_compute; reflexivity).
  split; [exact H1|]. split; [exact H2|].
  exact (X16_small_groups_are_warned_and_written demo_state stamp _ _ _ H1 H2).
Defined.

Lemma X17_no_template_no_bundle_witness :
  map_data no_template_state = []
  ∧ error_status no_template_state = false
  ∧ let s := no_template_state in
    let r := split_by_breed stamp s in
    r.2 = []
    ∧ log r.1
      = log s
        ++ (BundleWriteFailure <$> dict_keys (breed_groups (split_table s)))
    ∧ (split_table s ≠ [] → error_status r.1 = true).
Proof.
  assert (map_data no_template_state = []) as H1 by reflexivity.
  assert (error_status no_template_state = false) as H2
    by (vm_compute; reflexivity).
  split; [exact H1|]. split; [exact H2|].
  exact (X17_no_template_no_bundle no_template_state stamp H1 H2).
Defined.

Lemma X20_successful_run_bundles_witness :
  log (final (run demo_workdir stamp)) = []
  ∧ let o := run demo_workdir stamp in
    let table := split_table (final o) in
    length (bundles o) = length (breed_groups table)
    ∧ NoDup (stem <$> bundles o)
    ∧ length (concat (ped_out <$> bundles o)) = length table
    ∧ length (concat (idmap_out <$> bundles o)) = length table.
Proof.
  assert (log (final (run demo_workdir stamp)) = []) as H
    by (vm_compute; reflexivity).
  split; [exact H|].
  exact (X20_successful_run_bundles demo_workdir stamp H).
Defined.

Lemma X21_load_pair_stores_under_stem_witness :
  (load_map_file demo_workdir (u "a.map") init).2 ≠ []
  ∧ let w := demo_workdir in
    let s := init in
    let markers := (load_map_file w (u "a.map") s).2 in
    let samples := (load_ped_file w (u "a.ped") (length markers) s).2 in
    let stem := drop_last4 (u "a.map") in
    let s' := load_pair w s (u "a.map", u "a.ped") in
    dict_get stem (map_data s') = Some markers
    ∧ (samples ≠ [] → dict_get stem (ped_data s') = Some samples)
    ∧ (samples = [] → ped_data s' = ped_data s)
    ∧ (∀ k, k ≠ stem →
            dict_get k (map_data s') = dict_get k (map_data s)
            ∧ dict_get k (ped_data s') = dict_get k (ped_data s))
    ∧ split_table s' = split_table s.
Proof.
  assert ((load_map_file demo_workdir (u "a.map") init).2 ≠ []) as H
    by (vm_compute; done).
  split; [exact H|].
  exact (X21_load_pair_stores_under_stem demo_workdir init (u "a.map")
           (u "a.ped") H).
Defined.

Lemma X7_first_mapping_entry_wins_witness :
  dict_get (u "S1")
    (split_table (load_split_table defective_workdir (u "split_plink.txt")
                    init))
  = Some (u "Alice", u "BreedA").
Proof.
  destruct (X7_first_mapping_entry_wins defective_workdir
              (u "split_plink.txt") init) as [_ H].
  cbn zeta in H.
  apply (H ltac:(vm_compute; reflexivity) ltac:(vm_compute; reflexivity)
           0 (tsv ["S1"; "Alice"; "BreedA"])).
  - vm_compute. reflexivity.
  - vm_compute. reflexivity.
  - apply not_elem_of_nil.
  - intros j line' Hj. lia.
Defined.
